(** * Bud and its command-line parser (src/Argparser.h, src/bud.c)

    A shallow embedding of the parser and of the properties its
    specification states.  C strings are Rocq strings read with the C
    conventions (the byte after the last character is the terminator),
    the argument vector is a list of nullable strings that is updated in
    place by index, destinations live in a finite map from addresses to
    typed cells, and every way the C code leaves the process ([exit],
    a failed [assert], an access outside an object) is a constructor of
    [Termination].  A handle fresh from [Argparser_new] holds what its
    memory held; [Argparser_delete], which frees it, is left out.

    The second part embeds the usage text of the parser and Bud itself up
    to the point where it prints: the choice of the input, the reading
    loop, the entries and their buckets, and the totals.  The functions
    that print the buckets and the chart work on floating-point numbers
    and on the width of the terminal, and are left out. *)

From Stdlib Require Import ZArith Ascii String Lia.
From stdpp Require Import gmap list strings.

Open Scope Z_scope.

(** ** C strings *)

Definition NUL : ascii := Ascii.zero.

Definition is_nul (c : ascii) : bool := Ascii.eqb c NUL.

(** [s[i]]: the character at offset [i]; past the characters of [s] the
    terminator is read. *)
Definition char_at (s : string) (i : nat) : ascii :=
  default NUL (String.get i s).

(** [strlen]: the number of characters before the first terminator. *)
Fixpoint strlen (s : string) : nat :=
  match s with
  | EmptyString => 0
  | String c t => if is_nul c then 0 else S (strlen t)
  end.

(** A string as C has it holds no terminator among its characters. *)
Definition c_string (s : string) : Prop := strlen s = String.length s.

(** [s + n]: the string that starts [n] characters into [s]. *)
Fixpoint advance (n : nat) (s : string) : string :=
  match n, s with
  | O, _ => s
  | S k, String _ t => advance k t
  | S _, EmptyString => EmptyString
  end.

(** [strncmp(s1, s2, n)]: zero when the first [n] characters agree, or
    when both strings end, in agreement, before that. *)
Fixpoint strncmp (s1 s2 : string) (n : nat) : Z :=
  match n with
  | O => 0
  | S k =>
      let c1 := char_at s1 0 in
      let c2 := char_at s2 0 in
      if Ascii.eqb c1 c2
      then if is_nul c1 then 0 else strncmp (advance 1 s1) (advance 1 s2) k
      else Z.of_nat (nat_of_ascii c1) - Z.of_nat (nat_of_ascii c2)
  end.

(** ** [strtol] of the C library, on a platform whose [long] has 64 bits
    and whose [int] has 32 *)

Definition LONG_MAX : Z := 2 ^ 63 - 1.
Definition LONG_MIN : Z := - 2 ^ 63.
Definition ERANGE : Z := 34.

Definition isspace (c : ascii) : bool :=
  let n := nat_of_ascii c in
  ((n =? 32) || ((9 <=? n) && (n <=? 13)))%nat.

(** The value of a character as a digit, whatever the base. *)
Definition digit_value (c : ascii) : option Z :=
  let n := Z.of_nat (nat_of_ascii c) in
  if (48 <=? n) && (n <=? 57) then Some (n - 48)
  else if (97 <=? n) && (n <=? 122) then Some (n - 87)
  else if (65 <=? n) && (n <=? 90) then Some (n - 55)
  else None.

Definition digit_in (base : Z) (c : ascii) : option Z :=
  match digit_value c with
  | Some d => if d <? base then Some d else None
  | None => None
  end.

Fixpoint skip_spaces (s : string) : string :=
  match s with
  | String c t => if isspace c then skip_spaces t else s
  | EmptyString => s
  end.

(** The longest run of digits of [base] at the head of [s]: its value,
    whether it has a digit at all, and what follows it. *)
Fixpoint digits (base : Z) (s : string) (acc : Z) (any : bool)
  : Z * bool * string :=
  match s with
  | String c t =>
      match digit_in base c with
      | Some d => digits base t (acc * base + d) true
      | None => (acc, any, s)
      end
  | EmptyString => (acc, any, s)
  end.

(** [strtol(nptr, &endptr, base)] as (value, endptr, errno).  With base 0
    the prefix chooses the base: [0x] or [0X] before a hexadecimal digit
    is base 16, another leading [0] is base 8, anything else is base 10. *)
Definition strtol (nptr : string) (base : Z) : Z * string * Z :=
  let s1 := skip_spaces nptr in
  let '(negative, s2) :=
    match s1 with
    | String "-" t => (true, t)
    | String "+" t => (false, t)
    | _ => (false, s1)
    end in
  let hex_prefix :=
    match s2 with
    | String "0" (String x (String h _)) =>
        (Ascii.eqb x "x" || Ascii.eqb x "X") && bool_decide (is_Some (digit_in 16 h))
    | _ => false
    end in
  let '(b, s3) :=
    if (base =? 0) && hex_prefix then (16, advance 2 s2)
    else if (base =? 16) && hex_prefix then (16, advance 2 s2)
    else if base =? 0 then
      (if Ascii.eqb (char_at s2 0) "0" then 8 else 10, s2)
    else (base, s2) in
  match digits b s3 0 false with
  | (_, false, _) => (0, nptr, 0)
  | (v, true, rest) =>
      let v' := if negative : bool then - v else v in
      if LONG_MAX <? v' then (LONG_MAX, rest, ERANGE)
      else if v' <? LONG_MIN then (LONG_MIN, rest, ERANGE)
      else (v', rest, 0)
  end.

(** The conversion of a [long] to the [int] it is assigned to. *)
Definition int_of_long (z : Z) : Z := (z + 2 ^ 31) mod 2 ^ 32 - 2 ^ 31.

(** ** The data structures *)

Inductive ArgparserOptionType :=
| ARGPARSER_TYPE_END
| ARGPARSER_TYPE_GROUP
| ARGPARSER_TYPE_BOOLEAN
| ARGPARSER_TYPE_INTEGER
| ARGPARSER_TYPE_FLOAT
| ARGPARSER_TYPE_STRING.

Definition is_END (t : ArgparserOptionType) : bool :=
  match t with ARGPARSER_TYPE_END => true | _ => false end.

Definition is_BOOLEAN (t : ArgparserOptionType) : bool :=
  match t with ARGPARSER_TYPE_BOOLEAN => true | _ => false end.

(** The text [Argparser_exitDueToError] prints after the option's names:
    a literal of the source or [strerror(errno)]. *)
Inductive Reason :=
| Message (text : string)
| Strerror (errnum : Z).

Inductive Assertion :=
| assert_self_valid   (* [assert(self->valid)] *)
| assert_0.           (* [assert(0)] in the [default] case of the converter *)

(** How the process ends when the parser does not return. *)
Inductive Termination :=
| ExitForHelp                                  (* usage text, [exit(0)] *)
| ExitDueToUnknownOption (arg : string)        (* "unknown option", [exit(1)] *)
| ExitDueToError (shortName : ascii) (longName : option string)
                 (reason : Reason)             (* "option ... reason", [exit(1)] *)
| ExitFromCallback (status : Z)                (* a callback calls [exit] *)
| AssertionFailure (a : Assertion)             (* [abort] *)
| UndefinedBehaviour                           (* access outside an object *)
| OutOfFuel.                                   (* the bound of [parse_loop] exceeded *)

(** The two ends that neither the converter, nor the matchers, nor a
    callback can produce. *)
Definition internal (t : Termination) : bool :=
  match t with
  | AssertionFailure assert_self_valid | OutOfFuel => true
  | _ => false
  end.

Definition external (t : Termination) : Prop := internal t = false.

Section Argparser.

(** The C library's [float] and [strtof] are taken as they come:
    [strtof s] is (value, endptr, errno). *)
Context {float : Type}.
Variable strtof : string -> float * string * Z.

(** What a destination pointer points to, by the type it is written at. *)
Inductive cell :=
| BoolCell (b : bool)
| IntCell (i : Z)
| FloatCell (f : float)
| StringCell (s : string).

(** What callbacks and the converter act on: the destinations, and the
    record of the callbacks that were called, by the names of their
    option, oldest first. *)
Record Env := {
  memory : gmap nat cell;
  called : list (ascii * option string)
}.

(** What a callback does with the destinations [m] it leaves: it returns,
    or it leaves the process through [Argparser_exitForHelp], through
    [Argparser_exitDueToError] on its own option, or through [exit]. *)
Inductive CallbackResult :=
| CallbackReturns (m : gmap nat cell)
| CallbackExitsForHelp (m : gmap nat cell)
| CallbackExitsDueToError (reason : Reason) (m : gmap nat cell)
| CallbackExits (status : Z) (m : gmap nat cell).

(** [Argparser_callback]: the code the caller attaches to an option.  It
    is a closure over the parser and the option it is attached to, acts
    on the destinations, and leaves the parser and the vector alone. *)
Definition Argparser_callback : Type := gmap nat cell -> CallbackResult.

Record ArgparserOption := {
  type : ArgparserOptionType;
  shortName : ascii;                      (* 0 when absent *)
  longName : option string;               (* NULL when absent *)
  value : option nat;                     (* address of the destination, or NULL *)
  help : option string;
  callback : option Argparser_callback
}.

Record Argparser := {
  valid : bool;
  options : list ArgparserOption;         (* the table, END entry included *)
  usage : option string;
  description : option string;
  epilog : option string;
  stopAtNonOption : bool;
  (* Internal variables *)
  argc : Z;                               (* arguments left *)
  argv : nat;                             (* cursor: offset in the vector *)
  out : nat;                              (* base of the output: offset in the vector *)
  cpidx : nat                             (* how many arguments were copied to [out] *)
}.

(** A computation of the parser: it goes on with a value, or the process
    ends, leaving the destinations and the record of calls as they are
    at that point. *)
Inductive outcome (A : Type) :=
| Continue (a : A)
| Terminate (t : Termination) (e : Env).
Arguments Continue {A} a.
Arguments Terminate {A} t e.

#[global] Instance outcome_bind : MBind outcome := fun A B k m =>
  match m with
  | Continue a => k a
  | Terminate t e => Terminate t e
  end.

(** ** The macros that build options *)

Definition ARGPARSER_OPT_BOOL (s : ascii) (l : option string) (p : option nat)
    (d : string) : ArgparserOption :=
  {| type := ARGPARSER_TYPE_BOOLEAN; shortName := s; longName := l;
     value := p; help := Some d; callback := None |}.

Definition ARGPARSER_OPT_BOOL_CALLBACK (s : ascii) (l : option string)
    (p : option nat) (d : string) (cb : Argparser_callback) : ArgparserOption :=
  {| type := ARGPARSER_TYPE_BOOLEAN; shortName := s; longName := l;
     value := p; help := Some d; callback := Some cb |}.

Definition ARGPARSER_OPT_INT (s : ascii) (l : option string) (p : option nat)
    (d : string) : ArgparserOption :=
  {| type := ARGPARSER_TYPE_INTEGER; shortName := s; longName := l;
     value := p; help := Some d; callback := None |}.

Definition ARGPARSER_OPT_FLOAT (s : ascii) (l : option string) (p : option nat)
    (d : string) : ArgparserOption :=
  {| type := ARGPARSER_TYPE_FLOAT; shortName := s; longName := l;
     value := p; help := Some d; callback := None |}.

Definition ARGPARSER_OPT_STRING (s : ascii) (l : option string) (p : option nat)
    (d : string) : ArgparserOption :=
  {| type := ARGPARSER_TYPE_STRING; shortName := s; longName := l;
     value := p; help := Some d; callback := None |}.

Definition ARGPARSER_OPT_GROUP (d : string) : ArgparserOption :=
  {| type := ARGPARSER_TYPE_GROUP; shortName := NUL; longName := None;
     value := None; help := Some d; callback := None |}.

Definition ARGPARSER_OPT_END : ArgparserOption :=
  {| type := ARGPARSER_TYPE_END; shortName := NUL; longName := None;
     value := None; help := None; callback := None |}.

(** [Argparser_exitForHelp]: prints the usage text and leaves with
    status 0. *)
Definition Argparser_exitForHelp : Argparser_callback :=
  fun m => CallbackExitsForHelp m.

Definition ARGPARSER_OPT_HELP : ArgparserOption :=
  ARGPARSER_OPT_BOOL_CALLBACK "h" (Some "help"%string) None
    "show this help message and exit" Argparser_exitForHelp.

(** ** Life cycle and configuration *)

(** [Argparser_new()]: the memory [malloc] gives is not initialised, so
    the handle holds whatever that memory held, its [valid] flag
    included. *)
Definition Argparser_new (indeterminate : Argparser) : Argparser :=
  indeterminate.

Definition Argparser_init (self : Argparser) (opts : list ArgparserOption)
  : Argparser :=
  {| valid := true; options := opts;
     usage := None; description := None; epilog := None;
     stopAtNonOption := false;
     argc := 0; argv := 0%nat; out := 0%nat; cpidx := 0%nat |}.

Definition Argparser_clear (self : Argparser) : Argparser :=
  {| valid := false; options := options self;
     usage := usage self; description := description self;
     epilog := epilog self; stopAtNonOption := stopAtNonOption self;
     argc := argc self; argv := argv self; out := out self;
     cpidx := cpidx self |}.

Definition assert {A : Type} (b : bool) (a : Assertion) (e : Env)
    (k : outcome A) : outcome A :=
  if b then k else Terminate (AssertionFailure a) e.

Definition Argparser_setUsage (self : Argparser) (text : option string)
    (e : Env) : outcome Argparser :=
  assert (valid self) assert_self_valid e
    (Continue
       {| valid := valid self; options := options self;
          usage := text; description := description self;
          epilog := epilog self; stopAtNonOption := stopAtNonOption self;
          argc := argc self; argv := argv self; out := out self;
          cpidx := cpidx self |}).

Definition Argparser_setDescription (self : Argparser) (text : option string)
    (e : Env) : outcome Argparser :=
  assert (valid self) assert_self_valid e
    (Continue
       {| valid := valid self; options := options self;
          usage := usage self; description := text;
          epilog := epilog self; stopAtNonOption := stopAtNonOption self;
          argc := argc self; argv := argv self; out := out self;
          cpidx := cpidx self |}).

Definition Argparser_setEpilog (self : Argparser) (text : option string)
    (e : Env) : outcome Argparser :=
  assert (valid self) assert_self_valid e
    (Continue
       {| valid := valid self; options := options self;
          usage := usage self; description := description self;
          epilog := text; stopAtNonOption := stopAtNonOption self;
          argc := argc self; argv := argv self; out := out self;
          cpidx := cpidx self |}).

Definition Argparser_setStopAtNonOption (self : Argparser) (stop : bool)
    (e : Env) : outcome Argparser :=
  assert (valid self) assert_self_valid e
    (Continue
       {| valid := valid self; options := options self;
          usage := usage self; description := description self;
          epilog := epilog self; stopAtNonOption := stop;
          argc := argc self; argv := argv self; out := out self;
          cpidx := cpidx self |}).

(** ** Errors *)

Definition Argparser_exitDueToUnknownOption {A : Type} (arg : string) (e : Env)
  : outcome A :=
  Terminate (ExitDueToUnknownOption arg) e.

Definition Argparser_exitDueToError {A : Type} (opt : ArgparserOption)
    (reason : Reason) (e : Env) : outcome A :=
  Terminate (ExitDueToError (shortName opt) (longName opt) reason) e.

(** ** The value converter *)

Definition store (opt_value : nat) (c : cell) (e : Env) : Env :=
  {| memory := <[opt_value := c]> (memory e); called := called e |}.

(** [if (option->callback) option->callback(self, option);] *)
Definition call_callback (opt : ArgparserOption) (e : Env) : outcome Env :=
  match callback opt with
  | None => Continue e
  | Some cb =>
      let names := (shortName opt, longName opt) in
      match cb (memory e) with
      | CallbackReturns m =>
          Continue {| memory := m; called := called e ++ [names] |}
      | CallbackExitsForHelp m =>
          Terminate ExitForHelp {| memory := m; called := called e ++ [names] |}
      | CallbackExitsDueToError reason m =>
          Terminate (ExitDueToError (shortName opt) (longName opt) reason)
            {| memory := m; called := called e ++ [names] |}
      | CallbackExits status m =>
          Terminate (ExitFromCallback status)
            {| memory := m; called := called e ++ [names] |}
      end
  end.

(** [Argparser_parseValue(self, option, optvalue)].  The function hands
    [self] on to the callback and to the error exits and makes no other
    use of it; here the callback is a closure and the exits take the
    option, so [self] is not a parameter. *)
Definition Argparser_parseValue (opt : ArgparserOption)
    (optvalue : option string) (e : Env) : outcome Env :=
  e' ←
    match value opt with
    | None => Continue e
    | Some p =>
        match type opt with
        | ARGPARSER_TYPE_BOOLEAN =>
            match optvalue with
            | Some v =>
                if (strlen v =? 1)%nat && Ascii.eqb (char_at v 0) "1"
                then Continue (store p (BoolCell true) e)
                else if (strlen v =? 1)%nat && Ascii.eqb (char_at v 0) "0"
                then Continue (store p (BoolCell false) e)
                else Argparser_exitDueToError opt
                       (Message "expects no value, 0, or 1") e
            | None => Continue (store p (BoolCell true) e)
            end
        | ARGPARSER_TYPE_STRING =>
            match optvalue with
            | Some v => Continue (store p (StringCell v) e)
            | None => Argparser_exitDueToError opt (Message "requires a value") e
            end
        | ARGPARSER_TYPE_INTEGER =>
            match optvalue with
            | Some v =>
                if (0 <? strlen v)%nat then
                  let '(n, s, errno) := strtol v 0 in
                  let e1 := store p (IntCell (int_of_long n)) e in
                  if negb (errno =? 0)
                  then Argparser_exitDueToError opt (Strerror errno) e1
                  else if negb (is_nul (char_at s 0))
                  then Argparser_exitDueToError opt
                         (Message "expects an integer value") e1
                  else Continue e1
                else Argparser_exitDueToError opt (Message "requires a value") e
            | None => Argparser_exitDueToError opt (Message "requires a value") e
            end
        | ARGPARSER_TYPE_FLOAT =>
            match optvalue with
            | Some v =>
                if (0 <? strlen v)%nat then
                  let '(x, s, errno) := strtof v in
                  let e1 := store p (FloatCell x) e in
                  if negb (errno =? 0)
                  then Argparser_exitDueToError opt (Strerror errno) e1
                  else if negb (is_nul (char_at s 0))
                  then Argparser_exitDueToError opt
                         (Message "expects a numerical value") e1
                  else Continue e1
                else Argparser_exitDueToError opt (Message "requires a value") e
            | None => Argparser_exitDueToError opt (Message "requires a value") e
            end
        | _ => Terminate (AssertionFailure assert_0) e
        end
    end;
  call_callback opt e'.

(** ** The cursor *)

(** [self->argc = c; self->argv = v;] *)
Definition set_cursor (self : Argparser) (c : Z) (v : nat) : Argparser :=
  {| valid := valid self; options := options self;
     usage := usage self; description := description self;
     epilog := epilog self; stopAtNonOption := stopAtNonOption self;
     argc := c; argv := v; out := out self; cpidx := cpidx self |}.

(** [self->argc--, self->argv++] *)
Definition next_argument (self : Argparser) : Argparser :=
  set_cursor self (argc self - 1) (S (argv self)).

(** [self->cpidx++] *)
Definition increment_cpidx (self : Argparser) : Argparser :=
  {| valid := valid self; options := options self;
     usage := usage self; description := description self;
     epilog := epilog self; stopAtNonOption := stopAtNonOption self;
     argc := argc self; argv := argv self; out := out self;
     cpidx := S (cpidx self) |}.

(** ** The short-option matcher *)

(** The table scan of a two-character token [-x].  Each entry is compared
    with the second character of what [self->argv[0]] is at that moment:
    an entry that takes the next argument as its value moves the cursor
    before the scan goes on. *)
Fixpoint short_single (self : Argparser) (opts : list ArgparserOption)
    (vector : list (option string)) (foundOption : bool) (e : Env)
  : outcome (Argparser * bool * Env) :=
  match opts with
  | [] => Terminate UndefinedBehaviour e
  | o :: opts' =>
      if is_END (type o) then Continue (self, foundOption, e)
      else if is_nul (shortName o)
      then short_single self opts' vector foundOption e
      else
        match vector !! argv self with
        | Some (Some a) =>
            if (String.length a <? 1)%nat then Terminate UndefinedBehaviour e
            else if Ascii.eqb (shortName o) (char_at a 1) then
              let with_value :=
                if 1 <? argc self then
                  match vector !! S (argv self) with
                  | Some (Some v) =>
                      Continue (if Ascii.eqb (char_at v 0) "-" then None else Some v)
                  | Some None => Continue None
                  | None => Terminate UndefinedBehaviour e
                  end
                else Continue None in
              v ← with_value;
              match v with
              | Some optvalue =>
                  e' ← Argparser_parseValue o (Some optvalue) e;
                  short_single (next_argument self) opts' vector true e'
              | None =>
                  e' ← Argparser_parseValue o None e;
                  short_single self opts' vector true e'
              end
            else short_single self opts' vector foundOption e
        | _ => Terminate UndefinedBehaviour e
        end
  end.

(** The table scan for one character of a compound token. *)
Fixpoint short_compound_scan (opts : list ArgparserOption)
    (c : ascii) (foundOption : bool) (e : Env) : outcome (bool * Env) :=
  match opts with
  | [] => Terminate UndefinedBehaviour e
  | o :: opts' =>
      if is_END (type o) then Continue (foundOption, e)
      else if Ascii.eqb (shortName o) c then
        e' ← Argparser_parseValue o None e;
        short_compound_scan opts' c true e'
      else short_compound_scan opts' c foundOption e
  end.

(** [for (const char* i = arg+1; *i != '\0'; i++)]: [i] is the string
    that is left, [arg] the whole token. *)
Fixpoint short_compound (opts : list ArgparserOption)
    (arg i : string) (foundOption : bool) (e : Env) : outcome (bool * Env) :=
  match i with
  | EmptyString => Continue (foundOption, e)
  | String c i' =>
      if is_nul c then Continue (foundOption, e)
      else
        '(found, e') ← short_compound_scan opts c false e;
        if found : bool then short_compound opts arg i' true e'
        else Argparser_exitDueToUnknownOption arg e'
  end.

(** [Argparser_parseShortOption(self, options)].  The loop calls it on a
    token that starts with a dash and has a second character. *)
Definition Argparser_parseShortOption (self : Argparser)
    (opts : list ArgparserOption) (vector : list (option string)) (e : Env)
  : outcome (Argparser * Env) :=
  match vector !! argv self with
  | Some (Some arg) =>
      '(self', foundOption, e') ←
        (if (strlen arg =? 2)%nat
         then short_single self opts vector false e
         else
           '(found, e') ← short_compound opts arg (advance 1 arg) false e;
           Continue (self, found, e'));
      if foundOption : bool then Continue (self', e')
      else
        match vector !! argv self' with
        | Some (Some a) => Argparser_exitDueToUnknownOption a e'
        | _ => Terminate UndefinedBehaviour e'
        end
  | _ => Terminate UndefinedBehaviour e
  end.

(** ** The long-option matcher *)

Fixpoint long_scan (opts : list ArgparserOption)
    (arg : string) (foundOption : bool) (e : Env) : outcome (bool * Env) :=
  match opts with
  | [] => Terminate UndefinedBehaviour e
  | o :: opts' =>
      if is_END (type o) then Continue (foundOption, e)
      else
        match longName o with
        | None => long_scan opts' arg foundOption e
        | Some name =>
            if (strlen name <? 1)%nat then long_scan opts' arg foundOption e
            else
              let nameLength := strlen name in
              if strncmp (advance 2 arg) name nameLength =? 0 then
                let rest := advance (2 + nameLength) arg in
                if Ascii.eqb (char_at rest 0) "=" then
                  e' ← Argparser_parseValue o (Some (advance 1 rest)) e;
                  long_scan opts' arg true e'
                else if is_BOOLEAN (type o) then
                  e' ← Argparser_parseValue o None e;
                  long_scan opts' arg true e'
                else long_scan opts' arg foundOption e
              else long_scan opts' arg foundOption e
        end
  end.

(** [Argparser_parseLongOption(self, options)].  The loop calls it on a
    token that starts with two dashes and has a third character. *)
Definition Argparser_parseLongOption (self : Argparser)
    (opts : list ArgparserOption) (vector : list (option string)) (e : Env)
  : outcome Env :=
  match vector !! argv self with
  | Some (Some arg) =>
      '(foundOption, e') ← long_scan opts arg false e;
      if foundOption : bool then Continue e'
      else Argparser_exitDueToUnknownOption arg e'
  | _ => Terminate UndefinedBehaviour e
  end.

(** ** The parse loop and the compaction *)

(** The [for] loop of [Argparser_parse].  Every turn moves the cursor
    forward, and a cursor outside the vector ends the run, so the loop
    makes at most one turn more than the vector has entries: that is the
    [fuel] [Argparser_parse] gives it. *)
Fixpoint parse_loop (fuel : nat) (self : Argparser)
    (vector : list (option string)) (e : Env)
  : outcome (Argparser * list (option string) * Env) :=
  match fuel with
  | O => Terminate OutOfFuel e
  | S fuel' =>
      if argc self =? 0 then Continue (self, vector, e)
      else
        match vector !! argv self with
        | Some (Some arg) =>
            if negb (Ascii.eqb (char_at arg 0) "-") || is_nul (char_at arg 1) then
              if stopAtNonOption self then Continue (self, vector, e)
              else if (out self + cpidx self <? length vector)%nat then
                parse_loop fuel' (next_argument (increment_cpidx self))
                  (<[(out self + cpidx self)%nat := Some arg]> vector) e
              else Terminate UndefinedBehaviour e
            else if negb (Ascii.eqb (char_at arg 1) "-") then
              '(self', e') ← Argparser_parseShortOption self (options self) vector e;
              parse_loop fuel' (next_argument self') vector e'
            else if negb (is_nul (char_at arg 2)) then
              e' ← Argparser_parseLongOption self (options self) vector e;
              parse_loop fuel' (next_argument self) vector e'
            else Continue (next_argument self, vector, e)
        | _ => Terminate UndefinedBehaviour e
        end
  end.

(** [self->argc = argc - 1; self->argv = argv + 1; self->out = argv;]
    with [argv] the base of the vector.  [cpidx] is left as it is. *)
Definition skip_executable_path (self : Argparser) (count : Z) : Argparser :=
  {| valid := valid self; options := options self;
     usage := usage self; description := description self;
     epilog := epilog self; stopAtNonOption := stopAtNonOption self;
     argc := count - 1; argv := 1%nat; out := 0%nat;
     cpidx := cpidx self |}.

(** [memmove(vector + dst, vector + src, n * sizeof *vector)]: the source
    is read before anything is written. *)
Definition memmove (vector : list (option string)) (dst src : nat) (n : Z)
  : option (list (option string)) :=
  if n <? 0 then None
  else
    let k := Z.to_nat n in
    if ((src + k <=? length vector) && (dst + k <=? length vector))%nat
    then Some (take dst vector ++ take k (drop src vector) ++ drop (dst + k) vector)
    else None.

(** [Argparser_parse(self, argc, argv)]: [vector] is the array [argv]
    points to, [count] is [argc].  The result is the returned count with
    the parser, the vector and the destinations as the call leaves them. *)
Definition Argparser_parse (self : Argparser) (count : Z)
    (vector : list (option string)) (e : Env)
  : outcome (Z * Argparser * list (option string) * Env) :=
  assert (valid self) assert_self_valid e
    ('(self', vector', e') ←
       parse_loop (S (length vector)) (skip_executable_path self count) vector e;
     match memmove vector' (out self' + cpidx self') (argv self') (argc self') with
     | None => Terminate UndefinedBehaviour e'
     | Some moved =>
         let last := (out self' + cpidx self' + Z.to_nat (argc self'))%nat in
         if (last <? length moved)%nat
         then Continue (Z.of_nat (cpidx self') + argc self', self',
                        <[last := None]> moved, e')
         else Terminate UndefinedBehaviour e'
     end).

(** ** The parse loop read on the list of arguments

    The specification describes the loop as a scan that sorts the
    arguments into those taken as option syntax and the positional ones.
    [scan] is that reading: it works on the list of the arguments still
    to be read and builds the list of positionals, with no vector, no
    cursor and no writing in place.  The theorems below compare the loop
    of the source with it. *)

(** The table scan of a two-character token [cur], with the arguments
    that follow it: the result counts how many of them were taken as
    values. *)
Fixpoint single_tokens (opts : list ArgparserOption) (cur : string)
    (following : list string) (foundOption : bool) (e : Env)
  : outcome (nat * bool * Env) :=
  match opts with
  | [] => Terminate UndefinedBehaviour e
  | o :: opts' =>
      if is_END (type o) then Continue (O, foundOption, e)
      else if is_nul (shortName o)
      then single_tokens opts' cur following foundOption e
      else if (String.length cur <? 1)%nat then Terminate UndefinedBehaviour e
      else if Ascii.eqb (shortName o) (char_at cur 1) then
        match following with
        | v :: following' =>
            if Ascii.eqb (char_at v 0) "-" then
              e' ← Argparser_parseValue o None e;
              single_tokens opts' cur following true e'
            else
              e' ← Argparser_parseValue o (Some v) e;
              '(k, found, e'') ← single_tokens opts' v following' true e';
              Continue (S k, found, e'')
        | [] =>
            e' ← Argparser_parseValue o None e;
            single_tokens opts' cur following true e'
        end
      else single_tokens opts' cur following foundOption e
  end.

(** A short-option token [arg] with the arguments that follow it: how
    many of them it takes. *)
Definition short_option_tokens (opts : list ArgparserOption) (arg : string)
    (following : list string) (e : Env) : outcome (nat * Env) :=
  '(k, foundOption, e') ←
    (if (strlen arg =? 2)%nat
     then single_tokens opts arg following false e
     else
       '(found, e') ← short_compound opts arg (advance 1 arg) false e;
       Continue (O, found, e'));
  if foundOption : bool then Continue (k, e')
  else Argparser_exitDueToUnknownOption arg e'.

Definition long_option_tokens (opts : list ArgparserOption) (arg : string)
    (e : Env) : outcome Env :=
  '(foundOption, e') ← long_scan opts arg false e;
  if foundOption : bool then Continue e'
  else Argparser_exitDueToUnknownOption arg e'.

(** A token with no leading [-], or the single character [-]. *)
Definition is_plain (arg : string) : bool :=
  negb (Ascii.eqb (char_at arg 0) "-") || is_nul (char_at arg 1).

(** [scan stop opts skip toks e]: the arguments [toks] are read from the
    left, the first [skip] of them having been taken as values already.
    The result is the positionals met while options were still read,
    the arguments left unread when the reading stopped, and the
    destinations. *)
Fixpoint scan (stop : bool) (opts : list ArgparserOption) (skip : nat)
    (toks : list string) (e : Env)
  : outcome (list string * list string * Env) :=
  match toks with
  | [] => Continue ([], [], e)
  | arg :: rest =>
      match skip with
      | S skip' => scan stop opts skip' rest e
      | O =>
          if is_plain arg then
            if stop then Continue ([], toks, e)
            else
              '(positionals, unread, e') ← scan stop opts O rest e;
              Continue (arg :: positionals, unread, e')
          else if negb (Ascii.eqb (char_at arg 1) "-") then
            '(k, e') ← short_option_tokens opts arg rest e;
            scan stop opts k rest e'
          else if negb (is_nul (char_at arg 2)) then
            e' ← long_option_tokens opts arg e;
            scan stop opts O rest e'
          else Continue ([], rest, e)
      end
  end.

(** [self] with the cursor and the copy index a call of the parser leaves. *)
Definition at_positions (self : Argparser) (c : Z) (v k : nat) : Argparser :=
  {| valid := valid self; options := options self;
     usage := usage self; description := description self;
     epilog := epilog self; stopAtNonOption := stopAtNonOption self;
     argc := c; argv := v; out := out self; cpidx := k |}.

(** The array of a call: what index 0 holds (the invocation name), the
    arguments, and what the array holds after them (the null pointer
    that ends the [argv] of [main]). *)
Definition argument_vector (first : option string) (toks : list string)
    (extra : list (option string)) : list (option string) :=
  first :: (Some <$> toks) ++ extra.

(** [Argparser_parse(self, argc, argv)] on such an array, [argc] counting
    index 0 and the arguments. *)
Definition parse_arguments (self : Argparser) (first : option string)
    (toks : list string) (extra : list (option string)) (e : Env)
  : outcome (Z * Argparser * list (option string) * Env) :=
  Argparser_parse self (Z.of_nat (S (length toks)))
    (argument_vector first toks extra) e.

(** [--] exactly, as the loop tests it. *)
Definition is_terminator (arg : string) : bool :=
  negb (is_plain arg) && Ascii.eqb (char_at arg 1) "-" && is_nul (char_at arg 2).

(** The entries of the table that the scans reach: those before the
    first END entry. *)
Fixpoint entries (opts : list ArgparserOption) : list ArgparserOption :=
  match opts with
  | [] => []
  | o :: opts' => if is_END (type o) then [] else o :: entries opts'
  end.

(** The table has its END entry. *)
Definition terminated (opts : list ArgparserOption) : Prop :=
  Exists (fun o => is_END (type o) = true) opts.

(** The entries with short name [c], in table order. *)
Definition matching (opts : list ArgparserOption) (c : ascii)
  : list ArgparserOption :=
  List.filter (fun o => Ascii.eqb (shortName o) c) (entries opts).

(** The converter called with no value on each of [os] in turn. *)
Fixpoint flag_entries (os : list ArgparserOption) (e : Env) : outcome Env :=
  match os with
  | [] => Continue e
  | o :: os' => e' ← Argparser_parseValue o None e; flag_entries os' e'
  end.

(** Every way [m] can end the process satisfies [P]. *)
Definition ends_within {A : Type} (P : Termination -> Prop) (m : outcome A)
  : Prop :=
  forall t e, m = Terminate t e -> P t.

(** [reading opts read ps]: a way to read the arguments [read] from the
    left that leaves the positionals [ps].  A plain argument is a
    positional; an argument that is option syntax leaves nothing, and
    with it go the arguments it takes as values: they have no leading
    dash, and only a two-character token whose character is the short
    name of an entry takes any. *)
Inductive reading (opts : list ArgparserOption)
  : list string -> list string -> Prop :=
| reading_nil : reading opts [] []
| reading_positional p read ps :
    is_plain p = true ->
    reading opts read ps ->
    reading opts (p :: read) (p :: ps)
| reading_option o values read ps :
    is_plain o = false ->
    Forall (fun v => Ascii.eqb (char_at v 0) "-" = false) values ->
    (values <> [] ->
     strlen o = 2%nat /\ matching opts (char_at o 1) <> []) ->
    reading opts read ps ->
    reading opts (o :: values ++ read) ps.

(** An entry that shares no name with an option [-c]/[--name]: its
    short name is not [c], and its long name, if it has one, is a C
    string that is no prefix of [name] and does not start with [name]. *)
Definition other_names (c : ascii) (name : string) (o : ArgparserOption)
  : Prop :=
  Ascii.eqb (shortName o) c = false /\
  forall l, longName o = Some l ->
    c_string l /\ String.prefix l name = false /\ String.prefix name l = false.

(** Only the cursor and the copy index of [self'] may differ from those
    of [self]. *)
Definition same_configuration (self self' : Argparser) : Prop :=
  valid self' = valid self /\ options self' = options self /\
  usage self' = usage self /\ description self' = description self /\
  epilog self' = epilog self /\ stopAtNonOption self' = stopAtNonOption self /\
  out self' = out self.

(** The entries [pre] are passed over by the scan of a two-character
    token whose second character is [x]: none is the END entry, none has
    [x] as its short name. *)
Definition passed_over (pre : list ArgparserOption) (x : ascii) : Prop :=
  Forall (fun o => is_END (type o) = false /\
                   (is_nul (shortName o) = true \/
                    Ascii.eqb (shortName o) x = false)) pre.

(** For the text [rest] of a token after its two dashes, an entry is no
    match when it has no long name or an empty one, when its name is no
    prefix of [rest], or when it is not BOOLEAN and the character after
    its name is not [=].  (The long names are C strings.) *)
Definition no_long_match (rest : string) (o : ArgparserOption) : Prop :=
  forall name, longName o = Some name ->
    c_string name /\
    (name = EmptyString \/
     String.prefix name rest = false \/
     (is_BOOLEAN (type o) = false /\
      Ascii.eqb (char_at (advance (String.length name) rest) 0) "=" = false)).

End Argparser.

Arguments Continue {float A} a.
Arguments Terminate {float A} t e.

(** ** The parser of Bud (src/bud.c) *)

(** The addresses of the globals the options of Bud write to. *)
Definition colorOutput : nat := 0.
Definition inverse : nat := 1.
Definition nochart : nat := 2.
Definition noheader : nat := 3.
Definition nototal : nat := 4.

Definition bud_options {float : Type} : list (@ArgparserOption float) :=
  [ ARGPARSER_OPT_HELP;
    ARGPARSER_OPT_BOOL "c" (Some "color"%string) (Some colorOutput)
      "display with colors";
    ARGPARSER_OPT_BOOL "i" (Some "inverse"%string) (Some inverse)
      "inverse the sign of all input";
    ARGPARSER_OPT_BOOL NUL (Some "nochart"%string) (Some nochart)
      "hide the chart";
    ARGPARSER_OPT_BOOL NUL (Some "noheader"%string) (Some noheader)
      "hide the header";
    ARGPARSER_OPT_BOOL NUL (Some "nototal"%string) (Some nototal)
      "hide the total";
    ARGPARSER_OPT_END ].

Definition LF : string := String (ascii_of_nat 10) EmptyString.

Definition bud_usage : string :=
  "bud [--inverse] [--noheader] [--color] [--nochart] [--nototal] FILE" +:+ LF.

Definition bud_description : string :=
  "Bud is a simple budget manager based on plain text files." +:+ LF +:+
  "If no input FILE is given, it reads from STDIN." +:+ LF.

(** The parser as [main] has it when it calls [Argparser_parse]: after
    [Argparser_init], [Argparser_setUsage] and [Argparser_setDescription]. *)
Definition bud_parser {float : Type} : @Argparser float :=
  {| valid := true; options := bud_options;
     usage := Some bud_usage; description := Some bud_description;
     epilog := None; stopAtNonOption := false;
     argc := 0; argv := 0%nat; out := 0%nat; cpidx := 0%nat |}.

(** The same parser after [Argparser_setStopAtNonOption(self, true)]. *)
Definition bud_parser_stopping {float : Type} : @Argparser float :=
  {| valid := true; options := bud_options;
     usage := Some bud_usage; description := Some bud_description;
     epilog := None; stopAtNonOption := true;
     argc := 0; argv := 0%nat; out := 0%nat; cpidx := 0%nat |}.

(** No destination written, no callback called. *)
Definition start {float : Type} : @Env float :=
  {| memory := ∅; called := [] |}.

(** The table of Bud has no FLOAT option, so the examples never call
    [strtof]; they run with one that converts nothing. *)
Definition no_strtof (s : string) : unit * string * Z := (tt, s, 0).


(** A table with options that take a value, for the examples of single
    options. *)
Definition sample_options : list (@ArgparserOption unit) :=
  [ ARGPARSER_OPT_HELP;
    ARGPARSER_OPT_STRING "o" (Some "output"%string) (Some 0%nat)
      "write the report to a file";
    ARGPARSER_OPT_INT "n" (Some "count"%string) (Some 1%nat)
      "number of lines";
    ARGPARSER_OPT_BOOL "u" (Some "unsorted"%string) (Some 2%nat)
      "keep the order of the input";
    ARGPARSER_OPT_END ].

Definition sample_parser : @Argparser unit :=
  {| valid := true; options := sample_options;
     usage := None; description := None; epilog := None;
     stopAtNonOption := false;
     argc := 0; argv := 0%nat; out := 0%nat; cpidx := 0%nat |}.

(** ** The usage text (src/Argparser.h, [Argparser_usage]) *)

Section Usage.
Context {float : Type}.

(** [size_t] has 64 bits and [int] 32, as for [strtol] above: the
    arithmetic of [size_t] is modulo 2^64. *)
Definition size_t (z : Z) : Z := z mod 2 ^ 64.

(** The conversion of a [size_t] to the [int] it is assigned to. *)
Definition int_of_size_t (z : Z) : Z := (z + 2 ^ 31) mod 2 ^ 32 - 2 ^ 31.

Definition INT_MAX : Z := 2 ^ 31 - 1.

(** What [%s] prints of [s]: its characters up to the terminator. *)
Fixpoint c_str (s : string) : string :=
  match s with
  | EmptyString => EmptyString
  | String c t => if is_nul c then EmptyString else String c (c_str t)
  end.

(** What [%*s] prints of the empty string: the padding alone. *)
Fixpoint spaces (n : nat) : string :=
  match n with
  | O => EmptyString
  | S k => String " " (spaces k)
  end.

Definition is_GROUP (t : ArgparserOptionType) : bool :=
  match t with ARGPARSER_TYPE_GROUP => true | _ => false end.

(** The text that stands for the value of an option, by its type. *)
Definition value_hint (t : ArgparserOptionType) : string :=
  match t with
  | ARGPARSER_TYPE_INTEGER => "=<int>"
  | ARGPARSER_TYPE_FLOAT => "=<float>"
  | ARGPARSER_TYPE_STRING => "=<string>"
  | _ => ""
  end.

(** The body of the first loop: the width [len] of the names of one
    entry, rounded up to a multiple of four. *)
Definition option_width (o : @ArgparserOption float) : Z :=
  let len := 0 in
  let len := if negb (is_nul (shortName o)) then size_t (len + 2) else len in
  let len :=
    if negb (is_nul (shortName o)) && bool_decide (is_Some (longName o))
    then size_t (len + 2) else len in
  let len :=
    match longName o with
    | Some name => size_t (len + size_t (Z.of_nat (strlen name) + 2))
    | None => len
    end in
  let len := size_t (len + Z.of_nat (strlen (value_hint (type o)))) in
  size_t (size_t (len + 3) - Z.land (size_t (len + 3)) 3).

(** The first loop: the largest of these widths, from [width] on.  A
    table without its END entry is read past its end. *)
Fixpoint best_width (opts : list (@ArgparserOption float)) (width : Z)
  : option Z :=
  match opts with
  | [] => None
  | o :: opts' =>
      if is_END (type o) then Some width
      else
        let len := option_width o in
        best_width opts' (if width <? len then len else width)
  end.

(** The names of one entry as the second loop prints them, after the
    four spaces: [-c], [, ], [--name] and the value hint. *)
Definition short_part (o : @ArgparserOption float) : string :=
  if negb (is_nul (shortName o))
  then String "-" (String (shortName o) EmptyString) else EmptyString.

Definition separator_part (o : @ArgparserOption float) : string :=
  if bool_decide (is_Some (longName o)) && negb (is_nul (shortName o))
  then ", " else EmptyString.

Definition long_part (o : @ArgparserOption float) : string :=
  match longName o with
  | Some name => "--" +:+ c_str name
  | None => EmptyString
  end.

(** The names of an entry as they are printed. *)
Definition option_names (o : @ArgparserOption float) : string :=
  short_part o +:+ separator_part o +:+ long_part o +:+ value_hint (type o).

(** The long names of the entries are shorter than an [int] can count,
    with room for the other parts of a line. *)
Definition bounded_name (o : @ArgparserOption float) : Prop :=
  forall name, longName o = Some name -> Z.of_nat (strlen name) < 2 ^ 31 - 32.

Definition short_names (opts : list (@ArgparserOption float)) : Prop :=
  Forall bounded_name (entries opts).

(** The body of the second loop: what is printed for one entry, with
    [usage_opts_width] the column computed by the first loop.  [pos]
    adds up what the calls of [fprintf] return, the number of characters
    each has written (the output is taken to succeed).  To print a null
    [help] with [%s] is undefined, and so is the overflow of [pad + 2];
    a negative width given to [%*s] pads to its magnitude. *)
Definition usage_option (o : @ArgparserOption float) (usage_opts_width : Z)
  : option string :=
  if is_GROUP (type o) then
    h ← help o;
    Some (LF +:+ c_str h +:+ LF)
  else
    let pos := Z.of_nat (String.length "    ") in
    let pos := size_t (pos + Z.of_nat (String.length (short_part o))) in
    let pos := size_t (pos + Z.of_nat (String.length (separator_part o))) in
    let pos := size_t (pos + Z.of_nat (String.length (long_part o))) in
    let pos := size_t (pos + Z.of_nat (String.length (value_hint (type o)))) in
    let '(break, pad) :=
      if pos <=? usage_opts_width
      then (EmptyString, int_of_size_t (size_t (usage_opts_width - pos)))
      else (LF, int_of_size_t usage_opts_width) in
    h ← help o;
    if INT_MAX <? pad + 2 then None
    else
      Some ("    " +:+ short_part o +:+ separator_part o +:+ long_part o
            +:+ value_hint (type o) +:+ break
            +:+ spaces (Z.to_nat (Z.abs (pad + 2))) +:+ c_str h +:+ LF).

(** The second loop. *)
Fixpoint usage_options (opts : list (@ArgparserOption float))
    (usage_opts_width : Z) : option string :=
  match opts with
  | [] => None
  | o :: opts' =>
      if is_END (type o) then Some EmptyString
      else
        line ← usage_option o usage_opts_width;
        rest ← usage_options opts' usage_opts_width;
        Some (line +:+ rest)
  end.

(** [Argparser_usage(self)]: the text written to the standard output,
    or nothing defined when the table has no END entry or an entry that
    is printed has no help text. *)
Definition Argparser_usage (self : @Argparser float) : option string :=
  let head :=
    match usage self with
    | Some text => "Usage: " +:+ c_str text +:+ LF
    | None => EmptyString
    end in
  let about :=
    match description self with
    | Some text => c_str text +:+ LF
    | None => EmptyString
    end in
  width ← best_width (options self) 0;
  let usage_opts_width := size_t (width + 4) in
  body ← usage_options (options self) usage_opts_width;
  let tail :=
    match epilog self with
    | Some text => LF +:+ c_str text +:+ LF
    | None => EmptyString
    end in
  Some (head +:+ about +:+ body +:+ tail).

End Usage.

(** ** Bud: the entries and their categories (src/bud.c)

    The budget file is read line by line; each line that parses as an
    entry adds its amount, in cents, to the bucket of its category.
    What C leaves undefined (the overflow of a signed addition, a value
    [atoi] cannot represent, a null pointer that is read) is [None].
    Allocation ([malloc] in [strdup] and [addEntryToBucket]) is taken to
    succeed. *)

Definition INT_MIN : Z := - 2 ^ 31.

(** A value of type [int] or [long], when the type can hold it. *)
Definition as_int (z : Z) : option Z :=
  if (INT_MIN <=? z) && (z <=? INT_MAX) then Some z else None.

Definition as_long (z : Z) : option Z :=
  if (LONG_MIN <=? z) && (z <=? LONG_MAX) then Some z else None.

Definition TAB : ascii := ascii_of_nat 9.
Definition CR : ascii := ascii_of_nat 13.

Definition SEPARATOR_CSV : string := String " " (String TAB EmptyString).
Definition SEPARATOR_CURRENCY : string := ",.".

(** The characters that make an empty line: [" \r\n\t"]. *)
Definition BLANKS : string :=
  String " " (String CR (String (ascii_of_nat 10) (String TAB EmptyString))).

(** [strcmp(s1, s2)] *)
Fixpoint strcmp (s1 s2 : string) : Z :=
  let c1 := char_at s1 0 in
  let c2 := char_at s2 0 in
  if Ascii.eqb c1 c2 then
    match s1 with
    | String _ t1 => if is_nul c1 then 0 else strcmp t1 (advance 1 s2)
    | EmptyString => 0
    end
  else Z.of_nat (nat_of_ascii c1) - Z.of_nat (nat_of_ascii c2).

(** [c] is one of the characters of the C string [set]. *)
Fixpoint member (c : ascii) (set : string) : bool :=
  match set with
  | String x t => if is_nul x then false else Ascii.eqb c x || member c t
  | EmptyString => false
  end.

(** [strspn(s, accept)] and [strcspn(s, reject)] *)
Fixpoint strspn (s accept : string) : nat :=
  match s with
  | String c t =>
      if is_nul c then O
      else if member c accept then S (strspn t accept) else O
  | EmptyString => O
  end.

Fixpoint strcspn (s reject : string) : nat :=
  match s with
  | String c t =>
      if is_nul c then O
      else if member c reject then O else S (strcspn t reject)
  | EmptyString => O
  end.

(** [s[i] = c] *)
Fixpoint poke (s : string) (i : nat) (c : ascii) : string :=
  match s, i with
  | String _ t, O => String c t
  | String x t, S j => String x (poke t j c)
  | EmptyString, _ => EmptyString
  end.

(** [strtok] on the buffer [buffer], from the offset [s]: the offset of
    the token or a null pointer, the buffer with the terminator written
    after the token, and the offset the next call starts from.  The first
    call, [strtok(line, delim)], starts from offset 0; the calls
    [strtok(NULL, delim)] start from the offset the call before left. *)
Definition strtok (buffer : string) (s : nat) (delim : string)
  : option nat * string * nat :=
  let s := (s + strspn (advance s buffer) delim)%nat in
  if is_nul (char_at buffer s) then (None, buffer, s)
  else
    let e := (s + strcspn (advance s buffer) delim)%nat in
    if is_nul (char_at buffer e) then (Some s, buffer, e)
    else (Some s, poke buffer e NUL, S e).

(** [atoi(s)] is [(int) strtol(s, NULL, 10)]; the behaviour is undefined
    when [int] cannot hold the value. *)
Definition atoi (s : string) : option Z :=
  let '(n, _, _) := strtol s 10 in as_int n.

(** [strdup(s)] *)
Definition strdup (s : string) : string := c_str s.

Record bucket := {
  category : string;
  totalCents : Z
}.

(** The loop of [addEntryToBucket]: the list with [cents] added to the
    first bucket of the category, or [Some None] when the list has no
    bucket of the category. *)
Fixpoint add_to_category (name : string) (cents : Z) (current : list bucket)
  : option (option (list bucket)) :=
  match current with
  | [] => Some None
  | b :: nextBucket =>
      if strcmp name (category b) =? 0 then
        match as_long (totalCents b + cents) with
        | Some total =>
            Some (Some ({| category := category b; totalCents := total |}
                          :: nextBucket))
        | None => None
        end
      else
        match add_to_category name cents nextBucket with
        | Some found => Some (cons b <$> found)
        | None => None
        end
  end.

(** [addEntryToBucket(category, cents)] on the list [buckets]: a new
    bucket goes to the head of the list. *)
Definition addEntryToBucket (name : string) (cents : Z) (buckets : list bucket)
  : option (list bucket) :=
  match add_to_category name cents buckets with
  | Some (Some buckets') => Some buckets'
  | Some None =>
      Some ({| category := strdup name; totalCents := cents |} :: buckets)
  | None => None
  end.

(** [calculateTotals()]: the sums of the totals that are not negative
    and of those that are. *)
Fixpoint calculateTotals_loop (current : list bucket)
    (positiveTotalCents negativeTotalCents : Z) : option (Z * Z) :=
  match current with
  | [] => Some (positiveTotalCents, negativeTotalCents)
  | b :: nextBucket =>
      if totalCents b >=? 0 then
        positive ← as_long (positiveTotalCents + totalCents b);
        calculateTotals_loop nextBucket positive negativeTotalCents
      else
        negative ← as_long (negativeTotalCents + totalCents b);
        calculateTotals_loop nextBucket positiveTotalCents negative
  end.

Definition calculateTotals (buckets : list bucket) : option (Z * Z) :=
  calculateTotals_loop buckets 0 0.

Section Bud.
Context {float : Type}.

(** A global of Bud read as a condition.  The globals start at 0; the
    parser writes [true] or [false] to the ones that are destinations. *)
Definition is_set (m : gmap nat (@cell float)) (global : nat) : bool :=
  match m !! global with
  | Some (BoolCell b) => b
  | Some (IntCell i) => negb (i =? 0)
  | _ => false
  end.

(** [processEntry(lineno, line)] with the globals [m], on the list
    [buckets]: the list it leaves and the line number of the warning it
    prints, if it prints one. *)
Definition processEntry (m : gmap nat (@cell float)) (lineno : Z)
    (line : string) (buckets : list bucket)
  : option (list bucket * option Z) :=
  let '(day, line1, save1) := strtok line 0 SEPARATOR_CSV in
  let '(name, line2, save2) := strtok line1 save1 SEPARATOR_CSV in
  let '(euros, line3, save3) := strtok line2 save2 SEPARATOR_CURRENCY in
  let '(cents, line4, save4) := strtok line3 save3 SEPARATOR_CSV in
  match day, name, euros, cents with
  | Some _, Some name, Some euros, Some cents =>
      e ← atoi (advance euros line4);
      total ← as_int (e * 100);
      c ← atoi (advance cents line4);
      let total := if total >=? 0 then total + c else total - c in
      let total := if is_set m inverse then - total else total in
      buckets' ← addEntryToBucket (advance name line4) total buckets;
      Some (buckets', None)
  | _, _, _, _ =>
      if negb (strspn line4 BLANKS =? strlen line4)%nat
      then Some (buckets, Some lineno)
      else Some (buckets, None)
  end.

End Bud.

(** What the properties of the buckets are stated with: the total
    recorded for a category (that of the first bucket whose name compares
    equal, 0 when there is none), whether a category has a bucket, and
    the sums over the list. *)
Fixpoint total_of (name : string) (buckets : list bucket) : Z :=
  match buckets with
  | [] => 0
  | b :: nextBucket =>
      if strcmp name (category b) =? 0 then totalCents b
      else total_of name nextBucket
  end.

Definition has_category (name : string) (buckets : list bucket) : bool :=
  existsb (fun b => strcmp name (category b) =? 0) buckets.

Definition sum_of (buckets : list bucket) : Z :=
  foldr (fun b acc => totalCents b + acc) 0 buckets.

Definition sum_of_magnitudes (buckets : list bucket) : Z :=
  foldr (fun b acc => Z.abs (totalCents b) + acc) 0 buckets.

(** No two buckets have the same category, read as C strings. *)
Definition distinct_categories (buckets : list bucket) : Prop :=
  NoDup ((fun b => c_str (category b)) <$> buckets).

(** The buckets with the sign of every total changed. *)
Definition negated (buckets : list bucket) : list bucket :=
  (fun b => {| category := category b; totalCents := - totalCents b |})
    <$> buckets.

(** What the properties of the lines are stated with. *)

(** Every character of [s] satisfies [P]. *)
Fixpoint chars (P : ascii -> bool) (s : string) : bool :=
  match s with
  | EmptyString => true
  | String c t => P c && chars P t
  end.

(** [s] is made of characters of [set]; [s] has no character of [set]
    and no terminator. *)
Definition only (set s : string) : bool := chars (fun c => member c set) s.

Definition free_of (set s : string) : bool :=
  chars (fun c => negb (is_nul c) && negb (member c set)) s.

Definition is_digit (c : ascii) : bool :=
  let n := nat_of_ascii c in ((48 <=? n) && (n <=? 57))%nat.

(** The number a string of decimal digits stands for. *)
Fixpoint decimal_from (acc : Z) (s : string) : Z :=
  match s with
  | EmptyString => acc
  | String c t => decimal_from (acc * 10 + (Z.of_nat (nat_of_ascii c) - 48)) t
  end.

Definition decimal (s : string) : Z := decimal_from 0 s.

(** A number that is followed by [tail] ends there: [tail] is empty or
    starts with a character that is no digit. *)
Definition ends_number (tail : string) : bool :=
  negb (is_digit (char_at tail 0)).

(** The characters of [s] are digits of [base]; the number they stand
    for; and a tail that a number in that base ends at: it is empty or
    starts with a character that is no digit of the base. *)
Definition numeral (base : Z) (s : string) : bool :=
  chars (fun c => bool_decide (is_Some (digit_in base c))) s.

Fixpoint number_from (base acc : Z) (s : string) : Z :=
  match s with
  | EmptyString => acc
  | String c t => number_from base (acc * base + default 0 (digit_in base c)) t
  end.

Definition number (base : Z) (s : string) : Z := number_from base 0 s.

Definition ends_numeral (base : Z) (tail : string) : bool :=
  negb (bool_decide (is_Some (digit_in base (char_at tail 0)))).

(** ** Bud: the input and the loop of [main] (src/bud.c) *)

Definition BUFFERSIZE : nat := 256.

(** [fgets(buffer, size, input)] on what is left of a stream: at most
    [size - 1] characters are read, up to and with the first line feed;
    the result is what the buffer holds and what is left of the stream,
    or a null pointer at the end of the stream. *)
Fixpoint fgets_read (n : nat) (stream : string) : string * string :=
  match n, stream with
  | S n', String c stream' =>
      if Ascii.eqb c (ascii_of_nat 10) then (String c EmptyString, stream')
      else
        let '(buffer, rest) := fgets_read n' stream' in
        (String c buffer, rest)
  | _, _ => (EmptyString, stream)
  end.

Definition fgets (size : nat) (stream : string) : option (string * string) :=
  match stream with
  | EmptyString => None
  | _ => Some (fgets_read (size - 1) stream)
  end.

(** What the program finds outside: the standard input, and for a path
    what [fopen(path, "r")] gives, the contents of the file or the
    [errno] of the failure. *)
Record World := {
  standard_input : string;
  fopen_r : string -> string + Z
}.

Section Main.
Context {float : Type}.
Variable strtof : string -> float * string * Z.

(** How a part of [main] ends when it does not go on. *)
Inductive ending (A : Type) :=
| Goes (a : A)
| ParserEnds (t : Termination) (e : @Env float)
    (* the parser left the process *)
| ExitFailure (path : string) (errnum : Z)
    (* "Unable to open" with [strerror(errnum)], [exit(EXIT_FAILURE)] *)
| Undefined
    (* undefined behaviour *)
| Unfinished.
    (* the bound of [read_entries] exceeded *)
Arguments Goes {A} a.
Arguments ParserEnds {A} t e.
Arguments ExitFailure {A} path errnum.
Arguments Undefined {A}.
Arguments Unfinished {A}.

(** [chooseInput(argc, argv)]: the stream that is read. *)
Definition chooseInput (world : World) (count : Z) (vector : list (option string))
  : ending string :=
  if count <=? 0 then Goes (standard_input world)
  else
    match vector !! 0%nat with
    | Some (Some path) =>
        match fopen_r world (c_str path) with
        | inl input => Goes input
        | inr errnum => ExitFailure (c_str path) errnum
        end
    | _ => Undefined
    end.

(** The [while] loop of [main]: every buffer that [fgets] fills goes to
    [processEntry] with its number.  [lineno] is an [unsigned int].
    Each turn takes a character at least from the stream, so the loop
    makes no more turns than the stream has characters: that is the
    [fuel] [main_totals] gives it. *)
Fixpoint read_entries (fuel : nat) (m : gmap nat (@cell float)) (lineno : Z)
    (input : string) (buckets : list bucket) (warnings : list Z)
  : ending (list bucket * list Z) :=
  match fuel with
  | O => Unfinished
  | S fuel' =>
      match fgets BUFFERSIZE input with
      | None => Goes (buckets, warnings)
      | Some (buffer, input') =>
          match processEntry m lineno buffer buckets with
          | Some (buckets', warning) =>
              read_entries fuel' m ((lineno + 1) mod 2 ^ 32) input' buckets'
                (warnings ++ match warning with Some n => [n] | None => [] end)
          | None => Undefined
          end
      end
  end.

(** [main(argc, argv)] from its start to the call of [chooseInput]:
    [allocated] is what [Argparser_new] returns, and [Argparser_delete]
    frees the handle that [Argparser_clear] has marked.  The result is
    the stream to read and the globals as the parser leaves them. *)
Definition main_input (world : World) (allocated : @Argparser float)
    (count : Z) (vector : list (option string))
  : ending (string * gmap nat (@cell float)) :=
  match
    (self1 ← Argparser_setUsage (Argparser_init allocated bud_options)
               (Some bud_usage) start;
     self2 ← Argparser_setDescription self1 (Some bud_description) start;
     Argparser_parse strtof self2 count vector start)
  with
  | Terminate t e => ParserEnds t e
  | Continue (count', argparser, vector', e) =>
      let cleared := Argparser_clear argparser in
      match chooseInput world count' vector' with
      | Goes input => Goes (input, memory e)
      | ParserEnds t e' => ParserEnds t e'
      | ExitFailure path errnum => ExitFailure path errnum
      | Undefined => Undefined
      | Unfinished => Unfinished
      end
  end.

(** [main] up to the call of [printBuckets], which prints what is
    computed here: the buckets, with the warnings printed on the way,
    and the two totals. *)
Definition main_totals (world : World) (allocated : @Argparser float)
    (count : Z) (vector : list (option string))
  : ending (list bucket * list Z * (Z * Z)) :=
  match main_input world allocated count vector with
  | Goes (input, m) =>
      match read_entries (S (String.length input)) m 1 input [] [] with
      | Goes (buckets, warnings) =>
          match calculateTotals buckets with
          | Some totals => Goes (buckets, warnings, totals)
          | None => Undefined
          end
      | ParserEnds t e => ParserEnds t e
      | ExitFailure path errnum => ExitFailure path errnum
      | Undefined => Undefined
      | Unfinished => Unfinished
      end
  | ParserEnds t e => ParserEnds t e
  | ExitFailure path errnum => ExitFailure path errnum
  | Undefined => Undefined
  | Unfinished => Unfinished
  end.

End Main.

Arguments Goes {float A} a.
Arguments ParserEnds {float A} t e.
Arguments ExitFailure {float A} path errnum.
Arguments Undefined {float A}.
Arguments Unfinished {float A}.

(** * Properties *)

Section Properties.
Context {float : Type} (strtof : string -> float * string * Z).

Implicit Types (self : @Argparser float) (e : @Env float)
  (opts : list (@ArgparserOption float)) (vector : list (option string)).

(** ** The loop of the source against the scan of the arguments *)

Lemma set_cursor_same self :
  set_cursor self (argc self - Z.of_nat 0) (argv self + 0) = self.
Proof.
  destruct self; unfold set_cursor; simpl. f_equal; lia.
Qed.

Lemma lookup_of_drop {A : Type} (l : list A) n x l' :
  drop n l = x :: l' -> l !! n = Some x.
Proof.
  intros H. rewrite <- (Nat.add_0_r n), <- lookup_drop, H. reflexivity.
Qed.

Lemma drop_S_of_drop {A : Type} (l : list A) n x l' :
  drop n l = x :: l' -> drop (S n) l = l'.
Proof.
  intros H. replace (S n) with (n + 1)%nat by lia.
  rewrite <- drop_drop, H. reflexivity.
Qed.

Ltac run_bind := unfold mbind, outcome_bind; simpl.

Lemma Continue_state_eq {A B : Type} (a a' : A) (b b' : B) e :
  a = a' -> b = b' -> @Continue float _ (a, b, e) = Continue (a', b', e).
Proof. intros -> ->. reflexivity. Qed.

(** The table scan of a two-character token reads the vector as
    [single_tokens] reads the list, and moves the cursor by the number of
    values taken. *)
Lemma short_single_tokens opts : forall self vector cur following extra found e,
  drop (argv self) vector = (Some <$> cur :: following) ++ extra ->
  argc self = Z.of_nat (S (length following)) ->
  short_single strtof self opts vector found e =
    '(k, f, e') ← single_tokens strtof opts cur following found e;
    Continue (set_cursor self (argc self - Z.of_nat k) (argv self + k), f, e').
Proof.
  induction opts as [|o opts IH]; intros self vector cur following extra found e Hd Hc.
  - reflexivity.
  - simpl. destruct (is_END (type o)).
    { run_bind. rewrite set_cursor_same. reflexivity. }
    destruct (is_nul (shortName o)); [eauto|].
    rewrite (lookup_of_drop _ _ _ _ Hd).
    destruct (String.length cur <? 1)%nat; [reflexivity|].
    destruct (Ascii.eqb (shortName o) (char_at cur 1)); [|eauto].
    pose proof (drop_S_of_drop _ _ _ _ Hd) as Hd'.
    destruct following as [|v following'].
    + replace (1 <? argc self) with false by (symmetry; apply Z.ltb_ge; simpl in Hc; lia).
      run_bind. destruct (Argparser_parseValue strtof o None e); [|reflexivity].
      apply (IH _ _ _ _ _ _ _ Hd Hc).
    + replace (1 <? argc self) with true
        by (symmetry; apply Z.ltb_lt; simpl in Hc; lia).
      simpl in Hd'. rewrite (lookup_of_drop _ _ _ _ Hd').
      destruct (Ascii.eqb (char_at v 0) "-").
      * run_bind. destruct (Argparser_parseValue strtof o None e); [|reflexivity].
        apply (IH _ _ _ _ _ _ _ Hd Hc).
      * run_bind. destruct (Argparser_parseValue strtof o (Some v) e) as [e1|]; [|reflexivity].
        rewrite (IH (next_argument self) vector v following' extra true e1).
        -- run_bind. destruct (single_tokens strtof opts v following' true e1) as [[[k f] e2]|]; [|reflexivity].
           do 2 f_equal. f_equal. unfold set_cursor, next_argument; simpl. f_equal; lia.
        -- exact Hd'.
        -- simpl. simpl in Hc. lia.
Qed.


Lemma single_tokens_count opts : forall cur following found e k f e',
  single_tokens strtof opts cur following found e = Continue (k, f, e') ->
  (k <= length following)%nat /\
  Forall (fun v => Ascii.eqb (char_at v 0) "-" = false) (take k following) /\
  (f = false -> k = 0%nat /\ found = false).
Proof.
  induction opts as [|o opts IH]; intros cur following found e k f e' H.
  - discriminate.
  - simpl in H. destruct (is_END (type o)).
    { injection H as <- <- <-. split; [lia|]. split; [constructor|tauto]. }
    destruct (is_nul (shortName o)); [eauto|].
    destruct (String.length cur <? 1)%nat; [discriminate|].
    destruct (Ascii.eqb (shortName o) (char_at cur 1)); [|eauto].
    assert (Hvalueless : forall e1,
      single_tokens strtof opts cur following true e1 = Continue (k, f, e') ->
      (k <= length following)%nat /\
      Forall (fun v => Ascii.eqb (char_at v 0) "-" = false) (take k following) /\
      (f = false -> k = 0%nat /\ found = false)).
    { intros e1 H1. destruct (IH _ _ _ _ _ _ _ H1) as (? & ? & Hf).
      split; [assumption|]. split; [assumption|].
      intros ->. destruct (Hf eq_refl). discriminate. }
    destruct following as [|v following'].
    + revert H. run_bind.
      destruct (Argparser_parseValue strtof o None e); [|discriminate]. eauto.
    + destruct (Ascii.eqb (char_at v 0) "-") eqn:Hv.
      * revert H. run_bind.
        destruct (Argparser_parseValue strtof o None e); [|discriminate]. eauto.
      * revert H. run_bind.
        destruct (Argparser_parseValue strtof o (Some v) e) as [e1|]; [|discriminate].
        destruct (single_tokens strtof opts v following' true e1)
          as [[[k1 f1] e2]|] eqn:H1; [|discriminate].
        simpl. intros H. injection H as <- <- <-.
        destruct (IH _ _ _ _ _ _ _ H1) as (? & ? & Hf).
        split; [simpl; lia|]. split; [simpl; constructor; assumption|].
        intros ->. destruct (Hf eq_refl). discriminate.
Qed.

Lemma Argparser_parseShortOption_tokens opts self vector arg following extra e :
  drop (argv self) vector = (Some <$> arg :: following) ++ extra ->
  argc self = Z.of_nat (S (length following)) ->
  Argparser_parseShortOption strtof self opts vector e =
    '(k, e') ← short_option_tokens strtof opts arg following e;
    Continue (set_cursor self (argc self - Z.of_nat k) (argv self + k), e').
Proof.
  intros Hd Hc. unfold Argparser_parseShortOption, short_option_tokens.
  rewrite (lookup_of_drop _ _ _ _ Hd).
  destruct (strlen arg =? 2)%nat.
  - rewrite (short_single_tokens _ _ _ _ _ _ _ _ Hd Hc).
    destruct (single_tokens strtof opts arg following false e)
      as [[[k f] e']|] eqn:H; [|reflexivity].
    run_bind. destruct f; [reflexivity|].
    destruct (single_tokens_count _ _ _ _ _ _ _ _ H) as (_ & _ & Hk).
    destruct (Hk eq_refl) as [-> _].
    rewrite Nat.add_0_r, (lookup_of_drop _ _ _ _ Hd). reflexivity.
  - destruct (short_compound strtof opts arg (advance 1 arg) false e)
      as [[f e']|]; [|reflexivity].
    run_bind. destruct f.
    + rewrite set_cursor_same. reflexivity.
    + rewrite (lookup_of_drop _ _ _ _ Hd). reflexivity.
Qed.

Lemma short_option_tokens_count opts arg following e k e' :
  short_option_tokens strtof opts arg following e = Continue (k, e') ->
  (k <= length following)%nat /\
  Forall (fun v => Ascii.eqb (char_at v 0) "-" = false) (take k following).
Proof.
  unfold short_option_tokens. destruct (strlen arg =? 2)%nat.
  - destruct (single_tokens strtof opts arg following false e)
      as [[[k1 f] e1]|] eqn:H; [|discriminate].
    run_bind. destruct f; [|discriminate]. intros H1. injection H1 as <- <-.
    destruct (single_tokens_count _ _ _ _ _ _ _ _ H) as (? & ? & _). auto.
  - destruct (short_compound strtof opts arg (advance 1 arg) false e)
      as [[f e1]|]; [|discriminate].
    run_bind. destruct f; [|discriminate]. intros H1. injection H1 as <- <-.
    split; [lia|constructor].
Qed.

Lemma Argparser_parseLongOption_tokens opts self vector arg rest e :
  drop (argv self) vector = Some arg :: rest ->
  Argparser_parseLongOption strtof self opts vector e =
    long_option_tokens strtof opts arg e.
Proof.
  intros Hd. unfold Argparser_parseLongOption.
  rewrite (lookup_of_drop _ _ _ _ Hd). reflexivity.
Qed.

(** The loop writes in place what [scan] lists: with the copy index
    behind the cursor, the vector holding the arguments [toks] from the
    cursor on, the loop leaves the positionals where the copy index was,
    the rest of the vector as it found it, and the cursor on the unread
    arguments. *)
Lemma parse_loop_scan : forall toks skip fuel self vector e extra,
  out self = 0%nat ->
  (cpidx self < argv self)%nat ->
  (argv self <= length vector)%nat ->
  drop (argv self) vector = (Some <$> drop skip toks) ++ extra ->
  argc self = Z.of_nat (length (drop skip toks)) ->
  (length (drop skip toks) < fuel)%nat ->
  parse_loop strtof fuel self vector e =
    '(ps, unread, e') ←
      scan strtof (stopAtNonOption self) (options self) skip toks e;
    Continue
      (at_positions self (Z.of_nat (length unread))
         (length vector - length extra - length unread)
         (cpidx self + length ps),
       take (cpidx self) vector ++ (Some <$> ps)
         ++ drop (cpidx self + length ps) vector,
       e').
Proof.
  induction toks as [|arg rest IH];
    intros skip fuel self vector e extra Ho Hcp Hle Hd Hc Hf.
  - rewrite drop_nil in *. simpl in *.
    destruct fuel as [|fuel]; [lia|]. simpl. rewrite Hc. simpl.
    run_bind. apply Continue_state_eq.
    + apply (f_equal length) in Hd. rewrite length_drop in Hd.
      destruct self; unfold at_positions; simpl in *. f_equal; lia.
    + rewrite Nat.add_0_r. symmetry. apply take_drop.
  - destruct skip as [|skip]; [|apply IH; assumption].
    rewrite drop_0 in *. simpl in Hc, Hd, Hf.
    destruct fuel as [|fuel]; [lia|]. simpl.
    replace (argc self =? 0) with false by (symmetry; apply Z.eqb_neq; lia).
    rewrite (lookup_of_drop _ _ _ _ Hd).
    pose proof (drop_S_of_drop _ _ _ _ Hd) as Hd'.
    assert (Hlen : (argv self < length vector)%nat).
    { apply lookup_lt_is_Some. rewrite (lookup_of_drop _ _ _ _ Hd). eauto. }
    assert (Hlen' : (length vector - argv self = S (length rest + length extra))%nat).
    { apply (f_equal length) in Hd. rewrite length_drop in Hd. simpl in Hd.
      rewrite length_app, length_fmap in Hd. exact Hd. }
    unfold is_plain.
    destruct (negb (Ascii.eqb (char_at arg 0) "-") || is_nul (char_at arg 1)).
    { destruct (stopAtNonOption self) eqn:Hstop.
      - run_bind. apply Continue_state_eq.
        + destruct self; unfold at_positions; simpl in *. f_equal; lia.
        + rewrite Nat.add_0_r. symmetry. apply take_drop.
      - rewrite Ho. simpl.
        replace (cpidx self <? length vector)%nat with true
          by (symmetry; apply Nat.ltb_lt; lia).
        rewrite (IH 0%nat fuel _ _ e extra); simpl.
        + rewrite Hstop. run_bind.
          destruct (scan strtof false (options self) 0 rest e)
            as [[[ps unread] e']|]; [|reflexivity].
          simpl. apply Continue_state_eq.
          * rewrite length_insert.
            unfold at_positions, next_argument, increment_cpidx, set_cursor; simpl.
            f_equal; lia.
          * rewrite (take_S_r _ _ (Some arg))
              by (apply list_lookup_insert_eq; lia).
            rewrite take_insert_ge by lia.
            rewrite drop_insert_lt by lia.
            rewrite <- app_assoc. simpl.
            replace (cpidx self + S (length ps))%nat
              with (S (cpidx self + length ps)) by lia.
            reflexivity.
        + exact Ho.
        + lia.
        + rewrite length_insert. lia.
        + rewrite drop_0, drop_insert_lt by lia. exact Hd'.
        + rewrite drop_0. lia.
        + rewrite drop_0. lia. }
    destruct (negb (Ascii.eqb (char_at arg 1) "-")).
    { rewrite (Argparser_parseShortOption_tokens _ _ _ _ _ _ _ Hd)
        by (rewrite Hc; reflexivity).
      destruct (short_option_tokens strtof (options self) arg rest e)
        as [[k e1]|] eqn:Hshort; [|reflexivity].
      destruct (short_option_tokens_count _ _ _ _ _ _ Hshort) as [Hk _].
      run_bind.
      rewrite (IH k fuel _ _ e1 extra); simpl.
      - run_bind.
        destruct (scan strtof (stopAtNonOption self) (options self) k rest e1)
          as [[[ps unread] e']|]; reflexivity.
      - exact Ho.
      - lia.
      - lia.
      - replace (S (argv self + k)) with (S (argv self) + k)%nat by lia.
        rewrite <- drop_drop, Hd', drop_app_le, fmap_drop
          by (rewrite length_fmap; exact Hk).
        reflexivity.
      - rewrite length_drop. lia.
      - rewrite length_drop. lia. }
    destruct (negb (is_nul (char_at arg 2))).
    { rewrite (Argparser_parseLongOption_tokens _ _ _ _ _ _ Hd).
      destruct (long_option_tokens strtof (options self) arg e)
        as [e1|]; [|reflexivity].
      run_bind.
      rewrite (IH 0%nat fuel _ _ e1 extra); simpl.
      - run_bind.
        destruct (scan strtof (stopAtNonOption self) (options self) 0 rest e1)
          as [[[ps unread] e']|]; reflexivity.
      - exact Ho.
      - lia.
      - lia.
      - rewrite drop_0. exact Hd'.
      - rewrite drop_0. lia.
      - rewrite drop_0. lia. }
    run_bind. apply Continue_state_eq.
    + unfold at_positions, next_argument, set_cursor; simpl. f_equal; lia.
    + rewrite Nat.add_0_r. symmetry. apply take_drop.
Qed.


(** The positionals are a sublist of the arguments that were read. *)
Lemma scan_partition stop opts : forall toks skip e ps unread e',
  scan strtof stop opts skip toks e = Continue (ps, unread, e') ->
  exists read, toks = read ++ unread /\ sublist ps read.
Proof.
  induction toks as [|arg rest IH]; intros skip e ps unread e' H.
  - injection H as <- <- <-. exists []. split; [reflexivity|constructor].
  - simpl in H. destruct skip as [|skip].
    + destruct (is_plain arg).
      { destruct stop.
        - injection H as <- <- <-. exists []. split; [reflexivity|constructor].
        - revert H. run_bind.
          destruct (scan strtof false opts 0 rest e) as [[[ps1 u1] e1]|] eqn:H1;
            [|discriminate].
          simpl. intros H. injection H as <- <- <-.
          destruct (IH _ _ _ _ _ H1) as (read & -> & Hs).
          exists (arg :: read). split; [reflexivity|]. constructor. exact Hs. }
      destruct (negb (Ascii.eqb (char_at arg 1) "-")).
      { revert H. run_bind.
        destruct (short_option_tokens strtof opts arg rest e) as [[k e1]|];
          [|discriminate].
        simpl. intros H. destruct (IH _ _ _ _ _ H) as (read & -> & Hs).
        exists (arg :: read). split; [reflexivity|]. constructor. exact Hs. }
      destruct (negb (is_nul (char_at arg 2))).
      { revert H. run_bind.
        destruct (long_option_tokens strtof opts arg e) as [e1|]; [|discriminate].
        simpl. intros H. destruct (IH _ _ _ _ _ H) as (read & -> & Hs).
        exists (arg :: read). split; [reflexivity|]. constructor. exact Hs. }
      injection H as <- <- <-. exists [arg]. split; [reflexivity|apply sublist_nil_l].
    + destruct (IH _ _ _ _ _ H) as (read & -> & Hs).
      exists (arg :: read). split; [reflexivity|]. constructor. exact Hs.
Qed.

(** The compaction: the unread arguments [U] move down over the junk [J]
    that follows the positionals [P]. *)
Lemma memmove_compact (P J U T : list (option string)) :
  memmove (P ++ J ++ U ++ T) (length P) (length P + length J)
    (Z.of_nat (length U))
  = Some (P ++ U ++ drop (length U) (J ++ U ++ T)).
Proof.
  unfold memmove.
  replace (Z.of_nat (length U) <? 0) with false by (symmetry; apply Z.ltb_ge; lia).
  rewrite Nat2Z.id.
  replace ((length P + length J + length U <=? length (P ++ J ++ U ++ T))%nat
           && (length P + length U <=? length (P ++ J ++ U ++ T))%nat) with true.
  2:{ symmetry. apply andb_true_iff.
      split; apply Nat.leb_le; rewrite !length_app; lia. }
  rewrite take_app_length.
  rewrite (app_assoc P J), drop_app_length'
    by (rewrite length_app; reflexivity).
  rewrite take_app_length.
  rewrite <- (app_assoc P J), drop_app_add. reflexivity.
Qed.

(** On a fresh handle, [Argparser_parse] returns what [scan] finds: the
    positionals and the unread arguments at the front of the vector, a
    null pointer after them, the rest of the vector untouched. *)
Lemma Argparser_parse_scan self count vector first toks extra e :
  valid self = true ->
  cpidx self = 0%nat ->
  vector = first :: (Some <$> toks) ++ extra ->
  count = Z.of_nat (S (length toks)) ->
  Argparser_parse strtof self count vector e =
    '(ps, unread, e') ←
      scan strtof (stopAtNonOption self) (options self) 0 toks e;
    Continue
      (Z.of_nat (length (ps ++ unread)),
       at_positions (skip_executable_path self count)
         (Z.of_nat (length unread)) (S (length toks) - length unread)
         (length ps),
       (Some <$> ps ++ unread) ++ None :: drop (S (length (ps ++ unread))) vector,
       e').
Proof.
  intros Hv Hcp -> ->. unfold Argparser_parse, assert. rewrite Hv.
  rewrite (parse_loop_scan toks 0 _ _ _ e extra).
  2:{ reflexivity. }
  2:{ simpl. lia. }
  2:{ simpl. lia. }
  2:{ reflexivity. }
  2:{ rewrite drop_0. simpl. lia. }
  2:{ rewrite drop_0. simpl. rewrite length_app, length_fmap. lia. }
  cbn [cpidx out argc argv skip_executable_path at_positions stopAtNonOption options].
  destruct (scan strtof (stopAtNonOption self) (options self) 0 toks e)
    as [[[ps unread] e']|] eqn:Hscan; [|reflexivity].
  destruct (scan_partition _ _ _ _ _ _ _ _ Hscan) as (read & -> & Hsub).
  pose proof (sublist_length _ _ Hsub) as Hlen.
  unfold mbind, outcome_bind.
  cbn [cpidx out argc argv skip_executable_path at_positions stopAtNonOption options].
  rewrite Hcp. cbn [take Nat.add app].
  set (vector := first :: (Some <$> read ++ unread) ++ extra).
  set (P := Some <$> ps). set (U := Some <$> unread).
  assert (HP : length P = length ps) by apply length_fmap.
  assert (HU : length U = length unread) by apply length_fmap.
  assert (Hsplit : exists x J,
    drop (length ps) vector = (x :: J) ++ U ++ extra
    /\ length (x :: J) = (S (length read) - length ps)%nat).
  { unfold vector. rewrite fmap_app, <- app_assoc, app_comm_cons.
    rewrite drop_app_le by (simpl; rewrite length_fmap; lia).
    destruct (drop (length ps) (first :: (Some <$> read))) as [|x J] eqn:HJ.
    - apply (f_equal length) in HJ. rewrite length_drop in HJ. simpl in HJ.
      rewrite length_fmap in HJ. lia.
    - exists x, J. split; [reflexivity|].
      rewrite <- HJ, length_drop. simpl. rewrite length_fmap. reflexivity. }
  destruct Hsplit as (x & J & HJ & HlenJ).
  assert (Hvec : length vector = (S (length read + length unread + length extra))%nat).
  { unfold vector. simpl. rewrite !length_app, length_fmap, length_app. lia. }
  replace (length vector - length extra - length unread)%nat
    with (length P + length (x :: J))%nat by lia.
  rewrite HJ, <- HP, Nat2Z.id, <- HU.
  rewrite memmove_compact.
  set (D := drop (length U) ((x :: J) ++ U ++ extra)).
  assert (HD : length D = (length (x :: J) + length extra)%nat).
  { unfold D. rewrite length_drop, !length_app. lia. }
  replace (length P + length U <? length (P ++ U ++ D))%nat with true.
  2:{ symmetry. apply Nat.ltb_lt. rewrite !length_app, HD. simpl. lia. }
  f_equal.
  apply pair_equal_spec; split; [|reflexivity].
  apply pair_equal_spec; split; [apply pair_equal_spec; split|].
  - rewrite length_app. lia.
  - f_equal. rewrite length_app. simpl in HlenJ |- *. lia.
  - rewrite app_assoc, fmap_app. fold P U.
    rewrite <- (Nat.add_0_r (length P + length U)%nat).
    rewrite <- length_app, insert_app_r. f_equal.
    rewrite length_app, <- HP, <- HU.
    replace (S (length P + length U)) with (length P + S (length U))%nat by lia.
    rewrite <- (drop_drop vector), HP, HJ.
    replace (S (length U)) with (length U + 1)%nat by lia.
    rewrite <- drop_drop. fold D.
    destruct D; [simpl in HD; lia|]. reflexivity.
Qed.


(** ** Reading a list of arguments in two parts *)

(** A token with a leading dash is never taken as a value: what follows
    it plays no part. *)
Lemma single_tokens_dash opts : forall cur following d more found e,
  Ascii.eqb (char_at d 0) "-" = true ->
  single_tokens strtof opts cur (following ++ d :: more) found e =
  single_tokens strtof opts cur following found e.
Proof.
  induction opts as [|o opts IH]; intros cur following d more found e Hd.
  - reflexivity.
  - simpl. destruct (is_END (type o)); [reflexivity|].
    destruct (is_nul (shortName o)); [auto|].
    destruct (String.length cur <? 1)%nat; [reflexivity|].
    destruct (Ascii.eqb (shortName o) (char_at cur 1)); [|auto].
    destruct following as [|v following']; simpl.
    + rewrite Hd. destruct (Argparser_parseValue strtof o None e); [|reflexivity].
      run_bind. apply (IH cur [] d more true _ Hd).
    + destruct (Ascii.eqb (char_at v 0) "-").
      * destruct (Argparser_parseValue strtof o None e); [|reflexivity].
        run_bind. apply (IH cur (v :: following') d more true _ Hd).
      * destruct (Argparser_parseValue strtof o (Some v) e); [|reflexivity].
        run_bind. rewrite (IH v following' d more true _ Hd). reflexivity.
Qed.

Lemma short_option_tokens_dash opts arg following d more e :
  Ascii.eqb (char_at d 0) "-" = true ->
  short_option_tokens strtof opts arg (following ++ d :: more) e =
  short_option_tokens strtof opts arg following e.
Proof.
  intros Hd. unfold short_option_tokens.
  rewrite (single_tokens_dash _ _ _ _ _ _ _ Hd). reflexivity.
Qed.


(** ** How the process can end *)

Lemma ends_within_Continue {A : Type} P (a : A) :
  ends_within P (@Continue float A a).
Proof. intros t e. discriminate. Qed.

Lemma ends_within_Terminate {A : Type} (P : Termination -> Prop) t e :
  P t -> ends_within P (@Terminate float A t e).
Proof. intros H t' e' H'. injection H' as <- _. exact H. Qed.

Lemma ends_within_bind {A B : Type} P (m : @outcome float A)
    (k : A -> @outcome float B) :
  ends_within P m ->
  (forall a, m = Continue a -> ends_within P (k a)) ->
  ends_within P (m ≫= k).
Proof.
  intros Hm Hk t e. destruct m as [a|t0 e0]; run_bind.
  - apply Hk. reflexivity.
  - intros H. injection H as -> ->. eapply Hm. reflexivity.
Qed.

Lemma ends_within_weaken {A : Type} (P Q : Termination -> Prop)
    (m : @outcome float A) :
  (forall t, P t -> Q t) -> ends_within P m -> ends_within Q m.
Proof. intros H Hm t e Ht. apply H. eapply Hm. exact Ht. Qed.

Ltac ends_step :=
  match goal with
  | |- ends_within _ (Continue _) => apply ends_within_Continue
  | |- ends_within _ (Terminate _ _) => apply ends_within_Terminate; reflexivity
  | |- ends_within _ (_ ≫= _) => apply ends_within_bind; [|intros ? ?]
  | |- ends_within _ (if ?b then _ else _) => destruct b
  | |- ends_within _ (match ?x with _ => _ end) => destruct x
  | |- ends_within _ (let '_ := ?x in _) => destruct x
  | H : _ |- _ => solve [apply H]
  end.

Lemma Argparser_parseValue_ends o v e :
  ends_within external (Argparser_parseValue strtof o v e).
Proof.
  unfold Argparser_parseValue, call_callback, Argparser_exitDueToError.
  repeat ends_step.
Qed.

Lemma short_compound_scan_ends opts c : forall found e,
  ends_within external (short_compound_scan strtof opts c found e).
Proof.
  induction opts as [|o opts IH]; intros found e; simpl.
  - ends_step.
  - pose proof Argparser_parseValue_ends. repeat ends_step.
Qed.

Lemma short_compound_ends opts arg : forall i found e,
  ends_within external (short_compound strtof opts arg i found e).
Proof.
  induction i as [|c i IH]; intros found e; simpl.
  - ends_step.
  - pose proof (short_compound_scan_ends opts).
    unfold Argparser_exitDueToUnknownOption. repeat ends_step.
Qed.

Lemma long_scan_ends opts arg : forall found e,
  ends_within external (long_scan strtof opts arg found e).
Proof.
  induction opts as [|o opts IH]; intros found e; simpl.
  - ends_step.
  - pose proof Argparser_parseValue_ends. repeat ends_step.
Qed.

Lemma short_single_ends opts vector : forall self found e,
  ends_within external (short_single strtof self opts vector found e).
Proof.
  induction opts as [|o opts IH]; intros self found e; simpl.
  - ends_step.
  - pose proof Argparser_parseValue_ends. repeat ends_step.
Qed.

Lemma Argparser_parseShortOption_ends self opts vector e :
  ends_within external (Argparser_parseShortOption strtof self opts vector e).
Proof.
  unfold Argparser_parseShortOption, Argparser_exitDueToUnknownOption.
  pose proof (short_single_ends opts vector).
  pose proof (short_compound_ends opts).
  repeat ends_step.
Qed.

Lemma Argparser_parseLongOption_ends self opts vector e :
  ends_within external (Argparser_parseLongOption strtof self opts vector e).
Proof.
  unfold Argparser_parseLongOption, Argparser_exitDueToUnknownOption.
  pose proof (long_scan_ends opts).
  repeat ends_step.
Qed.

(** The scan of a two-character token moves the cursor forward only. *)
Lemma short_single_forward opts vector : forall self found e self' found' e',
  short_single strtof self opts vector found e = Continue (self', found', e') ->
  (argv self <= argv self')%nat.
Proof.
  induction opts as [|o opts IH]; intros self found e self' found' e'; simpl.
  - discriminate.
  - destruct (is_END (type o)).
    { intros H. injection H as <- _ _. lia. }
    destruct (is_nul (shortName o)); [apply IH|].
    destruct (vector !! argv self) as [[a|]|]; try discriminate.
    destruct (String.length a <? 1)%nat; [discriminate|].
    destruct (Ascii.eqb (shortName o) (char_at a 1)); [|apply IH].
    match goal with |- (?m ≫= _) = _ -> _ => destruct m as [[v|]|] end;
      run_bind; try discriminate.
    + destruct (Argparser_parseValue strtof o (Some v) e); [|discriminate].
      intros H. apply IH in H. simpl in H. lia.
    + destruct (Argparser_parseValue strtof o None e); [|discriminate].
      apply IH.
Qed.

Lemma Argparser_parseShortOption_forward self opts vector e self' e' :
  Argparser_parseShortOption strtof self opts vector e = Continue (self', e') ->
  (argv self <= argv self')%nat.
Proof.
  unfold Argparser_parseShortOption.
  destruct (vector !! argv self) as [[arg|]|]; try discriminate.
  destruct (strlen arg =? 2)%nat.
  - destruct (short_single strtof self opts vector false e)
      as [[[s1 f] e1]|] eqn:H1; [|discriminate].
    run_bind. apply short_single_forward in H1.
    destruct f.
    + intros H. injection H as <- _. exact H1.
    + destruct (vector !! argv s1) as [[?|]|]; discriminate.
  - destruct (short_compound strtof opts arg (advance 1 arg) false e)
      as [[f e1]|]; [|discriminate].
    run_bind. destruct f.
    + intros H. injection H as <- _. lia.
    + destruct (vector !! argv self) as [[?|]|]; discriminate.
Qed.

(** The loop never ends in the failure of [assert(self->valid)], and with
    more fuel than the vector has entries from the cursor on it does not
    run out of fuel. *)
Lemma parse_loop_ends : forall fuel self vector e,
  ends_within (fun t => t <> AssertionFailure assert_self_valid /\
                        ((length vector - argv self < fuel)%nat -> t <> OutOfFuel))
    (parse_loop strtof fuel self vector e).
Proof.
  assert (Hext : forall (A : Type) (m : @outcome float A) n k,
    ends_within external m ->
    ends_within (fun t => t <> AssertionFailure assert_self_valid /\
                          ((n < k)%nat -> t <> OutOfFuel)) m).
  { intros A m n k. apply ends_within_weaken.
    intros t Ht. split; [|intros _]; intros ->; discriminate. }
  induction fuel as [|fuel IH]; intros self vector e; simpl.
  - apply ends_within_Terminate. split; [discriminate|lia].
  - destruct (argc self =? 0); [apply ends_within_Continue|].
    destruct (vector !! argv self) as [[arg|]|] eqn:Harg;
      try (apply ends_within_Terminate; split; discriminate).
    apply lookup_lt_Some in Harg.
    destruct (negb (Ascii.eqb (char_at arg 0) "-") || is_nul (char_at arg 1)).
    { destruct (stopAtNonOption self); [apply ends_within_Continue|].
      destruct (out self + cpidx self <? length vector)%nat;
        [|apply ends_within_Terminate; split; discriminate].
      eapply ends_within_weaken; [|apply IH].
      simpl. rewrite length_insert. intros t [H1 H2].
      split; [exact H1|]. intros Hf. apply H2. lia. }
    destruct (negb (Ascii.eqb (char_at arg 1) "-")).
    { apply ends_within_bind.
      - apply Hext, Argparser_parseShortOption_ends.
      - intros [self' e'] Hs. apply Argparser_parseShortOption_forward in Hs.
        eapply ends_within_weaken; [|apply IH].
        simpl. intros t [H1 H2]. split; [exact H1|]. intros Hf. apply H2. lia. }
    destruct (negb (is_nul (char_at arg 2))).
    { apply ends_within_bind.
      - apply Hext, Argparser_parseLongOption_ends.
      - intros e' _.
        eapply ends_within_weaken; [|apply IH].
        simpl. intros t [H1 H2]. split; [exact H1|]. intros Hf. apply H2. lia. }
    apply ends_within_Continue.
Qed.

(** X2.  The loop of [Argparser_parse] always ends: whatever the handle,
    the count and the array, the call returns or leaves the process
    without the bound of [parse_loop] being what stops it. *)
Lemma Argparser_parse_fuel self count vector e :
  ends_within (fun t => t <> OutOfFuel) (Argparser_parse strtof self count vector e).
Proof.
  unfold Argparser_parse, assert. destruct (valid self).
  2:{ apply ends_within_Terminate. discriminate. }
  apply ends_within_bind.
  - eapply ends_within_weaken; [|apply parse_loop_ends].
    simpl. intros t [_ H]. apply H. lia.
  - intros [[self' vector'] e'] _.
    destruct (memmove _ _ _ _); [|apply ends_within_Terminate; discriminate].
    destruct (_ <? _)%nat; [apply ends_within_Continue|].
    apply ends_within_Terminate; discriminate.
Qed.

(** C8 (amended).  On a handle whose [valid] flag is false, as
    [Argparser_clear] leaves it, [Argparser_setUsage],
    [Argparser_setDescription], [Argparser_setEpilog],
    [Argparser_setStopAtNonOption] and [Argparser_parse] end in the
    failure of [assert(self->valid)], not in an unknown-option or
    invalid-value exit.  On a handle whose flag is true, as
    [Argparser_init] leaves it, the four setters return and
    [Argparser_parse] never ends in that failure.  The flag is all the
    assertion reads: a handle that was never initialised is stopped or
    let through as its memory happens to hold. *)
Theorem invalid_handle_fails_fast self text stop count vector e :
  (if valid self
   then
     (exists self', Argparser_setUsage self text e = Continue self') /\
     (exists self', Argparser_setDescription self text e = Continue self') /\
     (exists self', Argparser_setEpilog self text e = Continue self') /\
     (exists self', Argparser_setStopAtNonOption self stop e = Continue self') /\
     (forall e', Argparser_parse strtof self count vector e
                 <> Terminate (AssertionFailure assert_self_valid) e')
   else
     Argparser_setUsage self text e
       = Terminate (AssertionFailure assert_self_valid) e /\
     Argparser_setDescription self text e
       = Terminate (AssertionFailure assert_self_valid) e /\
     Argparser_setEpilog self text e
       = Terminate (AssertionFailure assert_self_valid) e /\
     Argparser_setStopAtNonOption self stop e
       = Terminate (AssertionFailure assert_self_valid) e /\
     Argparser_parse strtof self count vector e
       = Terminate (AssertionFailure assert_self_valid) e) /\
  valid (Argparser_clear self) = false /\
  (forall opts, valid (Argparser_init self opts) = true).
Proof.
  split; [|split; reflexivity].
  unfold Argparser_setUsage, Argparser_setDescription, Argparser_setEpilog,
    Argparser_setStopAtNonOption, Argparser_parse, assert.
  destruct (valid self).
  - repeat (split; [eexists; reflexivity|]).
    intros e' H. revert H.
    destruct (parse_loop strtof (S (length vector))
                (skip_executable_path self count) vector e)
      as [[[self' vector'] e1]|t e1] eqn:Hloop; run_bind.
    + destruct (memmove _ _ _ _); [|discriminate].
      destruct (_ <? _)%nat; discriminate.
    + intros H. injection H as -> _.
      apply parse_loop_ends in Hloop. tauto.
  - repeat split.
Qed.

(** ** The terminator and the stop policy *)

Lemma scan_stop_no_positionals opts : forall toks skip e ps unread e',
  scan strtof true opts skip toks e = Continue (ps, unread, e') -> ps = [].
Proof.
  induction toks as [|arg rest IH]; intros skip e ps unread e' H.
  - injection H as <- <- <-. reflexivity.
  - simpl in H. destruct skip as [|skip]; [|eauto].
    destruct (is_plain arg).
    { injection H as <- <- <-. reflexivity. }
    destruct (negb (Ascii.eqb (char_at arg 1) "-")).
    { destruct (short_option_tokens strtof opts arg rest e) as [[k e1]|];
        [|discriminate].
      revert H. run_bind. eauto. }
    destruct (negb (is_nul (char_at arg 2))).
    { destruct (long_option_tokens strtof opts arg e) as [e1|]; [|discriminate].
      revert H. run_bind. eauto. }
    injection H as <- <- <-. reflexivity.
Qed.

Lemma parse_arguments_scan self first toks extra e :
  valid self = true ->
  cpidx self = 0%nat ->
  parse_arguments strtof self first toks extra e =
    '(ps, unread, e') ←
      scan strtof (stopAtNonOption self) (options self) 0 toks e;
    Continue
      (Z.of_nat (length (ps ++ unread)),
       at_positions (skip_executable_path self (Z.of_nat (S (length toks))))
         (Z.of_nat (length unread)) (S (length toks) - length unread)
         (length ps),
       (Some <$> ps ++ unread)
         ++ None :: drop (S (length (ps ++ unread)))
                      (argument_vector first toks extra),
       e').
Proof.
  intros Hv Hc. unfold parse_arguments.
  apply (Argparser_parse_scan self _ _ first toks extra e Hv Hc);
    reflexivity.
Qed.

Lemma residual_prefix (l : list string) (tl : list (option string)) :
  take (length l) ((Some <$> l) ++ None :: tl) = Some <$> l /\
  ((Some <$> l) ++ None :: tl) !! length l = Some None.
Proof.
  split.
  - apply take_app_length'. rewrite length_fmap. reflexivity.
  - rewrite lookup_app_r by (rewrite length_fmap; lia).
    rewrite length_fmap, Nat.sub_diag. reflexivity.
Qed.

(** ** Compound short flags *)

Lemma terminated_tail o opts :
  terminated (o :: opts) -> is_END (type o) = false -> terminated opts.
Proof. intros H HE. inversion H; subst; [congruence|assumption]. Qed.

Lemma short_compound_scan_matching opts c : forall found e,
  terminated opts ->
  short_compound_scan strtof opts c found e =
    e' ← flag_entries strtof (matching opts c) e;
    Continue (found || negb (bool_decide (matching opts c = [])), e').
Proof.
  unfold matching.
  induction opts as [|o opts IH]; intros found e Hend.
  - inversion Hend.
  - simpl. destruct (is_END (type o)) eqn:HE.
    { run_bind. rewrite orb_false_r. reflexivity. }
    simpl. destruct (Ascii.eqb (shortName o) c).
    + simpl. destruct (Argparser_parseValue strtof o None e) as [e1|];
        [|reflexivity].
      run_bind. rewrite IH by (eapply terminated_tail; eassumption).
      destruct (flag_entries strtof _ e1); [|reflexivity].
      run_bind. rewrite orb_true_r. reflexivity.
    + apply IH. eapply terminated_tail; eassumption.
Qed.



(** ** The converter and single options *)

(** C9.  For an option of any type whose destination is null, the
    converter does no conversion and no check, whatever the text: its
    result is that of calling the callback, and with no callback nothing
    happens at all.  On a table with the help option, [--help=banana]
    ends the process through the help callback, with status 0 and no
    conversion error. *)
Theorem no_conversion_without_destination (t : ArgparserOptionType) (s : ascii)
    (l h : option string) (cb : option Argparser_callback)
    (optvalue : option string) (stop : bool) (u d ep : option string) (a : Z)
    (v o k : nat) (prog : option string) e :
  let opt :=
    {| type := t; shortName := s; longName := l; value := None; help := h;
       callback := cb |} in
  let self :=
    {| valid := true; options := [ARGPARSER_OPT_HELP; ARGPARSER_OPT_END];
       usage := u; description := d; epilog := ep; stopAtNonOption := stop;
       argc := a; argv := v; out := o; cpidx := k |} in
  Argparser_parseValue strtof opt optvalue e = call_callback opt e /\
  Argparser_parseValue strtof
    {| type := t; shortName := s; longName := l; value := None; help := h;
       callback := None |} optvalue e = Continue e /\
  parse_arguments strtof self prog ["--help=banana"%string] [None] e
    = Terminate ExitForHelp
        {| memory := memory e;
           called := called e ++ [("h"%char, Some "help"%string)] |}.
Proof.
  intros opt self. repeat split.
Qed.

(** ** The copy index across calls *)

(** C3, the failing input.  [Argparser_parse] sets [argc], [argv] and
    [out] anew and leaves [cpidx] as the call before left it.  A second
    call on the same handle, for the single plain argument [b], returns 2
    instead of 1, and the first two entries of the vector are the
    invocation name and [b]: index 0 is not excluded. *)
Theorem second_parse_keeps_cpidx (junk : Argparser) e :
  let self := Argparser_init junk [ARGPARSER_OPT_END] in
  exists self1 self2,
    parse_arguments strtof self (Some "bud"%string) ["a"%string] [None] e
      = Continue (1, self1, [Some "a"%string; None; None], e) /\
    parse_arguments strtof self1 (Some "bud"%string) ["b"%string] [None] e
      = Continue (2, self2, [Some "bud"%string; Some "b"%string; None], e).
Proof.
  eexists _, _. split; reflexivity.
Qed.

Lemma scan_plain stop opts : forall toks e,
  Forall (fun t => is_plain t = true) toks ->
  exists ps unread,
    scan strtof stop opts 0 toks e = Continue (ps, unread, e) /\
    ps ++ unread = toks.
Proof.
  induction toks as [|arg rest IH]; intros e Hp.
  - exists [], []. split; reflexivity.
  - inversion Hp as [|? ? Harg Hrest]; subst. simpl. rewrite Harg.
    destruct stop.
    + exists [], (arg :: rest). split; reflexivity.
    + destruct (IH e Hrest) as (ps & unread & -> & <-).
      exists (arg :: ps), unread. split; reflexivity.
Qed.

(** X4.  On a fresh handle, arguments that are all plain come back as
    they are, whatever the stop policy. *)
Lemma fresh_parse_plain self first toks extra e :
  valid self = true ->
  cpidx self = 0%nat ->
  Forall (fun t => is_plain t = true) toks ->
  exists self' vector',
    parse_arguments strtof self first toks extra e
      = Continue (Z.of_nat (length toks), self', vector', e) /\
    take (length toks) vector' = Some <$> toks /\
    vector' !! length toks = Some None.
Proof.
  intros Hv Hc Hp. rewrite parse_arguments_scan by assumption.
  destruct (scan_plain (stopAtNonOption self) (options self) toks e Hp)
    as (ps & unread & -> & <-).
  run_bind. eexists _, _. split; [reflexivity|]. apply residual_prefix.
Qed.

(** ** Long options *)

Lemma strncmp_prefix : forall name suffix,
  c_string name -> strncmp (name +:+ suffix) name (strlen name) = 0.
Proof.
  unfold c_string.
  induction name as [|c name IH]; intros suffix Hc; [reflexivity|].
  simpl in Hc |- *. destruct (is_nul c) eqn:Hn; [discriminate|].
  cbn [strncmp advance].
  change (char_at (String c name +:+ suffix) 0) with c.
  change (char_at (String c name) 0) with c.
  rewrite Ascii.eqb_refl, Hn.
  change (String c name +:+ suffix) with (String c (name +:+ suffix)).
  apply IH. lia.
Qed.

Lemma advance_prefix : forall name suffix,
  c_string name -> advance (strlen name) (name +:+ suffix) = suffix.
Proof.
  unfold c_string.
  induction name as [|c name IH]; intros suffix Hc; [reflexivity|].
  simpl in Hc |- *. destruct (is_nul c); [discriminate|].
  change (String c name +:+ suffix) with (String c (name +:+ suffix)).
  simpl. apply IH. lia.
Qed.

(** X11.  What the long matcher does with a candidate whose name the
    token starts with: [=] dispatches the remainder as the value;
    anything else, the end of the token or not, dispatches a BOOLEAN
    without a value and is no match for the other types. *)
Lemma long_option_candidate o opts name suffix found e :
  is_END (type o) = false ->
  longName o = Some name ->
  c_string name ->
  name <> EmptyString ->
  let arg := ("--" +:+ name +:+ suffix)%string in
  long_scan strtof (o :: opts) arg found e =
    if Ascii.eqb (char_at suffix 0) "=" then
      e' ← Argparser_parseValue strtof o (Some (advance 1 suffix)) e;
      long_scan strtof opts arg true e'
    else if is_BOOLEAN (type o) then
      e' ← Argparser_parseValue strtof o None e;
      long_scan strtof opts arg true e'
    else long_scan strtof opts arg found e.
Proof.
  intros HE Hl Hc Hne arg. unfold arg.
  cbn [long_scan]. rewrite HE, Hl.
  assert (Hlen : (strlen name <? 1)%nat = false).
  { destruct name as [|c name]; [congruence|].
    unfold c_string in Hc. simpl in Hc |- *.
    destruct (is_nul c); [discriminate|reflexivity]. }
  rewrite Hlen.
  change (advance 2 ("--" +:+ name +:+ suffix)) with (name +:+ suffix).
  rewrite strncmp_prefix by assumption.
  change (advance (2 + strlen name) ("--" +:+ name +:+ suffix))
    with (advance (strlen name) (name +:+ suffix)).
  rewrite advance_prefix by assumption. reflexivity.
Qed.

(** C2, the failing input.  For a BOOLEAN option [--color], the token
    [--colorful] has the name followed by a suffix that is not empty and
    does not start with [=]; the candidate matches all the same, is
    dispatched without a value, and the parser returns with the
    destination set. *)
Theorem boolean_long_option_takes_suffix (stop : bool) (u d ep : option string)
    (a : Z) (v o p : nat) (text : string) (prog : option string) e :
  let self :=
    {| valid := true;
       options := [ARGPARSER_OPT_BOOL "c" (Some "color"%string) (Some p) text;
                   ARGPARSER_OPT_END];
       usage := u; description := d; epilog := ep; stopAtNonOption := stop;
       argc := a; argv := v; out := o; cpidx := 0%nat |} in
  exists self' vector',
    parse_arguments strtof self prog ["--colorful"%string] [None] e
    = Continue (0, self', vector', store p (BoolCell true) e).
Proof.
  intros self. eexists _, _. reflexivity.
Qed.

End Properties.

(** * Further properties of the parser *)

Section Parser.
Context {float : Type} (strtof : string -> float * string * Z).

Implicit Types (self : @Argparser float) (e : @Env float)
  (opts : list (@ArgparserOption float)) (vector : list (option string)).

Ltac run_bind := unfold mbind, outcome_bind; simpl.

(** ** What a call of the parser leaves alone *)

Lemma same_configuration_refl self : same_configuration self self.
Proof. repeat split. Qed.

Lemma same_configuration_trans self1 self2 self3 :
  same_configuration self1 self2 -> same_configuration self2 self3 ->
  same_configuration self1 self3.
Proof.
  unfold same_configuration. intros (?&?&?&?&?&?&?) (?&?&?&?&?&?&?).
  repeat split; congruence.
Qed.

Lemma short_single_configuration opts vector : forall self found e self' found' e',
  short_single strtof self opts vector found e = Continue (self', found', e') ->
  same_configuration self self' /\ cpidx self' = cpidx self.
Proof.
  induction opts as [|o opts IH]; intros self found e self' found' e'; simpl.
  - discriminate.
  - destruct (is_END (type o)).
    { intros H. injection H as <- _ _. split; [apply same_configuration_refl|reflexivity]. }
    destruct (is_nul (shortName o)); [apply IH|].
    destruct (vector !! argv self) as [[a|]|]; try discriminate.
    destruct (String.length a <? 1)%nat; [discriminate|].
    destruct (Ascii.eqb (shortName o) (char_at a 1)); [|apply IH].
    match goal with |- (?m ≫= _) = _ -> _ => destruct m as [[v|]|] end;
      run_bind; try discriminate.
    + destruct (Argparser_parseValue strtof o (Some v) e); [|discriminate].
      intros H. apply IH in H. destruct H as [H1 H2]. split; [|exact H2].
      eapply same_configuration_trans; [|exact H1]. repeat split.
    + destruct (Argparser_parseValue strtof o None e); [|discriminate].
      apply IH.
Qed.

Lemma Argparser_parseShortOption_configuration self opts vector e self' e' :
  Argparser_parseShortOption strtof self opts vector e = Continue (self', e') ->
  same_configuration self self' /\ cpidx self' = cpidx self.
Proof.
  unfold Argparser_parseShortOption.
  destruct (vector !! argv self) as [[arg|]|]; try discriminate.
  destruct (strlen arg =? 2)%nat.
  - destruct (short_single strtof self opts vector false e)
      as [[[s1 f] e1]|] eqn:H1; [|discriminate].
    run_bind. apply short_single_configuration in H1.
    destruct f.
    + intros H. injection H as <- _. exact H1.
    + destruct (vector !! argv s1) as [[?|]|]; discriminate.
  - destruct (short_compound strtof opts arg (advance 1 arg) false e)
      as [[f e1]|]; [|discriminate].
    run_bind. destruct f.
    + intros H. injection H as <- _. split; [apply same_configuration_refl|reflexivity].
    + destruct (vector !! argv self) as [[?|]|]; discriminate.
Qed.

Lemma parse_loop_configuration : forall fuel self vector e self' vector' e',
  parse_loop strtof fuel self vector e = Continue (self', vector', e') ->
  same_configuration self self' /\ length vector' = length vector /\
  (cpidx self <= cpidx self')%nat.
Proof.
  induction fuel as [|fuel IH]; intros self vector e self' vector' e'; simpl.
  - discriminate.
  - assert (Hnow : @Continue float _ (self, vector, e) = Continue (self', vector', e') ->
      same_configuration self self' /\ length vector' = length vector /\
      (cpidx self <= cpidx self')%nat).
    { intros H. injection H as <- <- _.
      split; [apply same_configuration_refl|]. split; [reflexivity|lia]. }
    destruct (argc self =? 0); [exact Hnow|].
    destruct (vector !! argv self) as [[arg|]|]; try discriminate.
    destruct (negb (Ascii.eqb (char_at arg 0) "-") || is_nul (char_at arg 1)).
    { destruct (stopAtNonOption self); [exact Hnow|].
      destruct (out self + cpidx self <? length vector)%nat; [|discriminate].
      intros H. apply IH in H. destruct H as (H1 & H2 & H3).
      rewrite length_insert in H2. simpl in H3.
      split; [|split; [exact H2|lia]].
      eapply same_configuration_trans; [|exact H1]. repeat split. }
    destruct (negb (Ascii.eqb (char_at arg 1) "-")).
    { destruct (Argparser_parseShortOption strtof self (options self) vector e)
        as [[s1 e1]|] eqn:Hs; [|discriminate].
      run_bind. apply Argparser_parseShortOption_configuration in Hs.
      destruct Hs as [Hs1 Hs2].
      intros H. apply IH in H. destruct H as (H1 & H2 & H3). simpl in H3.
      split; [|split; [exact H2|lia]].
      eapply same_configuration_trans; [exact Hs1|].
      eapply same_configuration_trans; [|exact H1]. repeat split. }
    destruct (negb (is_nul (char_at arg 2))).
    { destruct (Argparser_parseLongOption strtof self (options self) vector e)
        as [e1|]; [|discriminate].
      run_bind. intros H. apply IH in H. destruct H as (H1 & H2 & H3).
      simpl in H3. split; [|split; [exact H2|lia]].
      eapply same_configuration_trans; [|exact H1]. repeat split. }
    intros H. injection H as <- <- _.
    split; [repeat split|]. split; [reflexivity|simpl; lia].
Qed.

Lemma length_memmove vector dst src n moved :
  memmove vector dst src n = Some moved -> length moved = length vector.
Proof.
  unfold memmove. destruct (n <? 0); [discriminate|].
  destruct (_ && _) eqn:Hb; [|discriminate].
  apply andb_true_iff in Hb. destruct Hb as [H1 H2].
  apply Nat.leb_le in H1, H2.
  intros H. injection H as <-.
  rewrite !length_app, !length_take, !length_drop. lia.
Qed.

(** X1.  Whatever the handle, a call of [Argparser_parse] that returns
    has left the handle valid and has kept its table, its texts and its
    stop policy; the vector has the length it had; the copy index has
    not gone down; the count returned is the copy index plus the
    arguments left, and the vector holds a null pointer at that index.
    *)
Theorem Argparser_parse_keeps_configuration self count vector e n self'
    vector' e' :
  Argparser_parse strtof self count vector e = Continue (n, self', vector', e') ->
  valid self' = true /\ options self' = options self /\
  usage self' = usage self /\ description self' = description self /\
  epilog self' = epilog self /\ stopAtNonOption self' = stopAtNonOption self /\
  length vector' = length vector /\
  (cpidx self <= cpidx self')%nat /\
  n = Z.of_nat (cpidx self') + argc self' /\
  vector' !! Z.to_nat n = Some None.
Proof.
  unfold Argparser_parse, assert. destruct (valid self) eqn:Hv; [|discriminate].
  destruct (parse_loop strtof (S (length vector)) (skip_executable_path self count)
              vector e) as [[[s1 v1] e1]|] eqn:Hloop; [|discriminate].
  run_bind.
  destruct (memmove v1 (out s1 + cpidx s1) (argv s1) (argc s1)) as [moved|] eqn:Hm;
    [|discriminate].
  destruct (out s1 + cpidx s1 + Z.to_nat (argc s1) <? length moved)%nat eqn:Hlt;
    [|discriminate].
  intros H. injection H as <- <- <- _.
  apply parse_loop_configuration in Hloop.
  destruct Hloop as ((H1&H2&H3&H4&H5&H6&H7) & Hlen & Hcp). simpl in *.
  apply Nat.ltb_lt in Hlt.
  pose proof (length_memmove _ _ _ _ _ Hm) as Hmoved.
  assert (Hargc : 0 <= argc s1).
  { unfold memmove in Hm. destruct (argc s1 <? 0) eqn:Hneg; [discriminate|].
    apply Z.ltb_ge in Hneg. exact Hneg. }
  repeat (split; [congruence|]).
  split; [rewrite length_insert; congruence|].
  split; [exact Hcp|]. split; [reflexivity|].
  rewrite H7 in *. simpl in *.
  replace (Z.to_nat (Z.of_nat (cpidx s1) + argc s1))
    with (cpidx s1 + Z.to_nat (argc s1))%nat by lia.
  apply list_lookup_insert_eq. exact Hlt.
Qed.


(** ** Two-character short options *)

Lemma matching_cons_nil (o : @ArgparserOption float) opts c :
  is_END (type o) = false ->
  matching (o :: opts) c = [] ->
  Ascii.eqb (shortName o) c = false /\ matching opts c = [].
Proof.
  unfold matching. simpl. intros -> H. simpl in H.
  destruct (Ascii.eqb (shortName o) c); [discriminate|auto].
Qed.

Lemma short_single_unmatched opts vector self arg : forall found e,
  vector !! argv self = Some (Some arg) ->
  (1 <= String.length arg)%nat ->
  terminated opts ->
  is_nul (char_at arg 1) = true \/ matching opts (char_at arg 1) = [] ->
  short_single strtof self opts vector found e = Continue (self, found, e).
Proof.
  induction opts as [|o opts IH]; intros found e Harg Hlen Hend Hno.
  - inversion Hend.
  - simpl. destruct (is_END (type o)) eqn:HE; [reflexivity|].
    assert (Hend' : terminated opts)
      by (inversion Hend; subst; [congruence|assumption]).
    assert (Hno' : is_nul (char_at arg 1) = true \/ matching opts (char_at arg 1) = []).
    { destruct Hno as [?|Hno]; [left; assumption|right].
      apply (matching_cons_nil o opts _ HE Hno). }
    destruct (is_nul (shortName o)) eqn:Hn; [apply IH; assumption|].
    rewrite Harg.
    replace (String.length arg <? 1)%nat with false
      by (symmetry; apply Nat.ltb_ge; lia).
    destruct (Ascii.eqb (shortName o) (char_at arg 1)) eqn:Heq.
    + exfalso. destruct Hno as [Hno|Hno].
      * apply Ascii.eqb_eq in Heq. rewrite <- Heq in Hno. congruence.
      * apply (matching_cons_nil o opts _ HE) in Hno. destruct Hno; congruence.
    + apply IH; assumption.
Qed.

Lemma short_single_passed_over pre opts vector self arg : forall found e,
  vector !! argv self = Some (Some arg) ->
  (1 <= String.length arg)%nat ->
  passed_over pre (char_at arg 1) ->
  short_single strtof self (pre ++ opts) vector found e =
  short_single strtof self opts vector found e.
Proof.
  induction pre as [|o pre IH]; intros found e Harg Hlen Hpre; [reflexivity|].
  inversion Hpre as [|? ? [HE Hno] Hpre']; subst. simpl. rewrite HE.
  assert (IH' := IH found e Harg Hlen Hpre').
  destruct (is_nul (shortName o)) eqn:Hn; [exact IH'|].
  rewrite Harg.
  replace (String.length arg <? 1)%nat with false
    by (symmetry; apply Nat.ltb_ge; lia).
  destruct Hno as [?|Hno]; [congruence|]. rewrite Hno. exact IH'.
Qed.

(** X5.  A two-character token whose character is the short name of no
    entry ends the process with an unknown option that names it; nothing
    is written, nothing is called, whatever follows the token. *)
Theorem unknown_short_option self opts vector arg e :
  vector !! argv self = Some (Some arg) ->
  strlen arg = 2%nat ->
  terminated opts ->
  matching opts (char_at arg 1) = [] ->
  Argparser_parseShortOption strtof self opts vector e
  = Terminate (ExitDueToUnknownOption arg) e.
Proof.
  intros Harg Hlen Hend Hno. unfold Argparser_parseShortOption.
  rewrite Harg, Hlen. simpl.
  assert (Hl : (1 <= String.length arg)%nat).
  { destruct arg; [discriminate|simpl; lia]. }
  rewrite (short_single_unmatched opts vector self arg) by auto.
  run_bind. rewrite Harg. reflexivity.
Qed.

(** X6.  A two-character option [-x] followed by an argument [v] with no
    leading dash hands [v] to the first entry named [x], whatever its
    type, and leaves the cursor on [v], so that the loop goes on after
    it. (The entries after that one are compared with the second
    character of [v]; here none has it as its name.) *)
Theorem short_option_takes_next_argument self pre o post vector x v e :
  vector !! argv self = Some (Some (String "-" (String x EmptyString))) ->
  vector !! S (argv self) = Some (Some v) ->
  1 < argc self ->
  is_nul x = false ->
  passed_over pre x ->
  is_END (type o) = false ->
  shortName o = x ->
  Ascii.eqb (char_at v 0) "-" = false ->
  (1 <= String.length v)%nat ->
  terminated post ->
  is_nul (char_at v 1) = true \/ matching post (char_at v 1) = [] ->
  Argparser_parseShortOption strtof self (pre ++ o :: post) vector e =
    e' ← Argparser_parseValue strtof o (Some v) e;
    Continue (next_argument self, e').
Proof.
  intros Harg Hv Hargc Hx Hpre HE Ho Hdash Hlen Hend Hpost.
  unfold Argparser_parseShortOption. rewrite Harg.
  assert (Hs : strlen (String "-" (String x EmptyString)) = 2%nat)
    by (simpl; rewrite Hx; reflexivity).
  rewrite Hs. cbn [Nat.eqb].
  rewrite (short_single_passed_over pre _ _ _ (String "-" (String x EmptyString)));
    [|assumption|simpl; lia|exact Hpre].
  cbn [short_single]. rewrite HE, Ho, Hx, Harg.
  cbn [String.length Nat.ltb Nat.leb].
  change (char_at (String "-" (String x EmptyString)) 1) with x.
  rewrite Ascii.eqb_refl.
  replace (1 <? argc self) with true by (symmetry; apply Z.ltb_lt; lia).
  rewrite Hv, Hdash. run_bind.
  destruct (Argparser_parseValue strtof o (Some v) e) as [e1|]; [|reflexivity].
  rewrite (short_single_unmatched post vector (next_argument self) v);
    simpl; auto.
Qed.

(** X7.  A two-character option [-x] that is the last argument, or is
    followed by an argument with a leading dash, is dispatched without a
    value to the one entry named [x]; the cursor stays on the token. *)
Theorem short_option_without_value self pre o post vector x e :
  vector !! argv self = Some (Some (String "-" (String x EmptyString))) ->
  (argc self <= 1 \/
   exists d, vector !! S (argv self) = Some (Some d) /\
             Ascii.eqb (char_at d 0) "-" = true) ->
  is_nul x = false ->
  passed_over pre x ->
  is_END (type o) = false ->
  shortName o = x ->
  terminated post ->
  matching post x = [] ->
  Argparser_parseShortOption strtof self (pre ++ o :: post) vector e =
    e' ← Argparser_parseValue strtof o None e;
    Continue (self, e').
Proof.
  intros Harg Hnext Hx Hpre HE Ho Hend Hpost.
  unfold Argparser_parseShortOption. rewrite Harg.
  assert (Hs : strlen (String "-" (String x EmptyString)) = 2%nat)
    by (simpl; rewrite Hx; reflexivity).
  rewrite Hs. cbn [Nat.eqb].
  rewrite (short_single_passed_over pre _ _ _ (String "-" (String x EmptyString)));
    [|assumption|simpl; lia|exact Hpre].
  cbn [short_single]. rewrite HE, Ho, Hx, Harg.
  cbn [String.length Nat.ltb Nat.leb].
  change (char_at (String "-" (String x EmptyString)) 1) with x.
  rewrite Ascii.eqb_refl.
  assert (Hvalueless :
    (if 1 <? argc self
     then match vector !! S (argv self) with
          | Some (Some v) =>
              Continue (if Ascii.eqb (char_at v 0) "-" then None else Some v)
          | Some None => Continue None
          | None => Terminate UndefinedBehaviour e
          end
     else Continue None) = @Continue float _ None).
  { destruct Hnext as [Hc|(d & Hd & Hdash)].
    - replace (1 <? argc self) with false by (symmetry; apply Z.ltb_ge; lia).
      reflexivity.
    - rewrite Hd, Hdash. destruct (1 <? argc self); reflexivity. }
  rewrite Hvalueless. run_bind.
  destruct (Argparser_parseValue strtof o None e) as [e1|]; [|reflexivity].
  rewrite (short_single_unmatched post vector self (String "-" (String x EmptyString)));
    simpl; auto.
Qed.

Lemma short_single_takes_value self o post vector arg v found e :
  vector !! argv self = Some (Some arg) ->
  vector !! S (argv self) = Some (Some v) ->
  (1 <= String.length arg)%nat ->
  1 < argc self ->
  is_END (type o) = false ->
  is_nul (shortName o) = false ->
  shortName o = char_at arg 1 ->
  Ascii.eqb (char_at v 0) "-" = false ->
  short_single strtof self (o :: post) vector found e =
    e' ← Argparser_parseValue strtof o (Some v) e;
    short_single strtof (next_argument self) post vector true e'.
Proof.
  intros Harg Hv Hlen Hc HE Hn Ho Hdash. cbn [short_single].
  rewrite HE, Hn, Harg.
  replace (String.length arg <? 1)%nat with false
    by (symmetry; apply Nat.ltb_ge; lia).
  rewrite Ho, Ascii.eqb_refl.
  replace (1 <? argc self) with true by (symmetry; apply Z.ltb_lt; lia).
  rewrite Hv, Hdash. reflexivity.
Qed.

Lemma short_single_takes_no_value self o post vector arg found e :
  vector !! argv self = Some (Some arg) ->
  (1 <= String.length arg)%nat ->
  (argc self <= 1 \/
   exists d, vector !! S (argv self) = Some (Some d) /\
             Ascii.eqb (char_at d 0) "-" = true) ->
  is_END (type o) = false ->
  is_nul (shortName o) = false ->
  shortName o = char_at arg 1 ->
  short_single strtof self (o :: post) vector found e =
    e' ← Argparser_parseValue strtof o None e;
    short_single strtof self post vector true e'.
Proof.
  intros Harg Hlen Hnext HE Hn Ho. cbn [short_single].
  rewrite HE, Hn, Harg.
  replace (String.length arg <? 1)%nat with false
    by (symmetry; apply Nat.ltb_ge; lia).
  rewrite Ho, Ascii.eqb_refl.
  destruct Hnext as [Hc|(d & Hd & Hdash)].
  - replace (1 <? argc self) with false by (symmetry; apply Z.ltb_ge; lia).
    reflexivity.
  - rewrite Hd, Hdash. destruct (1 <? argc self); reflexivity.
Qed.

(** X8.  Once an entry has taken the next argument [v] as its value, the
    entries after it in the table are compared with the second character
    of [v], not with the option's: an entry whose short name is that
    character is dispatched too, though no token names it. *)
Theorem value_is_matched_against_later_entries
    self pre o1 mid o2 post vector x v e :
  vector !! argv self = Some (Some (String "-" (String x EmptyString))) ->
  vector !! S (argv self) = Some (Some v) ->
  argc self = 2 ->
  is_nul x = false ->
  passed_over pre x ->
  is_END (type o1) = false ->
  shortName o1 = x ->
  Ascii.eqb (char_at v 0) "-" = false ->
  (1 <= String.length v)%nat ->
  passed_over mid (char_at v 1) ->
  is_END (type o2) = false ->
  shortName o2 = char_at v 1 ->
  is_nul (char_at v 1) = false ->
  terminated post ->
  matching post (char_at v 1) = [] ->
  Argparser_parseShortOption strtof self (pre ++ o1 :: mid ++ o2 :: post) vector e =
    e1 ← Argparser_parseValue strtof o1 (Some v) e;
    e2 ← Argparser_parseValue strtof o2 None e1;
    Continue (next_argument self, e2).
Proof.
  intros Harg Hv Hc Hx Hpre HE1 Ho1 Hdash Hlen Hmid HE2 Ho2 Hn2 Hend Hpost.
  unfold Argparser_parseShortOption. rewrite Harg.
  assert (Hs : strlen (String "-" (String x EmptyString)) = 2%nat)
    by (simpl; rewrite Hx; reflexivity).
  rewrite Hs. cbn [Nat.eqb].
  rewrite (short_single_passed_over pre _ _ _ (String "-" (String x EmptyString)));
    [|assumption|simpl; lia|exact Hpre].
  rewrite (short_single_takes_value self o1 _ vector
             (String "-" (String x EmptyString)) v);
    [|assumption|assumption|simpl; lia|lia|assumption|congruence|assumption|assumption].
  run_bind.
  destruct (Argparser_parseValue strtof o1 (Some v) e) as [e1|]; [|reflexivity].
  rewrite (short_single_passed_over mid _ _ _ v);
    [|assumption|assumption|exact Hmid].
  rewrite (short_single_takes_no_value (next_argument self) o2 _ vector v);
    [|assumption|assumption|left; simpl; lia|assumption|congruence|assumption].
  run_bind.
  destruct (Argparser_parseValue strtof o2 None e1) as [e2|]; [|reflexivity].
  rewrite (short_single_unmatched post vector (next_argument self) v);
    simpl; auto.
Qed.

Lemma parse_loop_short_option fuel self vector arg e :
  argc self <> 0 ->
  vector !! argv self = Some (Some arg) ->
  is_plain arg = false ->
  Ascii.eqb (char_at arg 1) "-" = false ->
  parse_loop strtof (S fuel) self vector e =
    '(self', e') ← Argparser_parseShortOption strtof self (options self) vector e;
    parse_loop strtof fuel (next_argument self') vector e'.
Proof.
  intros Hc Harg Hplain Hdash. cbn [parse_loop].
  replace (argc self =? 0) with false by (symmetry; apply Z.eqb_neq; lia).
  rewrite Harg. unfold is_plain in Hplain. rewrite Hplain, Hdash. reflexivity.
Qed.

(** X9.  A BOOLEAN flag [-x] with a destination, followed by an argument
    with no leading dash that is neither "0" nor "1" (a file name, say),
    ends the process with an invalid value: the argument is taken as the
    value of the flag.  Nothing is written. *)
Theorem flag_before_positional_is_rejected self first pre o post x p v rest extra e :
  valid self = true ->
  is_nul x = false ->
  Ascii.eqb x "-" = false ->
  passed_over pre x ->
  options self = pre ++ o :: post ->
  type o = ARGPARSER_TYPE_BOOLEAN ->
  shortName o = x ->
  value o = Some p ->
  Ascii.eqb (char_at v 0) "-" = false ->
  (strlen v =? 1)%nat && (Ascii.eqb (char_at v 0) "1" || Ascii.eqb (char_at v 0) "0")
    = false ->
  parse_arguments strtof self first (String "-" (String x EmptyString) :: v :: rest)
    extra e
  = Terminate (ExitDueToError x (longName o) (Message "expects no value, 0, or 1")) e.
Proof.
  intros Hvalid Hx Hxd Hpre Hopts Ht Ho Hp Hdash Hv.
  unfold parse_arguments, Argparser_parse, assert. rewrite Hvalid.
  set (arg := String "-" (String x EmptyString)).
  assert (Hs : strlen arg = 2%nat) by (unfold arg; simpl; rewrite Hx; reflexivity).
  rewrite (parse_loop_short_option _ _ _ arg).
  2:{ simpl. lia. }
  2:{ reflexivity. }
  2:{ unfold is_plain, arg. change (char_at _ 1) with x.
      rewrite Hx. reflexivity. }
  2:{ exact Hxd. }
  unfold Argparser_parseShortOption.
  change (argument_vector first (arg :: v :: rest) extra
          !! argv (skip_executable_path self (Z.of_nat (S (length (arg :: v :: rest))))))
    with (Some (Some arg)).
  lazy beta iota. rewrite Hs. cbn [Nat.eqb].
  change (options (skip_executable_path self (Z.of_nat (S (length (arg :: v :: rest))))))
    with (options self).
  rewrite Hopts.
  rewrite (short_single_passed_over pre _ _ _ arg);
    [|reflexivity|simpl; lia|exact Hpre].
  cbn [short_single]. rewrite Ht, Ho, Hx. cbn [is_END].
  change (argument_vector first (arg :: v :: rest) extra
          !! argv (skip_executable_path self (Z.of_nat (S (length (arg :: v :: rest))))))
    with (Some (Some arg)).
  lazy beta iota. change (String.length arg <? 1)%nat with false.
  change (char_at arg 1) with x. rewrite Ascii.eqb_refl.
  lazy beta iota.
  replace (1 <? argc (skip_executable_path self (Z.of_nat (S (length (arg :: v :: rest))))))
    with true by (symmetry; apply Z.ltb_lt; simpl; lia).
  change (argument_vector first (arg :: v :: rest) extra
          !! S (argv (skip_executable_path self (Z.of_nat (S (length (arg :: v :: rest)))))))
    with (Some (Some v)).
  lazy beta iota. rewrite Hdash.
  assert (Hvalue : Argparser_parseValue strtof o (Some v) e =
    Terminate (ExitDueToError x (longName o) (Message "expects no value, 0, or 1")) e).
  { unfold Argparser_parseValue. rewrite Hp, Ht.
    apply andb_false_iff in Hv.
    destruct (strlen v =? 1)%nat; simpl.
    - destruct Hv as [?|Hv]; [discriminate|]. apply orb_false_iff in Hv.
      destruct Hv as [-> ->]. unfold Argparser_exitDueToError. rewrite Ho.
      reflexivity.
    - unfold Argparser_exitDueToError. rewrite Ho. reflexivity. }
  run_bind. rewrite Hvalue. reflexivity.
Qed.

(** ** Long options that match nothing *)

Lemma nat_of_ascii_nul c : is_nul c = false -> nat_of_ascii c <> 0%nat.
Proof.
  unfold is_nul, NUL. intros H Hz.
  assert (c = Ascii.zero).
  { rewrite <- (ascii_nat_embedding c), Hz. reflexivity. }
  subst. discriminate.
Qed.

(** For a name with no terminator inside, [strncmp] over the length of
    the name tells whether the name is a prefix. *)
Lemma strncmp_is_prefix : forall name s,
  c_string name ->
  (strncmp s name (strlen name) =? 0) = String.prefix name s.
Proof.
  unfold c_string.
  induction name as [|c name IH]; intros s Hc.
  - destruct s; reflexivity.
  - simpl in Hc. destruct (is_nul c) eqn:Hn; [discriminate|].
    simpl strlen. rewrite Hn. cbn [strncmp].
    change (char_at (String c name) 0) with c.
    destruct s as [|a s].
    + change (char_at EmptyString 0) with NUL.
      assert (Hf : Ascii.eqb NUL c = false).
      { apply Ascii.eqb_neq. intros <-. discriminate. }
      rewrite Hf.
      simpl String.prefix. apply Z.eqb_neq.
      pose proof (nat_of_ascii_nul c Hn).
      change (nat_of_ascii NUL) with 0%nat. lia.
    + change (char_at (String a s) 0) with a. simpl String.prefix.
      destruct (ascii_dec c a) as [<-|Hne].
      * rewrite Ascii.eqb_refl, Hn. simpl advance. apply IH. lia.
      * replace (Ascii.eqb a c) with false
          by (symmetry; apply Ascii.eqb_neq; congruence).
        apply Z.eqb_neq. intros Hz.
        apply Hne. rewrite <- (ascii_nat_embedding c), <- (ascii_nat_embedding a).
        f_equal. lia.
Qed.

Lemma long_scan_no_match arg : forall opts found e,
  terminated opts ->
  Forall (no_long_match (advance 2 arg)) (entries opts) ->
  long_scan strtof opts arg found e = Continue (found, e).
Proof.
  induction opts as [|o opts IH]; intros found e Hend Hno.
  - inversion Hend.
  - cbn [long_scan]. cbn [entries] in Hno.
    destruct (is_END (type o)) eqn:HE; [reflexivity|].
    assert (Hend' : terminated opts)
      by (inversion Hend; subst; [congruence|assumption]).
    inversion Hno as [|? ? Ho Hno']; subst.
    specialize (IH found e Hend' Hno').
    destruct (longName o) as [name|] eqn:Hl; [|exact IH].
    destruct (Ho name Hl) as [Hc Hcase].
    destruct (strlen name <? 1)%nat eqn:Hlen; [exact IH|].
    rewrite strncmp_is_prefix by exact Hc.
    destruct Hcase as [->|[Hp|[Hb Heq]]].
    + discriminate.
    + rewrite Hp. exact IH.
    + destruct (String.prefix name (advance 2 arg)); [|exact IH].
      assert (Hadv : advance (2 + strlen name) arg
                     = advance (String.length name) (advance 2 arg)).
      { rewrite Hc. clear. generalize (String.length name) as n. intros n.
        destruct arg as [|a [|b t]]; simpl.
        - destruct n; reflexivity.
        - destruct n; reflexivity.
        - reflexivity. }
      rewrite Hadv, Heq, Hb. exact IH.
Qed.

(** X10.  A token [--text] ends the process with an unknown option that
    names it, nothing written and nothing called, when every entry is no
    match for it.  In particular an option that takes a value is unknown
    when the token gives its name without [=]: the next argument is
    never looked at. *)
Theorem unknown_long_option self opts vector arg e :
  vector !! argv self = Some (Some arg) ->
  terminated opts ->
  Forall (no_long_match (advance 2 arg)) (entries opts) ->
  Argparser_parseLongOption strtof self opts vector e
  = Terminate (ExitDueToUnknownOption arg) e.
Proof.
  intros Harg Hend Hno. unfold Argparser_parseLongOption. rewrite Harg.
  rewrite long_scan_no_match by assumption. reflexivity.
Qed.

(** ** Values and compound tokens *)

Lemma short_compound_scan_passed_over pre c opts : forall found e,
  is_nul c = false ->
  passed_over pre c ->
  short_compound_scan strtof (pre ++ opts) c found e =
  short_compound_scan strtof opts c found e.
Proof.
  induction pre as [|o pre IH]; intros found e Hc Hpre; [reflexivity|].
  inversion Hpre as [|? ? [HE Hno] Hpre']; subst.
  cbn [app short_compound_scan]. rewrite HE.
  assert (Hne : Ascii.eqb (shortName o) c = false).
  { destruct Hno as [Hn|Hn]; [|exact Hn].
    unfold is_nul in Hn. apply Ascii.eqb_eq in Hn. rewrite Hn.
    unfold is_nul in Hc. rewrite Ascii.eqb_sym. exact Hc. }
  rewrite Hne. apply IH; assumption.
Qed.

(** X22.  A value cannot be attached to a short option.  In a token of
    three characters or more, [-n5] say, the option named by the first
    character is dispatched without a value, so a first entry of that
    name that is INTEGER, FLOAT or STRING and has a destination ends the
    process with "requires a value": nothing is written, and the rest of
    the token is not looked at. *)
Theorem short_option_cannot_attach_value self pre o post vector arg p e :
  vector !! argv self = Some (Some arg) ->
  (strlen arg =? 2)%nat = false ->
  is_nul (char_at arg 1) = false ->
  passed_over pre (char_at arg 1) ->
  is_END (type o) = false ->
  shortName o = char_at arg 1 ->
  value o = Some p ->
  type o = ARGPARSER_TYPE_INTEGER \/ type o = ARGPARSER_TYPE_FLOAT \/
    type o = ARGPARSER_TYPE_STRING ->
  Argparser_parseShortOption strtof self (pre ++ o :: post) vector e
  = Terminate (ExitDueToError (char_at arg 1) (longName o)
                 (Message "requires a value")) e.
Proof.
  intros Harg Hlen Hc Hpre HE Ho Hp Ht.
  unfold Argparser_parseShortOption. rewrite Harg, Hlen.
  assert (Hadv : exists rest, advance 1 arg = String (char_at arg 1) rest).
  { destruct arg as [|a [|b rest]]; try discriminate Hc. exists rest. reflexivity. }
  destruct Hadv as [rest Hadv]. rewrite Hadv. cbn [short_compound]. rewrite Hc.
  rewrite (short_compound_scan_passed_over pre _ _ _ _ Hc Hpre).
  cbn [short_compound_scan]. rewrite HE, Ho, Ascii.eqb_refl.
  assert (Hv : Argparser_parseValue strtof o None e
               = Terminate (ExitDueToError (char_at arg 1) (longName o)
                              (Message "requires a value")) e).
  { unfold Argparser_parseValue, Argparser_exitDueToError. rewrite Hp, Ho.
    destruct Ht as [Ht|[Ht|Ht]]; rewrite Ht; reflexivity. }
  rewrite Hv. reflexivity.
Qed.

(** ** A count that is not positive *)

Lemma short_single_argc opts vector : forall self found e self' found' e',
  argc self <= 1 ->
  short_single strtof self opts vector found e = Continue (self', found', e') ->
  argc self' = argc self.
Proof.
  induction opts as [|o opts IH]; intros self found e self' found' e' Hc;
    cbn [short_single].
  - discriminate.
  - destruct (is_END (type o)).
    { intros H. injection H as <- _ _. reflexivity. }
    destruct (is_nul (shortName o)); [apply IH; exact Hc|].
    destruct (vector !! argv self) as [[a|]|]; try discriminate.
    destruct (String.length a <? 1)%nat; [discriminate|].
    destruct (Ascii.eqb (shortName o) (char_at a 1)); [|apply IH; exact Hc].
    replace (1 <? argc self) with false by (symmetry; apply Z.ltb_ge; lia).
    run_bind.
    destruct (Argparser_parseValue strtof o None e); [|discriminate].
    apply IH. exact Hc.
Qed.

Lemma Argparser_parseShortOption_argc self opts vector e self' e' :
  argc self <= 1 ->
  Argparser_parseShortOption strtof self opts vector e = Continue (self', e') ->
  argc self' = argc self.
Proof.
  intros Hc. unfold Argparser_parseShortOption.
  destruct (vector !! argv self) as [[arg|]|]; try discriminate.
  destruct (strlen arg =? 2)%nat.
  - destruct (short_single strtof self opts vector false e)
      as [[[s1 f] e1]|] eqn:H1; [|discriminate].
    run_bind. apply short_single_argc in H1; [|exact Hc].
    destruct f.
    + intros H. injection H as <- _. exact H1.
    + destruct (vector !! argv s1) as [[?|]|]; discriminate.
  - destruct (short_compound strtof opts arg (advance 1 arg) false e)
      as [[f e1]|]; [|discriminate].
    run_bind. destruct f.
    + intros H. injection H as <- _. reflexivity.
    + destruct (vector !! argv self) as [[?|]|]; discriminate.
Qed.

Lemma parse_loop_negative : forall fuel self vector e self' vector' e',
  argc self < 0 ->
  parse_loop strtof fuel self vector e = Continue (self', vector', e') ->
  argc self' < 0.
Proof.
  induction fuel as [|fuel IH]; intros self vector e self' vector' e' Hc;
    cbn [parse_loop]; [discriminate|].
  replace (argc self =? 0) with false by (symmetry; apply Z.eqb_neq; lia).
  destruct (vector !! argv self) as [[arg|]|]; try discriminate.
  destruct (negb (Ascii.eqb (char_at arg 0) "-") || is_nul (char_at arg 1)).
  { destruct (stopAtNonOption self).
    - intros H. injection H as <- _ _. exact Hc.
    - destruct (_ <? _)%nat; [|discriminate].
      apply IH. cbn. lia. }
  destruct (negb (Ascii.eqb (char_at arg 1) "-")).
  { destruct (Argparser_parseShortOption strtof self (options self) vector e)
      as [[s1 e1]|] eqn:Hs; [|discriminate].
    apply Argparser_parseShortOption_argc in Hs; [|lia].
    run_bind. apply IH. cbn. lia. }
  destruct (negb (is_nul (char_at arg 2))).
  { destruct (Argparser_parseLongOption strtof self (options self) vector e)
      as [e1|]; [|discriminate].
    run_bind. apply IH. cbn. lia. }
  intros H. injection H as <- _ _. cbn. lia.
Qed.

(** X23.  [Argparser_parse] needs a count of one at least.  With a count
    that is zero or negative the call never returns, whatever the handle
    and the array: the count of arguments left starts below zero and
    only goes down, so the loop ends in an exit or in an access outside
    the array, or else the compaction is asked to move a negative number
    of entries. *)
Theorem nonpositive_count_never_returns self count vector e :
  count <= 0 ->
  exists t e', Argparser_parse strtof self count vector e = Terminate t e'.
Proof.
  intros Hc. unfold Argparser_parse, assert.
  destruct (valid self); [|eexists _, _; reflexivity].
  destruct (parse_loop strtof (S (length vector)) (skip_executable_path self count)
              vector e) as [[[s1 v1] e1]|t e1] eqn:Hloop.
  2:{ eexists _, _. reflexivity. }
  apply parse_loop_negative in Hloop; [|cbn; lia].
  run_bind. unfold memmove.
  replace (argc s1 <? 0) with true by (symmetry; apply Z.ltb_lt; lia).
  eexists _, _. reflexivity.
Qed.

(** ** Options after positional arguments *)

Lemma scan_leading_plain opts rest : forall ps e,
  Forall (fun t => is_plain t = true) ps ->
  scan strtof false opts 0 (ps ++ rest) e =
    '(positionals, unread, e') ← scan strtof false opts 0 rest e;
    Continue (ps ++ positionals, unread, e').
Proof.
  induction ps as [|p ps IH]; intros e Hp.
  - cbn [app]. destruct (scan strtof false opts 0 rest e) as [[[qs u] e1]|];
      reflexivity.
  - inversion Hp as [|? ? Hplain Hps]; subst.
    cbn [app scan]. rewrite Hplain, (IH e Hps).
    destruct (scan strtof false opts 0 rest e) as [[[qs u] e1]|]; reflexivity.
Qed.

(** X25.  Without [stopAtNonOption], positional arguments do not end the
    reading of options.  On a freshly initialised parser, arguments that
    come after plain arguments [ps] are parsed as they would be without
    them, with the same destinations and callbacks or the same end of
    the process; when the parser returns, the residual is [ps] followed
    by the residual of the other arguments, and a null pointer follows
    it. *)
Theorem options_after_positionals self first ps rest extra extra' e :
  valid self = true ->
  cpidx self = 0%nat ->
  stopAtNonOption self = false ->
  Forall (fun t => is_plain t = true) ps ->
  match parse_arguments strtof self first rest extra' e with
  | Continue (n, _, vector1, e1) =>
      exists self' vector',
        parse_arguments strtof self first (ps ++ rest) extra e
          = Continue (Z.of_nat (length ps) + n, self', vector', e1) /\
        take (length ps) vector' = Some <$> ps /\
        take (Z.to_nat n) (drop (length ps) vector') = take (Z.to_nat n) vector1 /\
        vector' !! (length ps + Z.to_nat n)%nat = Some None
  | Terminate t e1 =>
      parse_arguments strtof self first (ps ++ rest) extra e = Terminate t e1
  end.
Proof.
  intros Hv Hc Hstop Hp.
  rewrite !(parse_arguments_scan strtof) by assumption. rewrite Hstop.
  rewrite (scan_leading_plain _ _ _ _ Hp).
  destruct (scan strtof false (options self) 0 rest e) as [[[qs u] e1]|];
    [|reflexivity].
  run_bind. eexists _, _. split.
  { f_equal. apply pair_equal_spec; split; [|reflexivity].
    apply pair_equal_spec; split; [|reflexivity].
    apply pair_equal_spec; split; [|reflexivity].
    rewrite !length_app. lia. }
  rewrite Nat2Z.id.
  set (tl := drop (S (length ((ps ++ qs) ++ u))) (argument_vector first (ps ++ rest) extra)).
  set (tl1 := drop (S (length (qs ++ u))) (argument_vector first rest extra')).
  rewrite <- (app_assoc ps qs u), fmap_app, <- app_assoc.
  split; [|split].
  - apply take_app_length'. rewrite length_fmap. reflexivity.
  - rewrite drop_app_length' by (rewrite length_fmap; reflexivity).
    rewrite !take_app_length' by (rewrite length_fmap; reflexivity).
    reflexivity.
  - rewrite lookup_app_r by (rewrite length_fmap; lia).
    rewrite length_fmap.
    replace (length ps + length (qs ++ u) - length ps)%nat
      with (length (qs ++ u)) by lia.
    rewrite lookup_app_r by (rewrite length_fmap; lia).
    rewrite length_fmap, Nat.sub_diag. reflexivity.
Qed.

End Parser.

(** * The parser on whole command lines *)

Section CommandLines.
Context {float : Type} (strtof : string -> float * string * Z).

Implicit Types (self : @Argparser float) (e : @Env float)
  (opts : list (@ArgparserOption float)) (vector : list (option string)).

Ltac run_bind := unfold mbind, outcome_bind; simpl.

(** ** Where the reading stops *)


(** Unless it meets [--], the reading of [pre] leaves something unread
    only when it stops at a plain token. *)
Lemma scan_unread stop opts : forall pre skip e ps unread e1,
  Forall (fun t => is_terminator t = false) pre ->
  scan strtof stop opts skip pre e = Continue (ps, unread, e1) ->
  unread = [] \/
  (stop = true /\ ps = [] /\
   exists p rest, unread = p :: rest /\ is_plain p = true).
Proof.
  induction pre as [|arg rest IH]; intros skip e ps unread e1 Ht H.
  - injection H as <- <- <-. left. reflexivity.
  - inversion Ht as [|? ? Harg Hrest]; subst.
    cbn [scan] in H. destruct skip as [|skip]; [|eauto].
    unfold is_terminator in Harg.
    destruct (is_plain arg) eqn:Hplain.
    { destruct stop.
      - injection H as <- <- <-. right. eauto 10.
      - revert H. run_bind.
        destruct (scan strtof false opts 0 rest e) as [[[ps1 u1] e2]|] eqn:H1;
          [|discriminate].
        simpl. intros H. injection H as <- <- <-.
        destruct (IH _ _ _ _ _ Hrest H1) as [Hu|(Hs & _)]; [left; exact Hu|discriminate]. }
    cbn [negb andb] in Harg.
    destruct (Ascii.eqb (char_at arg 1) "-") eqn:H1; cbn [negb] in H.
    2:{ destruct (short_option_tokens strtof opts arg rest e) as [[k e2]|];
          [|discriminate].
        revert H. run_bind. eauto. }
    cbn [andb] in Harg. rewrite Harg in H. cbn [negb] in H.
    destruct (long_option_tokens strtof opts arg e) as [e2|]; [|discriminate].
    revert H. run_bind. eauto.
Qed.

(** A token with a leading dash after [pre]: when the reading of [pre]
    comes to its end, it goes on with that token; when it stops inside
    [pre], the token is left unread with what follows it. *)
Lemma scan_before_dash stop opts d more : forall pre skip e,
  Forall (fun t => is_terminator t = false) pre ->
  Ascii.eqb (char_at d 0) "-" = true ->
  (skip <= length pre)%nat ->
  scan strtof stop opts skip (pre ++ d :: more) e =
    '(ps, unread, e1) ← scan strtof stop opts skip pre e;
    match unread with
    | [] =>
        '(ps', unread', e2) ← scan strtof stop opts 0 (d :: more) e1;
        Continue (ps ++ ps', unread', e2)
    | _ :: _ => Continue (ps, unread ++ d :: more, e1)
    end.
Proof.
  remember (d :: more) as suffix eqn:Hsuffix.
  induction pre as [|arg rest IH]; intros skip e Ht Hd Hk.
  - simpl in Hk. assert (skip = 0%nat) as -> by lia.
    cbn [app]. change (scan strtof stop opts 0 [] e) with (@Continue float _ (@nil string, @nil string, e)).
    unfold mbind at 1, outcome_bind at 1. cbv beta iota.
    destruct (scan strtof stop opts 0 suffix e) as [[[ps' u'] e2]|];
      reflexivity.
  - pose proof (Forall_inv Ht) as Harg. pose proof (Forall_inv_tail Ht) as Hrest.
    cbv beta in Harg.
    cbn [app scan]. destruct skip as [|skip].
    2:{ apply IH; try assumption. simpl in Hk. lia. }
    unfold is_terminator in Harg.
    destruct (is_plain arg) eqn:Hplain.
    { destruct stop; [reflexivity|].
      rewrite IH by (try assumption; lia).
      destruct (scan strtof false opts 0 rest e) as [[[ps u] e1]|] eqn:Hscan;
        [|reflexivity].
      destruct (scan_unread _ _ _ _ _ _ _ _ Hrest Hscan) as [->|(Hs & _)];
        [|discriminate].
      unfold mbind, outcome_bind. cbv beta iota.
      destruct (scan strtof false opts 0 suffix e1) as [[[ps' u'] e2]|];
        reflexivity. }
    cbn [negb andb] in Harg.
    destruct (Ascii.eqb (char_at arg 1) "-") eqn:H1; cbn [negb].
    2:{ rewrite Hsuffix, (short_option_tokens_dash strtof _ _ _ _ _ _ Hd), <- Hsuffix.
        destruct (short_option_tokens strtof opts arg rest e) as [[k e1]|] eqn:Hshort;
          [|reflexivity].
        destruct (short_option_tokens_count strtof _ _ _ _ _ _ Hshort) as [Hk' _].
        run_bind. apply IH; assumption. }
    cbn [andb] in Harg. rewrite Harg. cbn [negb].
    destruct (long_option_tokens strtof opts arg e) as [e1|]; [|reflexivity].
    run_bind. apply IH; try assumption. lia.
Qed.


(** C4 (amended).  On a freshly initialised parser, take the tokens
    [pre] before the first [--] and what the parser does with them
    alone.  If that ends the process, the whole input ends it the same
    way.  If it returns the residual [residual], the whole input returns
    too, with the same destinations and callbacks, so no token after
    [--] is parsed or raises an unknown option.  Unless
    [stopAtNonOption] is set and [residual] is not empty, the loop
    reaches [--]: the residual of the whole input is [residual] followed
    by every token after [--] as it is, without [--] itself.  With
    [stopAtNonOption] set and a residual that is not empty, a plain
    token has ended the parsing before [--]: the residual of the whole
    input starts with that token and holds [--] and the tokens after
    it.  In both cases a null pointer follows the residual. *)
Theorem terminator_ends_option_parsing self first pre post extra extra' e :
  valid self = true ->
  cpidx self = 0%nat ->
  Forall (fun t => is_terminator t = false) pre ->
  match parse_arguments strtof self first pre extra' e with
  | Continue (m, _, before, e1) =>
      exists residual self' vector',
        m = Z.of_nat (length residual) /\
        take (length residual) before = (Some <$> residual) /\
        (stopAtNonOption self && negb (m =? 0) = true ->
         exists p rest, residual = p :: rest /\ is_plain p = true) /\
        (let after :=
           if stopAtNonOption self && negb (m =? 0)
           then residual ++ "--"%string :: post
           else residual ++ post in
         parse_arguments strtof self first (pre ++ "--"%string :: post) extra e
           = Continue (Z.of_nat (length after), self', vector', e1) /\
         take (length after) vector' = (Some <$> after) /\
         vector' !! length after = Some None)
  | Terminate t e1 =>
      parse_arguments strtof self first (pre ++ "--"%string :: post) extra e
        = Terminate t e1
  end.
Proof.
  intros Hv Hc Ht.
  rewrite !(parse_arguments_scan strtof) by assumption.
  rewrite scan_before_dash; [|assumption|reflexivity|lia].
  destruct (scan strtof (stopAtNonOption self) (options self) 0 pre e)
    as [[[ps unread] e1]|] eqn:Hscan; [|reflexivity].
  unfold mbind, outcome_bind. cbv beta iota.
  destruct (scan_unread _ _ _ _ _ _ _ _ Ht Hscan)
    as [->|(Hstop & -> & p & rest & -> & Hp)].
  - change (scan strtof (stopAtNonOption self) (options self) 0
              ("--"%string :: post) e1)
      with (@Continue float _ (@nil string, post, e1)).
    cbv beta iota.
    rewrite !app_nil_r.
    assert (Hb : stopAtNonOption self && negb (Z.of_nat (length ps) =? 0) = false).
    { destruct (stopAtNonOption self) eqn:Hstop; [|reflexivity].
      rewrite (scan_stop_no_positionals strtof _ _ _ _ _ _ _ Hscan).
      reflexivity. }
    exists ps. eexists _, _. split; [reflexivity|].
    split; [apply residual_prefix|].
    rewrite Hb. split; [discriminate|]. cbv zeta.
    split; [reflexivity|]. apply residual_prefix.
  - cbv beta iota. cbn [app].
    assert (Hb : stopAtNonOption self
                 && negb (Z.of_nat (length (p :: rest)) =? 0) = true).
    { rewrite Hstop. reflexivity. }
    exists (p :: rest). eexists _, _. split; [reflexivity|].
    split; [apply (residual_prefix (p :: rest))|].
    rewrite Hb. split; [intros _; eauto|]. cbv zeta.
    split; [reflexivity|]. apply (residual_prefix ((p :: rest) ++ _)).
Qed.


(** ** What follows an argument that is left unread *)






(** ** Compound tokens on the command line *)

Lemma single_tokens_unmatched opts cur following : forall found e,
  (1 <= String.length cur)%nat ->
  terminated opts ->
  is_nul (char_at cur 1) = true \/ matching opts (char_at cur 1) = [] ->
  single_tokens strtof opts cur following found e = Continue (0%nat, found, e).
Proof.
  induction opts as [|o opts IH]; intros found e Hlen Hend Hno.
  - inversion Hend.
  - cbn [single_tokens]. destruct (is_END (type o)) eqn:HE; [reflexivity|].
    assert (Hend' : terminated opts) by (eapply terminated_tail; eassumption).
    assert (Hno' : is_nul (char_at cur 1) = true \/ matching opts (char_at cur 1) = []).
    { destruct Hno as [?|Hno]; [left; assumption|right].
      apply (matching_cons_nil o opts _ HE Hno). }
    destruct (is_nul (shortName o)) eqn:Hn; [apply IH; assumption|].
    replace (String.length cur <? 1)%nat with false
      by (symmetry; apply Nat.ltb_ge; lia).
    destruct (Ascii.eqb (shortName o) (char_at cur 1)) eqn:Heq.
    + exfalso. destruct Hno as [Hno|Hno].
      * apply Ascii.eqb_eq in Heq. rewrite <- Heq in Hno. congruence.
      * apply (matching_cons_nil o opts _ HE) in Hno. destruct Hno; congruence.
    + apply IH; assumption.
Qed.







(** ** The residual as a partition of the arguments *)

Lemma matching_cons_not_nil (o : @ArgparserOption float) opts c :
  is_END (type o) = false ->
  matching opts c <> [] -> matching (o :: opts) c <> [].
Proof.
  unfold matching. cbn [entries]. intros -> H. cbn [List.filter].
  destruct (Ascii.eqb (shortName o) c); [discriminate|exact H].
Qed.

(** Only an entry named by the second character of the token takes a
    value. *)
Lemma single_tokens_value opts : forall cur following found e k f e',
  single_tokens strtof opts cur following found e = Continue (k, f, e') ->
  k <> 0%nat ->
  matching opts (char_at cur 1) <> [].
Proof.
  induction opts as [|o opts IH]; intros cur following found e k f e' H Hk.
  - discriminate.
  - cbn [single_tokens] in H. destruct (is_END (type o)) eqn:HE.
    { injection H as <- _ _. congruence. }
    destruct (is_nul (shortName o)).
    { apply matching_cons_not_nil; [exact HE|]. eapply IH; eassumption. }
    destruct (String.length cur <? 1)%nat; [discriminate|].
    destruct (Ascii.eqb (shortName o) (char_at cur 1)) eqn:Heq.
    + unfold matching. cbn [entries]. rewrite HE. cbn [List.filter].
      rewrite Heq. discriminate.
    + apply matching_cons_not_nil; [exact HE|]. eapply IH; eassumption.
Qed.

Lemma short_option_tokens_value opts arg following e k e' :
  short_option_tokens strtof opts arg following e = Continue (k, e') ->
  k <> 0%nat ->
  strlen arg = 2%nat /\ matching opts (char_at arg 1) <> [].
Proof.
  unfold short_option_tokens. destruct (strlen arg =? 2)%nat eqn:Hl.
  - destruct (single_tokens strtof opts arg following false e)
      as [[[k1 f] e1]|] eqn:H; [|discriminate].
    unfold mbind, outcome_bind. destruct f; [|discriminate].
    intros H1 Hk. injection H1 as <- <-.
    split; [apply Nat.eqb_eq; exact Hl|].
    eapply single_tokens_value; eassumption.
  - destruct (short_compound strtof opts arg (advance 1 arg) false e)
      as [[f e1]|]; [|discriminate].
    unfold mbind, outcome_bind. destruct f; [|discriminate].
    intros H1 Hk. injection H1 as <- _. congruence.
Qed.

(** What [scan] returns is a reading of the arguments it has read, and
    it leaves arguments unread only at a plain token, when it is set to
    stop there, or after [--]. *)
Lemma scan_reading stop opts : forall toks skip e ps unread e',
  (skip <= length toks)%nat ->
  scan strtof stop opts skip toks e = Continue (ps, unread, e') ->
  exists read,
    toks = take skip toks ++ read ++ unread /\
    reading opts read ps /\
    (unread = [] \/
     (stop = true /\ exists p rest, unread = p :: rest /\ is_plain p = true) \/
     (exists read' t, read = read' ++ [t] /\ is_terminator t = true)).
Proof.
  induction toks as [|arg rest IH]; intros skip e ps unread e' Hk H.
  - injection H as <- <- <-. exists []. rewrite take_nil.
    split; [reflexivity|]. split; [constructor|left; reflexivity].
  - cbn [scan] in H. destruct skip as [|skip].
    2:{ destruct (IH skip e ps unread e' ltac:(simpl in Hk; lia) H)
          as (read & Hread & Hr & Hu).
        exists read. split; [|split; assumption].
        cbn [take app]. f_equal. exact Hread. }
    cbn [take app].
    destruct (is_plain arg) eqn:Hplain.
    { destruct stop.
      - injection H as <- <- <-. exists [].
        split; [reflexivity|]. split; [constructor|].
        right. left. eauto.
      - revert H. unfold mbind, outcome_bind.
        destruct (scan strtof false opts 0 rest e) as [[[ps1 u1] e1]|] eqn:H1;
          [|discriminate].
        intros H. injection H as <- <- <-.
        destruct (IH 0%nat e ps1 u1 e1 ltac:(lia) H1) as (read & Hread & Hr & Hu).
        cbn [take app] in Hread.
        exists (arg :: read). split; [cbn [app]; f_equal; exact Hread|].
        split; [constructor; assumption|].
        destruct Hu as [Hu|[(Hs & _)|(read' & t & -> & Ht)]];
          [left; exact Hu|discriminate|].
        right. right. exists (arg :: read'), t. split; [reflexivity|exact Ht]. }
    destruct (negb (Ascii.eqb (char_at arg 1) "-")) eqn:Hshort.
    { revert H. unfold mbind, outcome_bind.
      destruct (short_option_tokens strtof opts arg rest e) as [[k e1]|] eqn:Hs;
        [|discriminate].
      intros H.
      destruct (short_option_tokens_count strtof _ _ _ _ _ _ Hs) as [Hk' Hvalues].
      destruct (IH k e1 ps unread e' Hk' H) as (read & Hread & Hr & Hu).
      exists (arg :: take k rest ++ read).
      split; [cbn [app]; f_equal; rewrite <- app_assoc; exact Hread|].
      split.
      { apply reading_option; [exact Hplain|exact Hvalues| |exact Hr].
        intros Hne. apply (short_option_tokens_value _ _ _ _ _ _ Hs).
        intros ->. apply Hne. apply take_0. }
      destruct Hu as [Hu|[Hu|(read' & t & -> & Ht)]];
        [left; exact Hu|right; left; exact Hu|].
      right. right. exists (arg :: take k rest ++ read'), t.
      split; [cbn [app]; rewrite <- app_assoc; reflexivity|exact Ht]. }
    destruct (negb (is_nul (char_at arg 2))) eqn:Hlong.
    { revert H. unfold mbind, outcome_bind.
      destruct (long_option_tokens strtof opts arg e) as [e1|]; [|discriminate].
      intros H.
      destruct (IH 0%nat e1 ps unread e' ltac:(lia) H) as (read & Hread & Hr & Hu).
      cbn [take app] in Hread.
      exists (arg :: read). split; [cbn [app]; f_equal; exact Hread|].
      split.
      { apply (reading_option opts arg [] read ps Hplain);
          [constructor|congruence|exact Hr]. }
      destruct Hu as [Hu|[Hu|(read' & t & -> & Ht)]];
        [left; exact Hu|right; left; exact Hu|].
      right. right. exists (arg :: read'), t. split; [reflexivity|exact Ht]. }
    injection H as <- <- <-.
    assert (Harg : is_terminator arg = true).
    { unfold is_terminator. rewrite Hplain.
      apply negb_false_iff in Hshort, Hlong. rewrite Hshort, Hlong. reflexivity. }
    exists [arg].
    split; [reflexivity|]. split.
    { apply (reading_option opts arg [] [] []);
        [exact Hplain|constructor|congruence|constructor]. }
    right. right. exists [], arg. split; [reflexivity|exact Harg].
Qed.

(** X3.  On a fresh handle the residual is a stable partition of the
    arguments.  When the parser returns, the arguments split into those
    read and those left unread.  Among the read ones every plain
    argument is a positional, kept in its place, unless it was taken as
    a value: a value has no leading dash and comes right after a
    two-character option token that an entry of the table names, or
    after another value of that token.  Arguments are left unread only
    from a plain argument on, when the parser is set to stop there, or
    after [--]; a parser set to stop has no positionals.  The residual
    is the positionals followed by the unread arguments, and a null
    pointer follows it. *)
Lemma fresh_parse_partition self first toks extra e n self' vector' e' :
  valid self = true ->
  cpidx self = 0%nat ->
  parse_arguments strtof self first toks extra e
    = Continue (n, self', vector', e') ->
  exists read unread ps,
    toks = read ++ unread /\
    reading (options self) read ps /\
    (unread = [] \/
     (stopAtNonOption self = true /\
      exists p rest, unread = p :: rest /\ is_plain p = true) \/
     (exists read' t, read = read' ++ [t] /\ is_terminator t = true)) /\
    (stopAtNonOption self = true -> ps = []) /\
    n = Z.of_nat (length (ps ++ unread)) /\
    take (length (ps ++ unread)) vector' = (Some <$> ps ++ unread) /\
    vector' !! length (ps ++ unread) = Some None.
Proof.
  intros Hv Hc. rewrite (parse_arguments_scan strtof) by assumption.
  destruct (scan strtof (stopAtNonOption self) (options self) 0 toks e)
    as [[[ps unread] e1]|] eqn:Hscan; [|discriminate].
  unfold mbind, outcome_bind. intros H. injection H as <- _ <- _.
  destruct (scan_reading _ _ _ _ _ _ _ _ (Nat.le_0_l _) Hscan)
    as (read & Hread & Hr & Hu).
  exists read, unread, ps. split; [exact Hread|]. split; [exact Hr|].
  split; [exact Hu|].
  split.
  { intros Hstop. rewrite Hstop in Hscan.
    exact (scan_stop_no_positionals strtof _ _ _ _ _ _ _ Hscan). }
  split; [reflexivity|]. apply residual_prefix.
Qed.

End CommandLines.

(** * One option among the entries of a table *)

Section OneOption.
Context {float : Type} (strtof : string -> float * string * Z).

Implicit Types (self : @Argparser float) (e : @Env float)
  (opts : list (@ArgparserOption float)) (vector : list (option string)).

Lemma terminated_app opts1 opts2 : terminated opts2 -> terminated (opts1 ++ opts2).
Proof. unfold terminated. intros H. apply Exists_app. right. exact H. Qed.

Lemma entries_app opts1 opts2 :
  Forall (fun o => is_END (type o) = false) opts1 ->
  entries (opts1 ++ opts2) = opts1 ++ entries opts2.
Proof.
  induction opts1 as [|o opts1 IH]; intros H; [reflexivity|].
  cbn [app entries]. rewrite (Forall_inv H), (IH (Forall_inv_tail H)).
  reflexivity.
Qed.

Lemma filter_none {A : Type} (f : A -> bool) (l : list A) :
  Forall (fun x => f x = false) l -> List.filter f l = [].
Proof.
  induction l as [|x l IH]; intros H; [reflexivity|].
  cbn [List.filter]. rewrite (Forall_inv H). exact (IH (Forall_inv_tail H)).
Qed.

(** The one entry with the short name [c]. *)
Lemma matching_one pre (o : @ArgparserOption float) post c :
  Forall (fun o' => is_END (type o') = false /\
                    Ascii.eqb (shortName o') c = false) pre ->
  is_END (type o) = false ->
  shortName o = c ->
  Forall (fun o' => Ascii.eqb (shortName o') c = false) (entries post) ->
  matching (pre ++ o :: post) c = [o].
Proof.
  intros Hpre HE Ho Hpost. unfold matching.
  rewrite entries_app by (eapply Forall_impl; [exact Hpre|]; cbv beta; tauto).
  cbn [entries]. rewrite HE. rewrite List.filter_app. cbn [List.filter].
  rewrite Ho, Ascii.eqb_refl.
  rewrite (filter_none _ pre) by (eapply Forall_impl; [exact Hpre|]; cbv beta; tauto).
  rewrite (filter_none _ (entries post)) by exact Hpost. reflexivity.
Qed.

Lemma single_tokens_passed_over pre opts cur following : forall found e,
  (1 <= String.length cur)%nat ->
  passed_over pre (char_at cur 1) ->
  single_tokens strtof (pre ++ opts) cur following found e =
  single_tokens strtof opts cur following found e.
Proof.
  induction pre as [|o pre IH]; intros found e Hlen Hpre; [reflexivity|].
  destruct (Forall_inv Hpre) as [HE Hno].
  pose proof (IH found e Hlen (Forall_inv_tail Hpre)) as IH'.
  cbn [app single_tokens]. rewrite HE.
  destruct (is_nul (shortName o)) eqn:Hn; [exact IH'|].
  replace (String.length cur <? 1)%nat with false
    by (symmetry; apply Nat.ltb_ge; lia).
  destruct Hno as [?|Hno]; [congruence|]. rewrite Hno. exact IH'.
Qed.

Lemma long_scan_passed_over pre opts arg : forall found e,
  Forall (fun o => is_END (type o) = false /\
                   no_long_match (advance 2 arg) o) pre ->
  long_scan strtof (pre ++ opts) arg found e = long_scan strtof opts arg found e.
Proof.
  induction pre as [|o pre IH]; intros found e Hpre; [reflexivity|].
  destruct (Forall_inv Hpre) as [HE Ho].
  pose proof (IH found e (Forall_inv_tail Hpre)) as IH'.
  cbn [app long_scan]. rewrite HE.
  destruct (longName o) as [name|] eqn:Hl; [|exact IH'].
  destruct (Ho name Hl) as [Hc Hcase].
  destruct (strlen name <? 1)%nat eqn:Hlen; [exact IH'|].
  rewrite (strncmp_is_prefix name (advance 2 arg) Hc).
  destruct Hcase as [->|[Hp|[Hb Heq]]].
  - discriminate.
  - rewrite Hp. exact IH'.
  - destruct (String.prefix name (advance 2 arg)); [|exact IH'].
    assert (Hadv : advance (2 + strlen name) arg
                   = advance (String.length name) (advance 2 arg)).
    { rewrite Hc. clear. generalize (String.length name) as n. intros n.
      destruct arg as [|a [|b t]]; simpl.
      - destruct n; reflexivity.
      - destruct n; reflexivity.
      - reflexivity. }
    rewrite Hadv, Heq, Hb. exact IH'.
Qed.

(** Two prefixes of one string: one is a prefix of the other. *)
Lemma prefix_comparable : forall s l name,
  String.prefix l s = true -> String.prefix name s = true ->
  String.prefix l name = true \/ String.prefix name l = true.
Proof.
  induction s as [|r s IH]; intros l name Hl Hn.
  - destruct l; [|discriminate]. left. destruct name; reflexivity.
  - destruct l as [|a l]; [left; destruct name; reflexivity|].
    destruct name as [|b name]; [right; reflexivity|].
    cbn [String.prefix] in Hl, Hn |- *.
    destruct (ascii_dec a r) as [->|]; [|discriminate].
    destruct (ascii_dec b r) as [->|]; [|discriminate].
    destruct (ascii_dec r r) as [_|Hne]; [|congruence].
    apply IH; assumption.
Qed.

Lemma prefix_append name suffix : String.prefix name (name +:+ suffix) = true.
Proof.
  induction name as [|c name IH]; [destruct suffix; reflexivity|].
  change (String c name +:+ suffix) with (String c (name +:+ suffix)).
  cbn [String.prefix]. destruct (ascii_dec c c); [exact IH|congruence].
Qed.

Lemma other_names_no_long_match c name rest (o : @ArgparserOption float) :
  other_names c name o ->
  String.prefix name rest = true ->
  no_long_match rest o.
Proof.
  intros [_ Ho] Hrest l Hl. destruct (Ho l Hl) as (Hc & H1 & H2).
  split; [exact Hc|]. right. left.
  destruct (String.prefix l rest) eqn:Hp; [|reflexivity].
  destruct (prefix_comparable rest l name Hp Hrest); congruence.
Qed.


(** What the converter does for a flag built by ARGPARSER_OPT_BOOL with
    a destination. *)
Lemma flag_value c l p text v e :
  Argparser_parseValue strtof (ARGPARSER_OPT_BOOL c l (Some p) text) v e =
    let written b :=
      {| memory := <[p := BoolCell b]> (memory e); called := called e |} in
    match v with
    | None => Continue (written true)
    | Some v =>
        if (strlen v =? 1)%nat && Ascii.eqb (char_at v 0) "1"
        then Continue (written true)
        else if (strlen v =? 1)%nat && Ascii.eqb (char_at v 0) "0"
        then Continue (written false)
        else Terminate (ExitDueToError c l (Message "expects no value, 0, or 1")) e
    end.
Proof.
  unfold Argparser_parseValue, call_callback, Argparser_exitDueToError, store.
  cbn [value type callback shortName longName ARGPARSER_OPT_BOOL].
  destruct v as [v|]; [|reflexivity].
  destruct ((strlen v =? 1)%nat && Ascii.eqb (char_at v 0) "1"); [reflexivity|].
  destruct ((strlen v =? 1)%nat && Ascii.eqb (char_at v 0) "0"); reflexivity.
Qed.

(** C1 (amended).  On a freshly initialised parser whose table has a
    BOOLEAN option [-c]/[--color] with a destination [p], at any place
    among entries that share no name with it: the tokens [-c],
    [--color], [--color=1], and [-c] followed by [1], leave [p] true;
    [-c] followed by [0], and [--color=0], leave [p] false; in each case
    the parser returns with no residual and nothing else written or
    called.  [--color=v] with [v] neither [0] nor [1], as in
    [--color=maybe], ends the process with an invalid value, reason
    "expects no value, 0, or 1", nothing written.  The token [-c=1] is
    no way to give a value: it is read as the flags [c], [=] and [1], so
    [p] is set to true and then, no entry being named [=], the process
    ends with an unknown option. *)
Theorem boolean_option_values self first pre post p text extra e :
  valid self = true ->
  cpidx self = 0%nat ->
  options self
    = pre ++ ARGPARSER_OPT_BOOL "c" (Some "color"%string) (Some p) text :: post ->
  Forall (fun o => is_END (type o) = false /\ other_names "c" "color" o) pre ->
  Forall (other_names "c" "color") (entries post) ->
  terminated post ->
  let run toks := parse_arguments strtof self first toks extra e in
  let written b :=
    {| memory := <[p := BoolCell b]> (memory e); called := called e |} in
  let returns toks b :=
    exists self' vector', run toks = Continue (0, self', vector', written b) in
  returns ["-c"%string] true /\
  returns ["--color"%string] true /\
  returns ["--color=1"%string] true /\
  returns ["-c"%string; "1"%string] true /\
  returns ["-c"%string; "0"%string] false /\
  returns ["--color=0"%string] false /\
  (forall v,
     (strlen v =? 1)%nat
       && (Ascii.eqb (char_at v 0) "1" || Ascii.eqb (char_at v 0) "0") = false ->
     run [("--color=" +:+ v)%string]
     = Terminate (ExitDueToError "c" (Some "color"%string)
                    (Message "expects no value, 0, or 1")) e) /\
  (matching (options self) "=" = [] ->
   run ["-c=1"%string]
   = Terminate (ExitDueToUnknownOption "-c=1") (written true)).
Proof.
  intros Hv Hc Hopts Hpre Hpost Hend run written returns.
  set (o := ARGPARSER_OPT_BOOL "c" (Some "color"%string) (Some p) text) in *.
  assert (Hpass : passed_over pre "c").
  { eapply Forall_impl; [exact Hpre|]. cbv beta. intros o' [HE [Hs _]].
    split; [exact HE|right; exact Hs]. }
  assert (Hposts : matching post "c" = []).
  { unfold matching. apply filter_none.
    eapply Forall_impl; [exact Hpost|]. cbv beta. intros o' [Hs _]. exact Hs. }
  assert (Hshort : forall following,
    single_tokens strtof (options self) "-c" following false e =
      match following with
      | v :: following' =>
          if Ascii.eqb (char_at v 0) "-" then
            e' ← Argparser_parseValue strtof o None e;
            single_tokens strtof post "-c" following true e'
          else
            e' ← Argparser_parseValue strtof o (Some v) e;
            '(k, found, e'') ← single_tokens strtof post v following' true e';
            Continue (S k, found, e'')
      | [] =>
          e' ← Argparser_parseValue strtof o None e;
          single_tokens strtof post "-c" following true e'
      end).
  { intros following. rewrite Hopts.
    rewrite single_tokens_passed_over; [|simpl; lia|exact Hpass].
    reflexivity. }
  assert (Hlongpre : forall rest, String.prefix "color" rest = true ->
    Forall (fun o' => is_END (type o') = false /\ no_long_match rest o') pre).
  { intros rest Hrest. eapply Forall_impl; [exact Hpre|]. cbv beta.
    intros o' [HE Ho']. split; [exact HE|].
    eapply other_names_no_long_match; eassumption. }
  assert (Hlongpost : forall rest, String.prefix "color" rest = true ->
    Forall (no_long_match rest) (entries post)).
  { intros rest Hrest. eapply Forall_impl; [exact Hpost|]. cbv beta.
    intros o' Ho'. eapply other_names_no_long_match; eassumption. }
  assert (Hlong : forall suffix,
    long_option_tokens strtof (options self) ("--color" +:+ suffix) e =
      if Ascii.eqb (char_at suffix 0) "=" then
        e' ← Argparser_parseValue strtof o (Some (advance 1 suffix)) e;
        Continue e'
      else
        e' ← Argparser_parseValue strtof o None e; Continue e').
  { intros suffix. unfold long_option_tokens. rewrite Hopts.
    rewrite long_scan_passed_over
      by (apply Hlongpre; apply (prefix_append "color" suffix)).
    cbn [long_scan]. change (is_END (type o)) with false.
    change (longName o) with (Some "color"%string). cbv iota zeta.
    change (strlen "color" <? 1)%nat with false.
    change (strlen "color") with 5%nat.
    change (strncmp (advance 2 ("--color" +:+ suffix)) "color" 5 =? 0) with true.
    change (advance (2 + 5) ("--color" +:+ suffix)) with suffix.
    change (is_BOOLEAN (type o)) with true. cbv iota.
    destruct (Ascii.eqb (char_at suffix 0) "=").
    - destruct (Argparser_parseValue strtof o (Some (advance 1 suffix)) e) as [e'|];
        [|reflexivity].
      unfold mbind, outcome_bind.
      rewrite (long_scan_no_match strtof)
        by (try assumption; apply Hlongpost; apply (prefix_append "color" suffix)).
      reflexivity.
    - destruct (Argparser_parseValue strtof o None e) as [e'|]; [|reflexivity].
      unfold mbind, outcome_bind.
      rewrite (long_scan_no_match strtof)
        by (try assumption; apply Hlongpost; apply (prefix_append "color" suffix)).
      reflexivity. }
  assert (Hscan_short : forall following,
    scan strtof (stopAtNonOption self) (options self) 0 ("-c"%string :: following) e =
      '(k, e') ← short_option_tokens strtof (options self) "-c" following e;
      scan strtof (stopAtNonOption self) (options self) k following e')
    by reflexivity.
  assert (Hscan_long : forall suffix,
    scan strtof (stopAtNonOption self) (options self) 0
      [("--color" +:+ suffix)%string] e =
      e' ← long_option_tokens strtof (options self) ("--color" +:+ suffix) e;
      Continue ([], [], e')).
  { intros suffix. cbn [scan].
    change (is_plain ("--color" +:+ suffix)) with false.
    change (Ascii.eqb (char_at ("--color" +:+ suffix) 1) "-") with true.
    change (is_nul (char_at ("--color" +:+ suffix) 2)) with false.
    cbn [negb].
    destruct (long_option_tokens strtof (options self) ("--color" +:+ suffix) e);
      reflexivity. }
  pose proof (fun v => flag_value "c" (Some "color"%string) p text v e) as Hflag.
  fold o in Hflag. cbv zeta in Hflag.
  unfold returns, run.
  rewrite !(parse_arguments_scan strtof) by assumption.
  repeat split.
  - rewrite Hscan_short. unfold short_option_tokens.
    change (strlen "-c" =? 2)%nat with true. cbv iota.
    rewrite Hshort. cbv iota. rewrite Hflag. unfold mbind, outcome_bind. cbv beta iota.
    rewrite single_tokens_unmatched; [|simpl; lia|exact Hend|right; exact Hposts].
    cbv beta iota. eexists _, _. reflexivity.
  - change ["--color"%string] with [("--color" +:+ "")%string].
    rewrite (Hscan_long ""%string), (Hlong ""%string).
    change (Ascii.eqb (char_at "" 0) "=") with false. cbv iota.
    rewrite Hflag. eexists _, _. reflexivity.
  - change ["--color=1"%string] with [("--color" +:+ "=1")%string].
    rewrite (Hscan_long "=1"%string), (Hlong "=1"%string).
    change (Ascii.eqb (char_at "=1" 0) "=") with true. cbv iota.
    rewrite Hflag. eexists _, _. reflexivity.
  - rewrite Hscan_short. unfold short_option_tokens.
    change (strlen "-c" =? 2)%nat with true. cbv iota.
    rewrite Hshort. change (Ascii.eqb (char_at "1" 0) "-") with false. cbv iota.
    rewrite Hflag. unfold mbind, outcome_bind.
    change ((strlen "1" =? 1)%nat && Ascii.eqb (char_at "1" 0) "1") with true.
    cbv beta iota.
    rewrite single_tokens_unmatched; [|simpl; lia|exact Hend|left; reflexivity].
    cbv beta iota. eexists _, _. reflexivity.
  - rewrite Hscan_short. unfold short_option_tokens.
    change (strlen "-c" =? 2)%nat with true. cbv iota.
    rewrite Hshort. change (Ascii.eqb (char_at "0" 0) "-") with false. cbv iota.
    rewrite Hflag. unfold mbind, outcome_bind.
    change ((strlen "0" =? 1)%nat && Ascii.eqb (char_at "0" 0) "1") with false.
    change ((strlen "0" =? 1)%nat && Ascii.eqb (char_at "0" 0) "0") with true.
    cbv beta iota.
    rewrite single_tokens_unmatched; [|simpl; lia|exact Hend|left; reflexivity].
    cbv beta iota. eexists _, _. reflexivity.
  - change ["--color=0"%string] with [("--color" +:+ "=0")%string].
    rewrite (Hscan_long "=0"%string), (Hlong "=0"%string).
    change (Ascii.eqb (char_at "=0" 0) "=") with true. cbv iota.
    rewrite Hflag. eexists _, _. reflexivity.
  - intros v Hval. rewrite (parse_arguments_scan strtof) by assumption.
    change ("--color=" +:+ v)%string with ("--color" +:+ String "=" v)%string.
    rewrite (Hscan_long (String "=" v)), (Hlong (String "=" v)).
    change (Ascii.eqb (char_at (String "=" v) 0) "=") with true. cbv iota.
    change (advance 1 (String "=" v)) with v.
    rewrite Hflag.
    apply andb_false_iff in Hval.
    destruct (strlen v =? 1)%nat; cbn [andb].
    + destruct Hval as [?|Hval]; [discriminate|]. apply orb_false_iff in Hval.
      destruct Hval as [-> ->]. reflexivity.
    + reflexivity.
  - intros Hequals. cbn [scan].
    change (is_plain "-c=1") with false.
    change (Ascii.eqb (char_at "-c=1" 1) "-") with false. cbn [negb].
    unfold short_option_tokens.
    change (strlen "-c=1" =? 2)%nat with false. cbv iota.
    change (advance 1 "-c=1") with "c=1"%string.
    assert (Hterm : terminated (options self))
      by (rewrite Hopts; apply terminated_app; right; exact Hend).
    assert (Hone : matching (options self) "c" = [o]).
    { rewrite Hopts. apply matching_one; [|reflexivity|reflexivity|].
      - eapply Forall_impl; [exact Hpre|]. cbv beta. intros o' [HE [Hs _]]. auto.
      - eapply Forall_impl; [exact Hpost|]. cbv beta. intros o' [Hs _]. exact Hs. }
    cbn [short_compound]. change (is_nul "c") with false.
    change (is_nul "=") with false. cbv iota.
    rewrite (short_compound_scan_matching strtof), Hone by exact Hterm.
    cbn [flag_entries]. rewrite Hflag.
    unfold mbind, outcome_bind. cbv beta iota.
    rewrite (short_compound_scan_matching strtof), Hequals by exact Hterm.
    reflexivity.
Qed.

End OneOption.

(** * Integer values *)

Lemma digits_numeral_end base tail acc any :
  ends_numeral base tail = true -> digits base tail acc any = (acc, any, tail).
Proof.
  unfold ends_numeral. destruct tail as [|c tail]; [reflexivity|].
  change (char_at (String c tail) 0) with c. intros H.
  apply negb_true_iff in H. cbn [digits].
  destruct (digit_in base c) as [d|]; [|reflexivity].
  exfalso. rewrite bool_decide_eq_false in H. apply H. eauto.
Qed.

Lemma digits_number base tail : forall ds acc any,
  numeral base ds = true ->
  ends_numeral base tail = true ->
  digits base (ds +:+ tail) acc any =
    (number_from base acc ds,
     match ds with EmptyString => any | _ => true end, tail).
Proof.
  unfold numeral.
  induction ds as [|c ds IH]; intros acc any Hd Ht.
  - apply digits_numeral_end. exact Ht.
  - cbn [chars] in Hd. apply andb_true_iff in Hd. destruct Hd as [Hc Hd].
    change (String c ds +:+ tail) with (String c (ds +:+ tail)).
    cbn [digits number_from].
    apply bool_decide_eq_true in Hc. destruct Hc as [d Hc]. rewrite Hc.
    rewrite (IH _ true Hd Ht). destruct ds; reflexivity.
Qed.

Lemma digit_in_nonneg base c d : digit_in base c = Some d -> 0 <= d.
Proof.
  unfold digit_in. destruct (digit_value c) as [d'|] eqn:Hv; [|discriminate].
  destruct (d' <? base); [|discriminate]. intros H. injection H as <-.
  unfold digit_value in Hv.
  remember (Z.of_nat (nat_of_ascii c)) as n eqn:Hn. clear Hn.
  destruct ((48 <=? n) && (n <=? 57)) eqn:H1.
  { injection Hv as <-. apply andb_true_iff in H1. destruct H1 as [H1 _].
    apply Z.leb_le in H1. lia. }
  destruct ((97 <=? n) && (n <=? 122)) eqn:H2.
  { injection Hv as <-. apply andb_true_iff in H2. destruct H2 as [H2 _].
    apply Z.leb_le in H2. lia. }
  destruct ((65 <=? n) && (n <=? 90)) eqn:H3; [|discriminate].
  injection Hv as <-. apply andb_true_iff in H3. destruct H3 as [H3 _].
  apply Z.leb_le in H3. lia.
Qed.

Lemma number_from_nonneg base : forall ds acc,
  0 <= base -> 0 <= acc -> 0 <= number_from base acc ds.
Proof.
  induction ds as [|c ds IH]; intros acc Hb Ha; [exact Ha|].
  cbn [number_from]. apply IH; [exact Hb|].
  destruct (digit_in base c) as [d|] eqn:Hd; simpl.
  - pose proof (digit_in_nonneg _ _ _ Hd). nia.
  - nia.
Qed.

(** A digit is no blank and no sign. *)
Lemma digit_plain base c :
  bool_decide (is_Some (digit_in base c)) = true ->
  isspace c = false /\ Ascii.eqb c "-" = false /\ Ascii.eqb c "+" = false.
Proof.
  intros H. apply bool_decide_eq_true in H. destruct H as [d H].
  unfold digit_in in H. destruct (digit_value c) as [d'|] eqn:Hv; [|discriminate].
  clear H. revert Hv.
  destruct c as [[] [] [] [] [] [] [] []]; intros Hv; vm_compute in Hv;
    try discriminate Hv; repeat split; reflexivity.
Qed.

Lemma sign_of_unsigned (c : ascii) (t : string) :
  Ascii.eqb c "-" = false -> Ascii.eqb c "+" = false ->
  match String c t with
  | String "-" t' => (true, t')
  | String "+" t' => (false, t')
  | _ => (false, String c t)
  end = (false, String c t).
Proof.
  destruct c as [[] [] [] [] [] [] [] []]; intros H1 H2;
    try reflexivity; discriminate.
Qed.

Lemma no_hex_prefix (c : ascii) (t : string) :
  Ascii.eqb c "0" = false ->
  match String c t with
  | String "0" (String x (String h _)) =>
      (Ascii.eqb x "x" || Ascii.eqb x "X") && bool_decide (is_Some (digit_in 16 h))
  | _ => false
  end = false.
Proof.
  destruct c as [[] [] [] [] [] [] [] []]; intros H; try reflexivity; discriminate.
Qed.

Lemma char_at_0_eqb c t x : Ascii.eqb (char_at (String c t) 0) x = Ascii.eqb c x.
Proof. reflexivity. Qed.

(** [strtol] with base 0 on a decimal numeral, on an octal one and on a
    hexadecimal one. *)
Lemma strtol_decimal ds tail :
  numeral 10 ds = true ->
  ds <> EmptyString ->
  Ascii.eqb (char_at ds 0) "0" = false ->
  ends_numeral 10 tail = true ->
  strtol (ds +:+ tail) 0 =
    if LONG_MAX <? number 10 ds then (LONG_MAX, tail, ERANGE)
    else (number 10 ds, tail, 0).
Proof.
  intros Hd Hne H0 Ht.
  pose proof (number_from_nonneg 10 ds 0 ltac:(lia) ltac:(lia)) as Hpos.
  fold (number 10 ds) in Hpos.
  pose proof (digits_number 10 tail ds 0 false Hd Ht) as Hdig.
  destruct ds as [|c ds]; [congruence|].
  change (char_at (String c ds) 0) with c in H0.
  assert (Hc : bool_decide (is_Some (digit_in 10 c)) = true).
  { unfold numeral in Hd. cbn [chars] in Hd. apply andb_true_iff in Hd. tauto. }
  destruct (digit_plain 10 c Hc) as (Hsp & Hm & Hp).
  change (String c ds +:+ tail) with (String c (ds +:+ tail)) in Hdig |- *.
  unfold strtol. cbn [skip_spaces]. rewrite Hsp.
  rewrite (sign_of_unsigned c _ Hm Hp).
  rewrite (no_hex_prefix c _ H0).
  change (0 =? 0) with true. change (0 =? 16) with false. cbn [andb].
  cbv iota. rewrite char_at_0_eqb, H0. rewrite Hdig. fold (number 10 (String c ds)).
  destruct (LONG_MAX <? number 10 (String c ds)); [reflexivity|].
  replace (number 10 (String c ds) <? LONG_MIN) with false
    by (symmetry; apply Z.ltb_ge; unfold LONG_MIN; lia).
  reflexivity.
Qed.

Lemma strtol_octal ds tail :
  numeral 8 ds = true ->
  ends_numeral 8 tail = true ->
  Ascii.eqb (char_at (ds +:+ tail) 0) "x"
    || Ascii.eqb (char_at (ds +:+ tail) 0) "X" = false ->
  strtol ("0" +:+ ds +:+ tail) 0 =
    if LONG_MAX <? number 8 ds then (LONG_MAX, tail, ERANGE)
    else (number 8 ds, tail, 0).
Proof.
  intros Hd Ht Hx.
  pose proof (number_from_nonneg 8 ds 0 ltac:(lia) ltac:(lia)) as Hpos.
  fold (number 8 ds) in Hpos.
  pose proof (digits_number 8 tail ds 0 true Hd Ht) as Hdig.
  change ("0" +:+ ds +:+ tail) with (String "0" (ds +:+ tail)).
  unfold strtol. cbn [skip_spaces]. change (isspace "0") with false. cbv iota.
  assert (Hhex :
    match String "0" (ds +:+ tail) with
    | String "0" (String x (String h _)) =>
        (Ascii.eqb x "x" || Ascii.eqb x "X") && bool_decide (is_Some (digit_in 16 h))
    | _ => false
    end = false).
  { destruct (ds +:+ tail) as [|a [|h r]]; try reflexivity.
    change (char_at (String a (String h r)) 0) with a in Hx.
    cbv iota. rewrite Hx. reflexivity. }
  rewrite Hhex.
  change (0 =? 0) with true. change (0 =? 16) with false. cbn [andb].
  cbv iota. change (Ascii.eqb (char_at (String "0" (ds +:+ tail)) 0) "0") with true.
  cbv iota. cbn [digits]. change (digit_in 8 "0") with (Some 0).
  cbv iota. change (0 * 8 + 0) with 0. rewrite Hdig.
  assert (Hany : match ds with EmptyString => true | _ => true end = true)
    by (destruct ds; reflexivity).
  rewrite Hany. fold (number 8 ds).
  destruct (LONG_MAX <? number 8 ds); [reflexivity|].
  replace (number 8 ds <? LONG_MIN) with false
    by (symmetry; apply Z.ltb_ge; unfold LONG_MIN; lia).
  reflexivity.
Qed.

Lemma strtol_hexadecimal x ds tail :
  Ascii.eqb x "x" || Ascii.eqb x "X" = true ->
  numeral 16 ds = true ->
  ds <> EmptyString ->
  ends_numeral 16 tail = true ->
  strtol ("0" +:+ String x ds +:+ tail) 0 =
    if LONG_MAX <? number 16 ds then (LONG_MAX, tail, ERANGE)
    else (number 16 ds, tail, 0).
Proof.
  intros Hx Hd Hne Ht.
  pose proof (number_from_nonneg 16 ds 0 ltac:(lia) ltac:(lia)) as Hpos.
  fold (number 16 ds) in Hpos.
  pose proof (digits_number 16 tail ds 0 false Hd Ht) as Hdig.
  destruct ds as [|c ds]; [congruence|].
  assert (Hc : bool_decide (is_Some (digit_in 16 c)) = true).
  { unfold numeral in Hd. cbn [chars] in Hd. apply andb_true_iff in Hd. tauto. }
  change ("0" +:+ String x (String c ds) +:+ tail)
    with (String "0" (String x (String c (ds +:+ tail)))).
  change (String c ds +:+ tail) with (String c (ds +:+ tail)) in Hdig.
  unfold strtol. cbn [skip_spaces]. change (isspace "0") with false. cbv iota.
  rewrite Hx, Hc.
  change (0 =? 0) with true. cbn [andb]. cbv iota.
  change (advance 2 (String "0" (String x (String c (ds +:+ tail)))))
    with (String c (ds +:+ tail)).
  rewrite Hdig. fold (number 16 (String c ds)).
  destruct (LONG_MAX <? number 16 (String c ds)); [reflexivity|].
  replace (number 16 (String c ds) <? LONG_MIN) with false
    by (symmetry; apply Z.ltb_ge; unfold LONG_MIN; lia).
  reflexivity.
Qed.

Lemma int_of_long_small n : - 2 ^ 31 <= n < 2 ^ 31 -> int_of_long n = n.
Proof.
  intros H. unfold int_of_long.
  rewrite Z.mod_small by lia. lia.
Qed.

Section IntegerValues.
Context {float : Type} (strtof : string -> float * string * Z).

(** The INTEGER case of the converter on a text whose conversion by
    [strtol] is known. *)
Lemma integer_value (opt : @ArgparserOption float) p text v tail e :
  type opt = ARGPARSER_TYPE_INTEGER ->
  value opt = Some p ->
  is_nul (char_at text 0) = false ->
  0 <= v ->
  strtol text 0 =
    (if LONG_MAX <? v then (LONG_MAX, tail, ERANGE) else (v, tail, 0)) ->
  Argparser_parseValue strtof opt (Some text) e =
    let written n :=
      {| memory := <[p := IntCell (int_of_long n)]> (memory e);
         called := called e |} in
    if LONG_MAX <? v
    then Terminate (ExitDueToError (shortName opt) (longName opt)
                      (Strerror ERANGE)) (written LONG_MAX)
    else if is_nul (char_at tail 0) then call_callback opt (written v)
    else Terminate (ExitDueToError (shortName opt) (longName opt)
                      (Message "expects an integer value")) (written v).
Proof.
  intros Ht Hp Hc Hv Hs. unfold Argparser_parseValue. rewrite Hp, Ht.
  assert (Hlen : (0 <? strlen text)%nat = true).
  { destruct text as [|c text]; [discriminate Hc|].
    change (char_at (String c text) 0) with c in Hc.
    cbn [strlen]. rewrite Hc. reflexivity. }
  rewrite Hlen, Hs. unfold Argparser_exitDueToError, store. cbv zeta.
  destruct (LONG_MAX <? v); [reflexivity|].
  change (negb (0 =? 0)) with false. cbv iota.
  destruct (is_nul (char_at tail 0)); reflexivity.
Qed.

Lemma numeral_head base c ds :
  numeral base (String c ds) = true -> is_nul c = false.
Proof.
  intros H. unfold numeral in H. cbn [chars] in H.
  apply andb_true_iff in H. destruct H as [H _].
  destruct (digit_plain base c H) as (Hs & _).
  destruct (is_nul c) eqn:Hn; [|reflexivity].
  unfold is_nul in Hn. apply Ascii.eqb_eq in Hn. subst c.
  apply bool_decide_eq_true in H. destruct H as [d H]. discriminate H.
Qed.

(** C7.  For an INTEGER option with a destination [p].  Absent or
    empty text ends the process with "requires a value", nothing
    written.  A numeral is converted whatever its base: decimal digits
    that do not start with 0, a leading 0 followed by octal digits, and
    [0x] or [0X] followed by hexadecimal digits each write their number
    to [p] (as the [int] the [long] converts to).  If the numeral is the
    whole text the converter goes on to the callback, and succeeds when
    there is none; if any character follows it, the process ends with
    "expects an integer value", the number already written; a number
    beyond the range of [long] ends the process with the error of
    [strtol].  So "12abc" ends the process with 12 written, and "12"
    writes 12. *)
Theorem integer_conversion (s : ascii) (l h : option string) (p : nat)
    (cb : option (@Argparser_callback float)) e :
  let opt :=
    {| type := ARGPARSER_TYPE_INTEGER; shortName := s; longName := l;
       value := Some p; help := h; callback := cb |} in
  let written n :=
    {| memory := <[p := IntCell (int_of_long n)]> (memory e);
       called := called e |} in
  let invalid reason e' : outcome Env :=
    Terminate (ExitDueToError s l reason) e' in
  let converts text base ds tail :=
    Argparser_parseValue strtof opt (Some text) e =
      if LONG_MAX <? number base ds
      then invalid (Strerror ERANGE) (written LONG_MAX)
      else if is_nul (char_at tail 0)
      then call_callback opt (written (number base ds))
      else invalid (Message "expects an integer value") (written (number base ds)) in
  Argparser_parseValue strtof opt None e
    = invalid (Message "requires a value") e /\
  (forall text, strlen text = 0%nat ->
     Argparser_parseValue strtof opt (Some text) e
     = invalid (Message "requires a value") e) /\
  (forall ds tail,
     numeral 10 ds = true -> ds <> EmptyString ->
     Ascii.eqb (char_at ds 0) "0" = false ->
     ends_numeral 10 tail = true ->
     converts (ds +:+ tail) 10 ds tail) /\
  (forall ds tail,
     numeral 8 ds = true ->
     ends_numeral 8 tail = true ->
     Ascii.eqb (char_at (ds +:+ tail) 0) "x"
       || Ascii.eqb (char_at (ds +:+ tail) 0) "X" = false ->
     converts ("0" +:+ ds +:+ tail) 8 ds tail) /\
  (forall x ds tail,
     Ascii.eqb x "x" || Ascii.eqb x "X" = true ->
     numeral 16 ds = true -> ds <> EmptyString ->
     ends_numeral 16 tail = true ->
     converts ("0" +:+ String x ds +:+ tail) 16 ds tail) /\
  (forall n, - 2 ^ 31 <= n < 2 ^ 31 -> int_of_long n = n) /\
  (cb = None -> forall e', call_callback opt e' = Continue e') /\
  Argparser_parseValue strtof opt (Some "12abc"%string) e
    = invalid (Message "expects an integer value")
        {| memory := <[p := IntCell 12]> (memory e); called := called e |} /\
  Argparser_parseValue strtof opt (Some "12"%string) e
    = call_callback opt
        {| memory := <[p := IntCell 12]> (memory e); called := called e |} /\
  (cb = None ->
   Argparser_parseValue strtof opt (Some "12"%string) e
   = Continue {| memory := <[p := IntCell 12]> (memory e); called := called e |}).
Proof.
  intros opt written invalid converts.
  split; [reflexivity|].
  split.
  { intros text Hlen. unfold Argparser_parseValue. cbn [value type opt].
    rewrite Hlen. reflexivity. }
  split.
  { intros ds tail Hd Hne H0 Ht. unfold converts.
    rewrite (integer_value opt p (ds +:+ tail) (number 10 ds) tail e);
      [reflexivity|reflexivity|reflexivity| | |].
    - destruct ds as [|c ds]; [congruence|].
      change (char_at (String c ds +:+ tail) 0) with c.
      eapply numeral_head; exact Hd.
    - apply number_from_nonneg; lia.
    - apply strtol_decimal; assumption. }
  split.
  { intros ds tail Hd Ht Hx. unfold converts.
    rewrite (integer_value opt p ("0" +:+ ds +:+ tail) (number 8 ds) tail e);
      [reflexivity|reflexivity|reflexivity|reflexivity| |].
    - apply number_from_nonneg; lia.
    - apply strtol_octal; assumption. }
  split.
  { intros x ds tail Hx Hd Hne Ht. unfold converts.
    rewrite (integer_value opt p ("0" +:+ String x ds +:+ tail) (number 16 ds) tail e);
      [reflexivity|reflexivity|reflexivity|reflexivity| |].
    - apply number_from_nonneg; lia.
    - apply strtol_hexadecimal; assumption. }
  split; [exact int_of_long_small|].
  split; [intros -> e'; reflexivity|].
  split; [reflexivity|]. split; [reflexivity|].
  intros ->. reflexivity.
Qed.

End IntegerValues.

(** * Properties of strings *)

Lemma length_append (s1 s2 : string) :
  String.length (s1 +:+ s2) = (String.length s1 + String.length s2)%nat.
Proof. induction s1 as [|c s1 IH]; simpl; [reflexivity|]. rewrite IH. reflexivity. Qed.

Lemma append_assoc (s1 s2 s3 : string) :
  (s1 +:+ s2) +:+ s3 = s1 +:+ (s2 +:+ s3).
Proof.
  induction s1 as [|c s1 IH]; [reflexivity|].
  change (String c ((s1 +:+ s2) +:+ s3) = String c (s1 +:+ (s2 +:+ s3))).
  rewrite IH. reflexivity.
Qed.

(** * Properties of the usage text *)

Section UsageProperties.
Context {float : Type}.
Implicit Types (o : @ArgparserOption float) (opts : list (@ArgparserOption float)).

Lemma length_c_str (s : string) : String.length (c_str s) = strlen s.
Proof.
  induction s as [|c s IH]; simpl; [reflexivity|].
  destruct (is_nul c); simpl; [reflexivity|]. rewrite IH. reflexivity.
Qed.

Lemma length_spaces n : String.length (spaces n) = n.
Proof. induction n; simpl; congruence. Qed.

Lemma size_t_small z : 0 <= z < 2 ^ 64 -> size_t z = z.
Proof. intros H. unfold size_t. apply Z.mod_small. exact H. Qed.

Lemma int_of_size_t_small z : 0 <= z < 2 ^ 31 -> int_of_size_t z = z.
Proof.
  intros H. unfold int_of_size_t. rewrite Z.mod_small by lia. lia.
Qed.

Lemma length_value_hint t :
  strlen (value_hint t) = String.length (value_hint t) /\
  (String.length (value_hint t) <= 9)%nat.
Proof. destruct t; simpl; split; (reflexivity || lia). Qed.

(** The width of the names, from the parts. *)
Lemma length_option_names o :
  Z.of_nat (String.length (option_names o)) =
    (if negb (is_nul (shortName o)) then 2 else 0) +
    (if negb (is_nul (shortName o)) && bool_decide (is_Some (longName o))
     then 2 else 0) +
    match longName o with
    | Some name => Z.of_nat (strlen name) + 2
    | None => 0
    end +
    Z.of_nat (String.length (value_hint (type o))).
Proof.
  unfold option_names, short_part, separator_part, long_part.
  rewrite !length_append.
  destruct (is_nul (shortName o)), (longName o) as [name|]; simpl;
    rewrite ?length_append, ?length_c_str; simpl; lia.
Qed.

Lemma option_names_bound o :
  bounded_name o -> Z.of_nat (String.length (option_names o)) < 2 ^ 31 - 16.
Proof.
  intros Hb. rewrite length_option_names.
  pose proof (length_value_hint (type o)) as [_ Hh].
  destruct (negb (is_nul (shortName o))); simpl;
    destruct (longName o) as [name|] eqn:Hl; simpl;
    try specialize (Hb name Hl); lia.
Qed.

(** The rounding of the first loop. *)
Lemma option_width_rounds o :
  bounded_name o ->
  let n := Z.of_nat (String.length (option_names o)) in
  option_width o = 4 * ((n + 3) / 4).
Proof.
  intros Hb n. pose proof (option_names_bound o Hb) as Hn. fold n in Hn.
  assert (H0 : 0 <= n) by (unfold n; lia).
  unfold n in *. clear n. rewrite length_option_names in *.
  pose proof (length_value_hint (type o)) as [Hs Hh].
  unfold option_width. rewrite Hs.
  set (h := Z.of_nat (String.length (value_hint (type o)))) in *.
  assert (Hh' : 0 <= h <= 9) by (unfold h; lia).
  assert (H64 : 2 ^ 31 < 2 ^ 64) by (apply Z.pow_lt_mono_r; lia).
  assert (Hland : forall x, 0 <= x -> Z.land x 3 = x mod 4).
  { intros x _. change 3 with (Z.ones 2). rewrite Z.land_ones by lia. reflexivity. }
  assert (Hfin : forall len, 0 <= len < 2 ^ 31 - 16 ->
    size_t (size_t (len + 3) - Z.land (size_t (len + 3)) 3) = 4 * ((len + 3) / 4)).
  { intros len Hlen. rewrite (size_t_small (len + 3)) by lia.
    rewrite Hland by lia.
    pose proof (Z.div_mod (len + 3) 4 ltac:(lia)) as Hdm.
    pose proof (Z.mod_pos_bound (len + 3) 4 ltac:(lia)) as Hm.
    rewrite size_t_small by lia. lia. }
  destruct (negb (is_nul (shortName o))); simpl in *;
    destruct (longName o) as [name|] eqn:Hl; simpl in *;
    try specialize (Hb name Hl);
    rewrite ?(size_t_small (0 + 2)) by lia;
    rewrite ?(size_t_small (Z.of_nat (strlen name) + 2)) by lia;
    rewrite ?(size_t_small (0 + 2 + 2)) by lia;
    rewrite ?(size_t_small (0 + 2 + 2 + (Z.of_nat (strlen name) + 2))) by lia;
    rewrite ?(size_t_small (0 + (Z.of_nat (strlen name) + 2))) by lia.
  all: match goal with
       | |- size_t (size_t (size_t ?x + 3) - _) = _ =>
           rewrite (size_t_small x) by lia; rewrite Hfin by lia; f_equal; f_equal; lia
       end.
Qed.


Lemma option_width_bounds o :
  bounded_name o ->
  let n := Z.of_nat (String.length (option_names o)) in
  n <= option_width o < n + 4 /\ option_width o mod 4 = 0 /\
  option_width o < 2 ^ 31 - 12.
Proof.
  intros Hb n. pose proof (option_names_bound o Hb) as Hn. fold n in Hn.
  rewrite (option_width_rounds o Hb). fold n.
  assert (H0 : 0 <= n) by (unfold n; lia).
  pose proof (Z.div_mod (n + 3) 4 ltac:(lia)) as Hdm.
  pose proof (Z.mod_pos_bound (n + 3) 4 ltac:(lia)) as Hm.
  split; [lia|]. split; [|lia].
  rewrite Z.mul_comm. apply Z.mod_mul. lia.
Qed.

Lemma best_width_max : forall opts width,
  terminated opts ->
  short_names opts ->
  0 <= width < 2 ^ 31 - 12 ->
  width mod 4 = 0 ->
  exists w,
    best_width opts width = Some w /\
    width <= w < 2 ^ 31 - 12 /\
    w mod 4 = 0 /\
    Forall (fun o => Z.of_nat (String.length (option_names o)) <= w)
      (entries opts) /\
    (w = width \/
     Exists (fun o => w < Z.of_nat (String.length (option_names o)) + 4)
       (entries opts)).
Proof.
  unfold short_names.
  induction opts as [|o opts IH]; intros width Hend Hb Hw Hm.
  - inversion Hend.
  - cbn [best_width entries] in *.
    destruct (is_END (type o)) eqn:HE.
    + exists width. split; [reflexivity|]. split; [lia|]. split; [exact Hm|].
      split; [constructor|left; reflexivity].
    + assert (Hend' : terminated opts)
        by (inversion Hend; subst; [congruence|assumption]).
      inversion Hb as [|? ? Ho Hb']; subst.
      destruct (option_width_bounds o Ho) as (Hn & Hm4 & Hlt).
      set (n := Z.of_nat (String.length (option_names o))) in *.
      assert (H0 : 0 <= n) by (unfold n; lia).
      destruct (width <? option_width o) eqn:Hcmp.
      * apply Z.ltb_lt in Hcmp.
        destruct (IH (option_width o) Hend' Hb' ltac:(lia) Hm4)
          as (w & -> & Hle & Hmod & Hall & Hex).
        exists w. split; [reflexivity|]. split; [lia|]. split; [exact Hmod|].
        split; [constructor; [fold n; lia|exact Hall]|].
        right. destruct Hex as [->|Hex].
        -- apply Exists_cons_hd. fold n. lia.
        -- apply Exists_cons_tl. exact Hex.
      * apply Z.ltb_ge in Hcmp.
        destruct (IH width Hend' Hb' Hw Hm)
          as (w & -> & Hle & Hmod & Hall & Hex).
        exists w. split; [reflexivity|]. split; [lia|]. split; [exact Hmod|].
        split; [constructor; [fold n; lia|exact Hall]|].
        destruct Hex as [->|Hex]; [left; reflexivity|].
        right. apply Exists_cons_tl. exact Hex.
Qed.

(** X12.  The column of the first loop is the least multiple of four
    that is no less than the width of the names of every entry before
    END. *)
Theorem best_width_is_least_multiple_of_four opts :
  terminated opts ->
  short_names opts ->
  exists w,
    best_width opts 0 = Some w /\
    w mod 4 = 0 /\
    Forall (fun o => Z.of_nat (String.length (option_names o)) <= w)
      (entries opts) /\
    (w = 0 \/
     Exists (fun o => w - 4 < Z.of_nat (String.length (option_names o)))
       (entries opts)).
Proof.
  intros Hend Hb.
  destruct (best_width_max opts 0 Hend Hb ltac:(lia) eq_refl)
    as (w & Hw & _ & Hmod & Hall & Hex).
  exists w. split; [exact Hw|]. split; [exact Hmod|]. split; [exact Hall|].
  destruct Hex as [->|Hex]; [left; reflexivity|right].
  eapply Exists_impl; [exact Hex|]. simpl. intros o Ho. lia.
Qed.

(** X13.  With the column [w] of the first loop, the line of an entry
    that is not a GROUP is never broken after the names: it is four
    spaces, the names, at least two spaces, the help text and a line
    feed, and the help text starts at column [w + 6] on every such line.
    *)
Theorem usage_option_aligned opts w o h :
  terminated opts ->
  short_names opts ->
  best_width opts 0 = Some w ->
  o ∈ entries opts ->
  is_GROUP (type o) = false ->
  help o = Some h ->
  exists padding : nat,
    usage_option o (size_t (w + 4)) =
      Some ("    " +:+ option_names o +:+ spaces padding +:+ c_str h +:+ LF) /\
    (2 <= padding)%nat /\
    Z.of_nat (String.length ("    " +:+ option_names o +:+ spaces padding))
      = w + 6.
Proof.
  intros Hend Hb Hw Hin HG Hh.
  destruct (best_width_max opts 0 Hend Hb ltac:(lia) eq_refl)
    as (w' & Hw' & Hrange & _ & Hall & _).
  rewrite Hw in Hw'. injection Hw' as <-.
  rewrite Forall_forall in Hall. specialize (Hall o Hin).
  set (n := Z.of_nat (String.length (option_names o))) in *.
  assert (H0 : 0 <= n) by (unfold n; lia).
  assert (H64 : 2 ^ 31 < 2 ^ 64) by (apply Z.pow_lt_mono_r; lia).
  exists (Z.to_nat (w - n + 2)).
  split; [|split].
  - unfold usage_option. rewrite HG, Hh.
    assert (Hpos :
      size_t (size_t (size_t (size_t (Z.of_nat (String.length "    ") +
        Z.of_nat (String.length (short_part o))) +
        Z.of_nat (String.length (separator_part o))) +
        Z.of_nat (String.length (long_part o))) +
        Z.of_nat (String.length (value_hint (type o)))) = 4 + n).
    { unfold n, option_names in *. rewrite !length_append in *.
      change (Z.of_nat (String.length "    ")) with 4.
      set (a := String.length (short_part o)) in *.
      set (b := String.length (separator_part o)) in *.
      set (c := String.length (long_part o)) in *.
      set (d := String.length (value_hint (type o))) in *.
      rewrite (size_t_small (4 + Z.of_nat a)) by lia.
      rewrite (size_t_small (4 + Z.of_nat a + Z.of_nat b)) by lia.
      rewrite (size_t_small (4 + Z.of_nat a + Z.of_nat b + Z.of_nat c)) by lia.
      rewrite size_t_small by lia. lia. }
    rewrite Hpos. rewrite (size_t_small (w + 4)) by lia.
    replace (4 + n <=? w + 4) with true by (symmetry; apply Z.leb_le; lia).
    replace (w + 4 - (4 + n)) with (w - n) by lia.
    rewrite size_t_small by lia. rewrite int_of_size_t_small by lia.
    unfold INT_MAX.
    replace (2 ^ 31 - 1 <? w - n + 2) with false
      by (symmetry; apply Z.ltb_ge; lia).
    simpl mbind. rewrite Z.abs_eq by lia.
    unfold option_names. rewrite !append_assoc. reflexivity.
  - lia.
  - rewrite !length_append, length_spaces. fold n.
    change (String.length "    ") with 4%nat. lia.
Qed.

End UsageProperties.

(** * Properties of the buckets *)

Lemma c_str_idem s : c_str (c_str s) = c_str s.
Proof.
  induction s as [|c s IH]; simpl; [reflexivity|].
  destruct (is_nul c) eqn:Hn; simpl; [reflexivity|]. rewrite Hn, IH. reflexivity.
Qed.

Lemma nat_of_ascii_inj_Z c1 c2 :
  Z.of_nat (nat_of_ascii c1) - Z.of_nat (nat_of_ascii c2) = 0 -> c1 = c2.
Proof.
  intros H. rewrite <- (ascii_nat_embedding c1), <- (ascii_nat_embedding c2).
  f_equal. lia.
Qed.

(** [strcmp] is zero exactly on strings that are equal up to their
    terminators. *)
Lemma strcmp_zero : forall s1 s2, strcmp s1 s2 = 0 <-> c_str s1 = c_str s2.
Proof.
  induction s1 as [|c1 s1 IH]; intros s2.
  - destruct s2 as [|c2 s2]; [cbn; tauto|].
    cbn [strcmp c_str].
    change (char_at EmptyString 0) with NUL.
    change (char_at (String c2 s2) 0) with c2.
    destruct (Ascii.eqb NUL c2) eqn:Heq.
    + apply Ascii.eqb_eq in Heq. subst c2.
      change (is_nul NUL) with true. cbn iota. tauto.
    + assert (Hn : is_nul c2 = false).
      { unfold is_nul. rewrite Ascii.eqb_sym. exact Heq. }
      rewrite Hn. split; [|discriminate].
      intros H. apply nat_of_ascii_inj_Z in H. subst c2.
      rewrite Ascii.eqb_refl in Heq. discriminate.
  - cbn [strcmp c_str].
    change (char_at (String c1 s1) 0) with c1.
    destruct s2 as [|c2 s2].
    + change (char_at EmptyString 0) with NUL. cbn [c_str].
      unfold is_nul.
      destruct (Ascii.eqb c1 NUL) eqn:Heq; [tauto|].
      split; [|discriminate].
      intros H. apply nat_of_ascii_inj_Z in H. subst c1.
      rewrite Ascii.eqb_refl in Heq. discriminate.
    + change (char_at (String c2 s2) 0) with c2.
      change (advance 1 (String c2 s2)) with s2. cbn [c_str].
      destruct (Ascii.eqb c1 c2) eqn:Heq.
      * apply Ascii.eqb_eq in Heq. subst c2.
        destruct (is_nul c1); [tauto|].
        rewrite IH. split; [congruence|]. intros H. injection H. auto.
      * split.
        -- intros H. apply nat_of_ascii_inj_Z in H. subst c2.
           rewrite Ascii.eqb_refl in Heq. discriminate.
        -- intros H. exfalso.
           destruct (is_nul c1) eqn:H1, (is_nul c2) eqn:H2; try discriminate.
           ++ unfold is_nul in *. apply Ascii.eqb_eq in H1, H2. subst.
              rewrite Ascii.eqb_refl in Heq. discriminate.
           ++ injection H as -> _. rewrite Ascii.eqb_refl in Heq. discriminate.
Qed.

Lemma strcmp_eqb s1 s2 :
  (strcmp s1 s2 =? 0) = bool_decide (c_str s1 = c_str s2).
Proof.
  destruct (strcmp s1 s2 =? 0) eqn:H; symmetry.
  - apply bool_decide_eq_true. apply strcmp_zero. apply Z.eqb_eq. exact H.
  - apply bool_decide_eq_false. intros Hc. apply strcmp_zero in Hc.
    apply Z.eqb_neq in H. contradiction.
Qed.

Lemma as_long_in z : LONG_MIN <= z <= LONG_MAX -> as_long z = Some z.
Proof.
  intros H. unfold as_long.
  replace (LONG_MIN <=? z) with true by (symmetry; apply Z.leb_le; lia).
  replace (z <=? LONG_MAX) with true by (symmetry; apply Z.leb_le; lia).
  reflexivity.
Qed.

Lemma as_long_Some z z' : as_long z = Some z' -> z' = z /\ LONG_MIN <= z <= LONG_MAX.
Proof.
  unfold as_long. destruct (LONG_MIN <=? z) eqn:H1; [|discriminate].
  destruct (z <=? LONG_MAX) eqn:H2; [|discriminate].
  simpl. intros H. injection H as <-. apply Z.leb_le in H1, H2. lia.
Qed.

(** The loop finds a bucket exactly when the category has one. *)
Lemma add_to_category_found name cents : forall buckets,
  LONG_MIN <= total_of name buckets + cents <= LONG_MAX ->
  if has_category name buckets then
    exists pre b post,
      buckets = pre ++ b :: post /\
      has_category name pre = false /\
      strcmp name (category b) = 0 /\
      add_to_category name cents buckets =
        Some (Some (pre ++ {| category := category b;
                              totalCents := totalCents b + cents |} :: post))
  else add_to_category name cents buckets = Some None.
Proof.
  induction buckets as [|b buckets IH]; intros Hr; [reflexivity|].
  cbn [has_category existsb add_to_category total_of] in *.
  destruct (strcmp name (category b) =? 0) eqn:Hcmp.
  - cbn [orb]. exists [], b, buckets. split; [reflexivity|].
    split; [reflexivity|]. split; [apply Z.eqb_eq; exact Hcmp|].
    rewrite as_long_in by exact Hr. reflexivity.
  - cbn [orb]. specialize (IH Hr). fold (has_category name buckets) in *.
    destruct (has_category name buckets).
    + destruct IH as (pre & b' & post & -> & Hpre & Hb & ->).
      exists (b :: pre), b', post. split; [reflexivity|].
      split; [cbn [has_category existsb]; rewrite Hcmp; exact Hpre|].
      split; [exact Hb|reflexivity].
    + rewrite IH. reflexivity.
Qed.

Lemma total_of_absent name : forall buckets,
  has_category name buckets = false -> total_of name buckets = 0.
Proof.
  induction buckets as [|b buckets IH]; [reflexivity|].
  cbn [has_category existsb total_of].
  destruct (strcmp name (category b) =? 0); [discriminate|]. exact IH.
Qed.

Lemma total_of_app name pre post :
  has_category name pre = false ->
  total_of name (pre ++ post) = total_of name post.
Proof.
  induction pre as [|b pre IH]; [reflexivity|].
  cbn [has_category existsb total_of app].
  destruct (strcmp name (category b) =? 0); [discriminate|]. exact IH.
Qed.

Lemma strcmp_same name other s :
  c_str other = c_str name ->
  (strcmp other s =? 0) = (strcmp name s =? 0).
Proof. intros H. rewrite !strcmp_eqb, H. reflexivity. Qed.

Lemma total_of_same name other : forall buckets,
  c_str other = c_str name ->
  total_of other buckets = total_of name buckets.
Proof.
  intros buckets H. induction buckets as [|b buckets IH]; [reflexivity|].
  cbn [total_of]. rewrite (strcmp_same name other _ H), IH. reflexivity.
Qed.

Lemma sum_of_app pre post : sum_of (pre ++ post) = sum_of pre + sum_of post.
Proof.
  unfold sum_of. induction pre as [|b pre IH]; simpl; [reflexivity|].
  rewrite IH. lia.
Qed.

(** X14.  [addEntryToBucket] adds [cents] to the total of the category
    and to nothing else: afterwards the total of every category that
    compares equal has grown by [cents], the total of every other
    category is what it was, and the sum of all the totals has grown by
    [cents].  This is so when the new total of the category is a [long].
    *)
Theorem addEntryToBucket_totals name cents buckets :
  LONG_MIN <= total_of name buckets + cents <= LONG_MAX ->
  exists buckets',
    addEntryToBucket name cents buckets = Some buckets' /\
    (forall other,
       total_of other buckets' =
         if strcmp other name =? 0
         then total_of other buckets + cents
         else total_of other buckets) /\
    sum_of buckets' = sum_of buckets + cents.
Proof.
  intros Hr. pose proof (add_to_category_found name cents buckets Hr) as Hf.
  unfold addEntryToBucket.
  destruct (has_category name buckets) eqn:Hhas.
  - destruct Hf as (pre & b & post & -> & Hpre & Hb & ->).
    eexists. split; [reflexivity|]. split.
    + intros other. rewrite strcmp_eqb.
      destruct (bool_decide (c_str other = c_str name)) eqn:Hsame.
      * apply bool_decide_eq_true in Hsame.
        rewrite !(total_of_same name other _ Hsame).
        rewrite !total_of_app by exact Hpre.
        cbn [total_of category totalCents].
        replace (strcmp name (category b) =? 0) with true
          by (symmetry; apply Z.eqb_eq; exact Hb).
        reflexivity.
      * apply bool_decide_eq_false in Hsame.
        assert (Hne : (strcmp other (category b) =? 0) = false).
        { rewrite strcmp_eqb. apply bool_decide_eq_false.
          apply strcmp_zero in Hb. congruence. }
        clear Hr Hhas Hpre. induction pre as [|p pre IH].
        -- cbn [app total_of category]. rewrite Hne. reflexivity.
        -- cbn [app total_of]. rewrite IH. reflexivity.
    + rewrite !sum_of_app. unfold sum_of. simpl. lia.
  - rewrite Hf. eexists. split; [reflexivity|]. split.
    + intros other. cbn [total_of category totalCents]. unfold strdup.
      rewrite !strcmp_eqb, c_str_idem.
      destruct (bool_decide (c_str other = c_str name)) eqn:Hsame;
        [|reflexivity].
      apply bool_decide_eq_true in Hsame.
      rewrite (total_of_same name other _ Hsame).
      rewrite (total_of_absent name buckets Hhas). lia.
    + unfold sum_of. simpl. lia.
Qed.

Lemma add_to_category_Some name cents : forall buckets found,
  add_to_category name cents buckets = Some found ->
  match found with
  | Some buckets' =>
      has_category name buckets = true /\
      category <$> buckets' = category <$> buckets
  | None => has_category name buckets = false
  end.
Proof.
  induction buckets as [|b buckets IH]; intros found H.
  - injection H as <-. reflexivity.
  - cbn [add_to_category has_category existsb] in *.
    destruct (strcmp name (category b) =? 0) eqn:Hcmp.
    + destruct (as_long (totalCents b + cents)); [|discriminate].
      injection H as <-. split; reflexivity.
    + destruct (add_to_category name cents buckets) as [found'|] eqn:Hrec;
        [|discriminate].
      injection H as <-. specialize (IH _ eq_refl).
      destruct found' as [buckets'|]; cbn [fmap option_fmap option_map orb].
      * destruct IH as [Hh Hc]. split; [exact Hh|].
        cbn [fmap list_fmap]. f_equal. exact Hc.
      * exact IH.
Qed.

Lemma has_category_elem name buckets :
  has_category name buckets = true <->
  c_str name ∈ (fun b => c_str (category b)) <$> buckets.
Proof.
  induction buckets as [|b buckets IH]; cbn [has_category existsb fmap list_fmap].
  - split; [discriminate|]. intros H. inversion H.
  - rewrite strcmp_eqb. fold (has_category name buckets).
    rewrite orb_true_iff, IH, bool_decide_eq_true.
    rewrite elem_of_cons. tauto.
Qed.

(** X15.  [addEntryToBucket] keeps the buckets and their order: when the
    category has a bucket the list of categories is unchanged, otherwise
    a copy of the name is put at its head; and if no two buckets had the
    same category before, no two have afterwards. *)
Theorem addEntryToBucket_categories name cents buckets buckets' :
  addEntryToBucket name cents buckets = Some buckets' ->
  category <$> buckets' =
    (if has_category name buckets then category <$> buckets
     else c_str name :: (category <$> buckets)) /\
  (distinct_categories buckets -> distinct_categories buckets').
Proof.
  unfold addEntryToBucket. intros H.
  destruct (add_to_category name cents buckets) as [found|] eqn:Hf;
    [|discriminate].
  apply add_to_category_Some in Hf.
  destruct found as [bs|].
  - injection H as <-. destruct Hf as [Hh Hc]. rewrite Hh.
    split; [exact Hc|]. unfold distinct_categories.
    rewrite !(list_fmap_compose category c_str), Hc. auto.
  - injection H as <-. rewrite Hf. split; [reflexivity|].
    unfold distinct_categories. cbn [fmap list_fmap category]. intros Hd.
    apply NoDup_cons. split; [|exact Hd].
    unfold strdup. rewrite c_str_idem. intros Hin.
    apply has_category_elem in Hin. congruence.
Qed.

Lemma calculateTotals_loop_sums : forall buckets positive negative,
  0 <= positive -> negative <= 0 ->
  positive - negative + sum_of_magnitudes buckets <= LONG_MAX ->
  exists p n,
    calculateTotals_loop buckets positive negative = Some (p, n) /\
    0 <= p /\ n <= 0 /\
    p + n = positive + negative + sum_of buckets /\
    p - n = positive - negative + sum_of_magnitudes buckets.
Proof.
  unfold LONG_MAX, LONG_MIN.
  induction buckets as [|b buckets IH]; intros positive negative Hp Hn Hr.
  - exists positive, negative. unfold sum_of, sum_of_magnitudes. simpl.
    repeat split; try lia.
  - unfold sum_of, sum_of_magnitudes in *. cbn [foldr calculateTotals_loop] in *.
    assert (Hm : 0 <= foldr (fun b acc => Z.abs (totalCents b) + acc) 0 buckets).
    { clear. induction buckets; simpl; lia. }
    destruct (totalCents b >=? 0) eqn:Hs.
    + apply Z.geb_le in Hs.
      rewrite as_long_in by (unfold LONG_MAX, LONG_MIN; lia). cbn [mbind option_bind].
      destruct (IH (positive + totalCents b) negative) as (p & n & -> & ? & ? & ? & ?);
        [lia|lia|lia|].
      exists p, n. repeat split; try lia.
    + assert (totalCents b < 0).
      { destruct (Z.geb_spec (totalCents b) 0); [discriminate|lia]. }
      rewrite as_long_in by (unfold LONG_MAX, LONG_MIN; lia). cbn [mbind option_bind].
      destruct (IH positive (negative + totalCents b)) as (p & n & -> & ? & ? & ? & ?);
        [lia|lia|lia|].
      exists p, n. repeat split; try lia.
Qed.

(** X16.  When the magnitudes of the totals add up to a [long],
    [calculateTotals] returns the sum [p] of the totals that are not
    negative and the sum [n] of the negative ones: [p] is not negative,
    [n] is not positive, [p + n] is the sum of all the totals and [p -
    n] the sum of their magnitudes. *)
Theorem calculateTotals_sums buckets :
  sum_of_magnitudes buckets <= LONG_MAX ->
  exists p n,
    calculateTotals buckets = Some (p, n) /\
    0 <= p /\ n <= 0 /\
    p + n = sum_of buckets /\
    p - n = sum_of_magnitudes buckets.
Proof.
  intros Hr.
  destruct (calculateTotals_loop_sums buckets 0 0) as (p & n & H & ? & ? & ? & ?);
    [lia|lia|lia|].
  exists p, n. unfold calculateTotals. repeat split; try assumption; lia.
Qed.

(** * Properties of the lines *)

Lemma advance_app pre r n :
  advance (String.length pre + n) (pre +:+ r) = advance n r.
Proof. induction pre as [|c pre IH]; [reflexivity|]. exact IH. Qed.

Lemma char_at_app pre r n :
  char_at (pre +:+ r) (String.length pre + n) = char_at r n.
Proof. induction pre as [|c pre IH]; [reflexivity|]. exact IH. Qed.

Lemma poke_app pre r n c :
  poke (pre +:+ r) (String.length pre + n) c = pre +:+ poke r n c.
Proof.
  induction pre as [|x pre IH]; [reflexivity|].
  change (String x (poke (pre +:+ r) (String.length pre + n) c)
          = String x (pre +:+ poke r n c)).
  rewrite IH. reflexivity.
Qed.

Lemma char_at_advance : forall s n k, char_at (advance n s) k = char_at s (n + k).
Proof.
  intros s n. revert s. induction n as [|n IH]; intros s k; [reflexivity|].
  destruct s as [|c s]; [destruct k; reflexivity|]. apply IH.
Qed.

Lemma strspn_app set a r :
  only set a = true ->
  strspn (a +:+ r) set = (String.length a + strspn r set)%nat.
Proof.
  unfold only. induction a as [|c a IH]; intros H; [reflexivity|].
  cbn [chars] in H. apply andb_true_iff in H. destruct H as [Hc Ha].
  change (String c a +:+ r) with (String c (a +:+ r)). cbn [strspn String.length].
  rewrite Hc.
  assert (Hn : is_nul c = false).
  { destruct (is_nul c) eqn:Hn; [|reflexivity].
    unfold is_nul in Hn. apply Ascii.eqb_eq in Hn. subst c.
    exfalso. clear -Hc. induction set as [|x set IH]; [discriminate|].
    cbn [member] in Hc. destruct (is_nul x) eqn:Hx; [discriminate|].
    apply orb_true_iff in Hc. destruct Hc as [Hc|Hc]; [|auto].
    apply Ascii.eqb_eq in Hc. subst x. discriminate. }
  rewrite Hn, (IH Ha). reflexivity.
Qed.

Lemma strcspn_app set a r :
  free_of set a = true ->
  strcspn (a +:+ r) set = (String.length a + strcspn r set)%nat.
Proof.
  unfold free_of. induction a as [|c a IH]; intros H; [reflexivity|].
  cbn [chars] in H. apply andb_true_iff in H. destruct H as [Hc Ha].
  apply andb_true_iff in Hc. destruct Hc as [Hn Hm].
  apply negb_true_iff in Hn, Hm.
  change (String c a +:+ r) with (String c (a +:+ r)). cbn [strcspn String.length].
  rewrite Hn, Hm, (IH Ha). reflexivity.
Qed.

Lemma member_not_nul c set : member c set = true -> is_nul c = false.
Proof.
  induction set as [|x set IH]; [discriminate|]. cbn [member].
  destruct (is_nul x) eqn:Hx; [discriminate|].
  intros H. apply orb_true_iff in H. destruct H as [H|H]; [|auto].
  apply Ascii.eqb_eq in H. subst x. exact Hx.
Qed.

(** [strtok] on a buffer acts on what follows the offset: what precedes
    it is only carried along. *)
Lemma strtok_app pre r s delim :
  strtok (pre +:+ r) (String.length pre + s) delim =
    let '(t, r', s') := strtok r s delim in
    (Nat.add (String.length pre) <$> t, pre +:+ r', (String.length pre + s')%nat).
Proof.
  unfold strtok. rewrite advance_app.
  rewrite <- Nat.add_assoc, char_at_app.
  destruct (is_nul (char_at r (s + strspn (advance s r) delim))); [reflexivity|].
  rewrite (advance_app pre r (s + strspn (advance s r) delim)).
  rewrite <- Nat.add_assoc, char_at_app.
  destruct (is_nul (char_at r _)); [reflexivity|].
  rewrite poke_app. cbn [fmap option_fmap option_map].
  rewrite Nat.add_succ_r. reflexivity.
Qed.

Lemma advance_length pre r : advance (String.length pre) (pre +:+ r) = r.
Proof. rewrite <- (Nat.add_0_r (String.length pre)). apply advance_app. Qed.

Lemma char_at_length pre r :
  char_at (pre +:+ r) (String.length pre) = char_at r 0.
Proof. rewrite <- (Nat.add_0_r (String.length pre)). apply char_at_app. Qed.

Lemma poke_length pre r c :
  poke (pre +:+ r) (String.length pre) c = pre +:+ poke r 0 c.
Proof. rewrite <- (Nat.add_0_r (String.length pre)) at 1. apply poke_app. Qed.

Lemma free_of_head set tok r :
  free_of set tok = true ->
  tok <> EmptyString ->
  is_nul (char_at (tok +:+ r) 0) = false /\
  member (char_at (tok +:+ r) 0) set = false.
Proof.
  destruct tok as [|c tok]; [congruence|]. intros Ht _.
  unfold free_of in Ht. cbn [chars] in Ht.
  apply andb_true_iff in Ht. destruct Ht as [Hc _].
  apply andb_true_iff in Hc. destruct Hc as [Hn Hm].
  apply negb_true_iff in Hn, Hm. split; assumption.
Qed.

Lemma strspn_head set r :
  member (char_at r 0) set = false -> strspn r set = 0%nat.
Proof.
  destruct r as [|c r]; [reflexivity|]. change (char_at (String c r) 0) with c.
  intros H. cbn [strspn]. rewrite H. destruct (is_nul c); reflexivity.
Qed.

Lemma strcspn_head set r :
  is_nul (char_at r 0) = true \/ member (char_at r 0) set = true ->
  strcspn r set = 0%nat.
Proof.
  destruct r as [|c r]; [reflexivity|]. change (char_at (String c r) 0) with c.
  intros H. cbn [strcspn]. destruct (is_nul c); [reflexivity|].
  destruct H as [H|H]; [discriminate|]. rewrite H. reflexivity.
Qed.

(** A token that is followed by a delimiter. *)
Lemma strtok_token seps tok d rest delim :
  only delim seps = true ->
  free_of delim tok = true ->
  tok <> EmptyString ->
  member d delim = true ->
  strtok (seps +:+ tok +:+ String d rest) 0 delim =
    (Some (String.length seps), seps +:+ tok +:+ String NUL rest,
     S (String.length seps + String.length tok)).
Proof.
  intros Hs Ht Hne Hd. unfold strtok. cbn [advance Nat.add].
  assert (Hd0 : is_nul d = false) by (eapply member_not_nul; exact Hd).
  destruct (free_of_head delim tok (String d rest) Ht Hne) as [Hc0 Hm0].
  rewrite (strspn_app delim seps _ Hs), (strspn_head _ _ Hm0), Nat.add_0_r.
  rewrite (char_at_length seps), Hc0.
  rewrite (advance_length seps).
  rewrite (strcspn_app delim tok _ Ht).
  rewrite (strcspn_head delim (String d rest)) by (right; exact Hd).
  rewrite Nat.add_0_r.
  rewrite (char_at_app seps), (char_at_length tok).
  change (char_at (String d rest) 0) with d. rewrite Hd0.
  rewrite (poke_app seps), (poke_length tok). reflexivity.
Qed.

(** A token that goes on to a delimiter or to the end of the buffer:
    the buffer keeps the token, and what follows it changes by one
    terminator at most. *)
Lemma strtok_first tok tail delim :
  free_of delim tok = true ->
  tok <> EmptyString ->
  exists tail' save,
    strtok (tok +:+ tail) 0 delim = (Some 0%nat, tok +:+ tail', save) /\
    (tail' = tail \/ exists k, tail' = poke tail k NUL).
Proof.
  intros Ht Hne. unfold strtok. cbn [advance Nat.add].
  destruct (free_of_head delim tok tail Ht Hne) as [Hc0 Hm0].
  rewrite (strspn_head _ _ Hm0). cbn [advance Nat.add]. rewrite Hc0.
  rewrite (strcspn_app delim tok _ Ht).
  destruct (is_nul (char_at (tok +:+ tail)
                        (String.length tok + strcspn tail delim))).
  - eexists _, _. split; [reflexivity|]. left. reflexivity.
  - rewrite (poke_app tok). eexists _, _. split; [reflexivity|].
    right. eexists. reflexivity.
Qed.

(** ** Numbers *)

Lemma digit_in_10 c :
  digit_in 10 c =
    if is_digit c then Some (Z.of_nat (nat_of_ascii c) - 48) else None.
Proof.
  unfold digit_in, digit_value, is_digit.
  set (n := nat_of_ascii c).
  destruct (48 <=? n)%nat eqn:H1, (n <=? 57)%nat eqn:H2; cbn [andb].
  - apply Nat.leb_le in H1, H2.
    replace (48 <=? Z.of_nat n) with true by (symmetry; apply Z.leb_le; lia).
    replace (Z.of_nat n <=? 57) with true by (symmetry; apply Z.leb_le; lia).
    cbn [andb].
    replace (Z.of_nat n - 48 <? 10) with true by (symmetry; apply Z.ltb_lt; lia).
    reflexivity.
  - apply Nat.leb_le in H1. apply Nat.leb_gt in H2.
    replace (48 <=? Z.of_nat n) with true by (symmetry; apply Z.leb_le; lia).
    replace (Z.of_nat n <=? 57) with false by (symmetry; apply Z.leb_gt; lia).
    cbn [andb].
    destruct ((97 <=? Z.of_nat n) && (Z.of_nat n <=? 122)) eqn:H3.
    + apply andb_true_iff in H3. destruct H3 as [H3 H4].
      apply Z.leb_le in H3, H4.
      replace (Z.of_nat n - 87 <? 10) with false by (symmetry; apply Z.ltb_ge; lia).
      reflexivity.
    + destruct ((65 <=? Z.of_nat n) && (Z.of_nat n <=? 90)) eqn:H5; [|reflexivity].
      apply andb_true_iff in H5. destruct H5 as [H5 H6].
      apply Z.leb_le in H5, H6.
      replace (Z.of_nat n - 55 <? 10) with false by (symmetry; apply Z.ltb_ge; lia).
      reflexivity.
  - apply Nat.leb_gt in H1.
    replace (48 <=? Z.of_nat n) with false by (symmetry; apply Z.leb_gt; lia).
    cbn [andb].
    replace (97 <=? Z.of_nat n) with false by (symmetry; apply Z.leb_gt; lia).
    replace (65 <=? Z.of_nat n) with false by (symmetry; apply Z.leb_gt; lia).
    reflexivity.
  - apply Nat.leb_gt in H1.
    replace (48 <=? Z.of_nat n) with false by (symmetry; apply Z.leb_gt; lia).
    cbn [andb].
    replace (97 <=? Z.of_nat n) with false by (symmetry; apply Z.leb_gt; lia).
    replace (65 <=? Z.of_nat n) with false by (symmetry; apply Z.leb_gt; lia).
    reflexivity.
Qed.

Lemma digits_end tail acc any :
  ends_number tail = true -> digits 10 tail acc any = (acc, any, tail).
Proof.
  unfold ends_number. destruct tail as [|c tail]; [reflexivity|].
  change (char_at (String c tail) 0) with c. intros H.
  apply negb_true_iff in H. cbn [digits]. rewrite digit_in_10, H. reflexivity.
Qed.

Lemma digits_decimal tail : forall ds acc any,
  chars is_digit ds = true ->
  ends_number tail = true ->
  digits 10 (ds +:+ tail) acc any =
    (decimal_from acc ds,
     match ds with EmptyString => any | _ => true end, tail).
Proof.
  induction ds as [|c ds IH]; intros acc any Hd Ht.
  - apply digits_end. exact Ht.
  - cbn [chars] in Hd. apply andb_true_iff in Hd. destruct Hd as [Hc Hd].
    change (String c ds +:+ tail) with (String c (ds +:+ tail)).
    cbn [digits decimal_from]. rewrite digit_in_10, Hc.
    rewrite (IH _ true Hd Ht). destruct ds; reflexivity.
Qed.

Lemma decimal_from_nonneg : forall ds acc,
  chars is_digit ds = true -> 0 <= acc -> acc <= decimal_from acc ds.
Proof.
  induction ds as [|c ds IH]; intros acc Hd Ha; [cbn; lia|].
  cbn [chars] in Hd. apply andb_true_iff in Hd. destruct Hd as [Hc Hd].
  cbn [decimal_from].
  unfold is_digit in Hc. apply andb_true_iff in Hc. destruct Hc as [H1 H2].
  apply Nat.leb_le in H1, H2.
  specialize (IH (acc * 10 + (Z.of_nat (nat_of_ascii c) - 48)) Hd). lia.
Qed.

Lemma skip_spaces_app ws r :
  chars isspace ws = true -> skip_spaces (ws +:+ r) = skip_spaces r.
Proof.
  induction ws as [|c ws IH]; intros H; [reflexivity|].
  cbn [chars] in H. apply andb_true_iff in H. destruct H as [Hc Hw].
  change (String c ws +:+ r) with (String c (ws +:+ r)).
  cbn [skip_spaces]. rewrite Hc. exact (IH Hw).
Qed.

Lemma separators_are_spaces ws :
  only SEPARATOR_CSV ws = true -> chars isspace ws = true.
Proof.
  unfold only. induction ws as [|c ws IH]; [reflexivity|].
  cbn [chars]. intros H. apply andb_true_iff in H. destruct H as [Hc Hw].
  rewrite (IH Hw), andb_true_r.
  unfold SEPARATOR_CSV in Hc. cbn [member] in Hc.
  change (is_nul " ") with false in Hc. change (is_nul TAB) with false in Hc.
  cbn iota in Hc. rewrite orb_false_r in Hc.
  apply orb_true_iff in Hc. destruct Hc as [Hc|Hc];
    apply Ascii.eqb_eq in Hc; subst c; reflexivity.
Qed.

(** [strtol] in base 10 on a string of digits, with or without a
    minus sign, that is followed by something else. *)
Lemma strtol_digits (negative : bool) ds tail :
  chars is_digit ds = true ->
  ds <> EmptyString ->
  ends_number tail = true ->
  decimal ds <= LONG_MAX ->
  strtol ((if negative then "-" else "") +:+ ds +:+ tail) 10 =
    (if negative then - decimal ds else decimal ds, tail, 0).
Proof.
  intros Hd Hne Ht Hmax.
  pose proof (decimal_from_nonneg ds 0 Hd ltac:(lia)) as H0. fold (decimal ds) in H0.
  destruct ds as [|c ds]; [congruence|].
  assert (Hc : is_digit c = true).
  { cbn [chars] in Hd. apply andb_true_iff in Hd. tauto. }
  assert (Hsp : isspace c = false).
  { unfold is_digit in Hc. unfold isspace.
    apply andb_true_iff in Hc. destruct Hc as [H1 H2].
    apply Nat.leb_le in H1, H2.
    replace (nat_of_ascii c =? 32)%nat with false
      by (symmetry; apply Nat.eqb_neq; lia).
    replace (nat_of_ascii c <=? 13)%nat with false
      by (symmetry; apply Nat.leb_gt; lia).
    rewrite andb_false_r. reflexivity. }
  assert (Hdig : digits 10 (String c ds +:+ tail) 0 false
                 = (decimal (String c ds), true, tail)).
  { rewrite (digits_decimal tail (String c ds) 0 false Hd Ht). reflexivity. }
  unfold strtol. destruct negative.
  - change ("-" +:+ String c ds +:+ tail) with (String "-" (String c ds +:+ tail)).
    cbn [skip_spaces]. change (isspace "-") with false. cbn iota.
    change (10 =? 0) with false. change (10 =? 16) with false.
    cbn [andb]. cbn iota.
    rewrite Hdig.
    replace (LONG_MAX <? - decimal (String c ds)) with false
      by (symmetry; apply Z.ltb_ge; unfold LONG_MAX in *; lia).
    replace (- decimal (String c ds) <? LONG_MIN) with false
      by (symmetry; apply Z.ltb_ge; unfold LONG_MAX, LONG_MIN in *; lia).
    reflexivity.
  - change ("" +:+ String c ds +:+ tail) with (String c (ds +:+ tail)).
    change (String c ds +:+ tail) with (String c (ds +:+ tail)) in Hdig.
    cbn [skip_spaces]. rewrite Hsp.
    assert (Hsign :
      match String c (ds +:+ tail) with
      | String "-" t => (true, t)
      | String "+" t => (false, t)
      | _ => (false, String c (ds +:+ tail))
      end = (false, String c (ds +:+ tail))).
    { clear -Hc.
      destruct c as [[] [] [] [] [] [] [] []]; try discriminate Hc; reflexivity. }
    rewrite Hsign.
    change (10 =? 0) with false. change (10 =? 16) with false.
    cbn [andb]. cbn iota.
    rewrite Hdig.
    replace (LONG_MAX <? decimal (String c ds)) with false
      by (symmetry; apply Z.ltb_ge; lia).
    replace (decimal (String c ds) <? LONG_MIN) with false
      by (symmetry; apply Z.ltb_ge; unfold LONG_MAX, LONG_MIN in *; lia).
    reflexivity.
Qed.

Lemma strtol_skips_spaces ws r base :
  chars isspace ws = true ->
  fst (fst (strtol (ws +:+ r) base)) = fst (fst (strtol r base)).
Proof.
  intros H. unfold strtol. rewrite (skip_spaces_app ws r H).
  destruct (skip_spaces r) as [|c t]; cbn zeta.
  all: repeat match goal with
       | |- context [let '(_, _) := ?x in _] => destruct x
       | |- context [match digits ?a ?b ?c ?d with _ => _ end] =>
           destruct (digits a b c d) as [[? []] ?]
       | |- context [if ?b then _ else _] => destruct b
       end; try reflexivity.
Qed.

Lemma chars_impl (P Q : ascii -> bool) s :
  (forall c, P c = true -> Q c = true) -> chars P s = true -> chars Q s = true.
Proof.
  intros HPQ. induction s as [|c s IH]; [reflexivity|]. cbn [chars].
  intros H. apply andb_true_iff in H. destruct H as [Hc Hs].
  rewrite (HPQ c Hc), (IH Hs). reflexivity.
Qed.

Lemma chars_app P s1 s2 :
  chars P (s1 +:+ s2) = chars P s1 && chars P s2.
Proof.
  induction s1 as [|c s1 IH]; [reflexivity|].
  change (String c s1 +:+ s2) with (String c (s1 +:+ s2)). cbn [chars].
  rewrite IH, andb_assoc. reflexivity.
Qed.

Lemma is_digit_plain c :
  is_digit c = true ->
  is_nul c = false /\ member c SEPARATOR_CSV = false /\
  member c SEPARATOR_CURRENCY = false.
Proof.
  intros Hc.
  destruct c as [[] [] [] [] [] [] [] []]; try discriminate Hc;
    repeat split; reflexivity.
Qed.

Lemma separator_plain c :
  member c SEPARATOR_CSV = true ->
  is_nul c = false /\ member c SEPARATOR_CURRENCY = false.
Proof.
  intros Hc. split; [eapply member_not_nul; exact Hc|].
  unfold SEPARATOR_CSV in Hc. cbn [member] in Hc.
  change (is_nul " ") with false in Hc. change (is_nul TAB) with false in Hc.
  cbn iota in Hc. rewrite orb_false_r in Hc.
  apply orb_true_iff in Hc. destruct Hc as [Hc|Hc];
    apply Ascii.eqb_eq in Hc; subst c; reflexivity.
Qed.

Lemma as_int_Some z z' : as_int z = Some z' -> z' = z /\ INT_MIN <= z <= INT_MAX.
Proof.
  unfold as_int. destruct (INT_MIN <=? z) eqn:H1; [|discriminate].
  destruct (z <=? INT_MAX) eqn:H2; [|discriminate].
  simpl. intros H. injection H as <-. apply Z.leb_le in H1, H2. lia.
Qed.

(** [strtol] in base 10 on digits of any value: beyond the range of
    [long] the result is the bound of the range. *)
Lemma strtol_digits_value (negative : bool) ds tail :
  chars is_digit ds = true ->
  ds <> EmptyString ->
  ends_number tail = true ->
  fst (fst (strtol ((if negative then "-" else "") +:+ ds +:+ tail) 10)) =
    let v := if negative then - decimal ds else decimal ds in
    if LONG_MAX <? v then LONG_MAX else if v <? LONG_MIN then LONG_MIN else v.
Proof.
  intros Hd Hne Ht.
  destruct ds as [|c ds]; [congruence|].
  assert (Hc : is_digit c = true).
  { cbn [chars] in Hd. apply andb_true_iff in Hd. tauto. }
  assert (Hsp : isspace c = false).
  { unfold is_digit in Hc. unfold isspace.
    apply andb_true_iff in Hc. destruct Hc as [H1 H2].
    apply Nat.leb_le in H1, H2.
    replace (nat_of_ascii c =? 32)%nat with false
      by (symmetry; apply Nat.eqb_neq; lia).
    replace (nat_of_ascii c <=? 13)%nat with false
      by (symmetry; apply Nat.leb_gt; lia).
    rewrite andb_false_r. reflexivity. }
  assert (Hdig : digits 10 (String c ds +:+ tail) 0 false
                 = (decimal (String c ds), true, tail)).
  { rewrite (digits_decimal tail (String c ds) 0 false Hd Ht). reflexivity. }
  unfold strtol. cbv zeta. destruct negative.
  - change ("-" +:+ String c ds +:+ tail) with (String "-" (String c ds +:+ tail)).
    cbn [skip_spaces]. change (isspace "-") with false. cbn iota.
    change (10 =? 0) with false. change (10 =? 16) with false.
    cbn [andb]. cbn iota.
    rewrite Hdig.
    destruct (LONG_MAX <? - decimal (String c ds)); [reflexivity|].
    destruct (- decimal (String c ds) <? LONG_MIN); reflexivity.
  - change ("" +:+ String c ds +:+ tail) with (String c (ds +:+ tail)).
    change (String c ds +:+ tail) with (String c (ds +:+ tail)) in Hdig.
    cbn [skip_spaces]. rewrite Hsp.
    assert (Hsign :
      match String c (ds +:+ tail) with
      | String "-" t => (true, t)
      | String "+" t => (false, t)
      | _ => (false, String c (ds +:+ tail))
      end = (false, String c (ds +:+ tail))).
    { clear -Hc.
      destruct c as [[] [] [] [] [] [] [] []]; try discriminate Hc; reflexivity. }
    rewrite Hsign.
    change (10 =? 0) with false. change (10 =? 16) with false.
    cbn [andb]. cbn iota.
    rewrite Hdig.
    destruct (LONG_MAX <? decimal (String c ds)); [reflexivity|].
    destruct (decimal (String c ds) <? LONG_MIN); reflexivity.
Qed.

Lemma atoi_value ws (negative : bool) ds tail :
  only SEPARATOR_CSV ws = true ->
  chars is_digit ds = true ->
  ds <> EmptyString ->
  ends_number tail = true ->
  atoi (ws +:+ (if negative then "-" else "") +:+ ds +:+ tail) =
    let v := if negative then - decimal ds else decimal ds in
    as_int (if LONG_MAX <? v then LONG_MAX
            else if v <? LONG_MIN then LONG_MIN else v).
Proof.
  intros Hw Hd Hne Ht. unfold atoi.
  pose proof (strtol_skips_spaces ws
                ((if negative then "-" else "") +:+ ds +:+ tail) 10
                (separators_are_spaces ws Hw)) as Hskip.
  rewrite (strtol_digits_value negative ds tail Hd Hne Ht) in Hskip.
  destruct (strtol (ws +:+ (if negative then "-" else "") +:+ ds +:+ tail) 10)
    as [[n rest] errno].
  cbn [fst] in Hskip. subst n. reflexivity.
Qed.

(** [atoi] on a number as the lines of a budget hold them: blanks, an
    optional minus sign, digits, and something that is no digit. *)
Lemma atoi_number ws (negative : bool) ds tail :
  only SEPARATOR_CSV ws = true ->
  chars is_digit ds = true ->
  ds <> EmptyString ->
  ends_number tail = true ->
  decimal ds <= INT_MAX ->
  atoi (ws +:+ (if negative then "-" else "") +:+ ds +:+ tail) =
    Some (if negative then - decimal ds else decimal ds).
Proof.
  intros Hw Hd Hne Ht Hmax. unfold atoi.
  pose proof (strtol_skips_spaces ws
                ((if negative then "-" else "") +:+ ds +:+ tail) 10
                (separators_are_spaces ws Hw)) as Hskip.
  assert (Hlong : decimal ds <= LONG_MAX).
  { unfold INT_MAX, LONG_MAX in *. lia. }
  rewrite (strtol_digits negative ds tail Hd Hne Ht Hlong) in Hskip.
  cbn [fst] in Hskip.
  destruct (strtol (ws +:+ (if negative then "-" else "") +:+ ds +:+ tail) 10)
    as [[n rest] errno].
  cbn [fst] in Hskip. subst n.
  pose proof (decimal_from_nonneg ds 0 Hd ltac:(lia)) as H0. fold (decimal ds) in H0.
  unfold as_int, INT_MIN, INT_MAX in *.
  destruct negative.
  - replace (- 2 ^ 31 <=? - decimal ds) with true by (symmetry; apply Z.leb_le; lia).
    replace (- decimal ds <=? 2 ^ 31 - 1) with true by (symmetry; apply Z.leb_le; lia).
    reflexivity.
  - replace (- 2 ^ 31 <=? decimal ds) with true by (symmetry; apply Z.leb_le; lia).
    replace (decimal ds <=? 2 ^ 31 - 1) with true by (symmetry; apply Z.leb_le; lia).
    reflexivity.
Qed.

Lemma add_to_category_c_str name name' cents : forall buckets,
  c_str name = c_str name' ->
  add_to_category name cents buckets = add_to_category name' cents buckets.
Proof.
  intros buckets H. induction buckets as [|b buckets IH]; [reflexivity|].
  cbn [add_to_category]. rewrite (strcmp_same name' name _ H), IH. reflexivity.
Qed.

Lemma addEntryToBucket_c_str name name' cents buckets :
  c_str name = c_str name' ->
  addEntryToBucket name cents buckets = addEntryToBucket name' cents buckets.
Proof.
  intros H. unfold addEntryToBucket, strdup.
  rewrite (add_to_category_c_str name name' cents buckets H), H. reflexivity.
Qed.

Lemma c_str_token tok rest :
  free_of EmptyString tok = true ->
  c_str (tok +:+ String NUL rest) = c_str tok /\ c_str tok = tok.
Proof.
  unfold free_of. induction tok as [|c tok IH]; intros H; [split; reflexivity|].
  cbn [chars] in H. apply andb_true_iff in H. destruct H as [Hc Ht].
  apply andb_true_iff in Hc. destruct Hc as [Hn _]. apply negb_true_iff in Hn.
  change (String c tok +:+ String NUL rest) with (String c (tok +:+ String NUL rest)).
  cbn [c_str]. rewrite Hn. destruct (IH Ht) as [-> ->]. split; reflexivity.
Qed.

Lemma free_of_weaken set tok :
  free_of set tok = true -> free_of EmptyString tok = true.
Proof.
  apply chars_impl. intros c H. apply andb_true_iff in H. destruct H as [-> _].
  reflexivity.
Qed.

Lemma ends_number_poke tail k :
  ends_number tail = true -> ends_number (poke tail k NUL) = true.
Proof.
  unfold ends_number. destruct tail as [|c tail]; [destruct k; auto|].
  destruct k; [reflexivity|auto].
Qed.

Lemma regroup a b x r :
  a +:+ b +:+ String x r = (a +:+ b +:+ String x EmptyString) +:+ r.
Proof.
  rewrite !(append_assoc a), !(append_assoc b). reflexivity.
Qed.

(** ** What [strtok] leaves of the buffer *)

Lemma chars_poke P : forall s i,
  P NUL = true -> chars P s = true -> chars P (poke s i NUL) = true.
Proof.
  induction s as [|c s IH]; intros i HP H; [destruct i; reflexivity|].
  cbn [chars] in H. apply andb_true_iff in H. destruct H as [Hc Hs].
  destruct i as [|i]; cbn [poke chars].
  - rewrite HP, Hs. reflexivity.
  - rewrite Hc, (IH i HP Hs). reflexivity.
Qed.

Lemma chars_advance P : forall n s, chars P s = true -> chars P (advance n s) = true.
Proof.
  induction n as [|n IH]; intros s H; [exact H|].
  destruct s as [|c s]; [reflexivity|]. cbn [chars] in H.
  apply andb_true_iff in H. destruct H as [_ Hs]. exact (IH s Hs).
Qed.

Lemma char_at_poke_0 : forall s i c,
  (1 <= i)%nat -> char_at (poke s i c) 0 = char_at s 0.
Proof.
  intros s i c Hi. destruct s as [|x s]; [destruct i; reflexivity|].
  destruct i as [|i]; [lia|reflexivity].
Qed.

Lemma member_nul set : member NUL set = false.
Proof.
  destruct (member NUL set) eqn:H; [|reflexivity].
  apply member_not_nul in H. discriminate.
Qed.

(** [strspn] stops at a character that is not of the set, [strcspn] at
    the terminator or at one that is. *)
Lemma strspn_stops set : forall r,
  member (char_at r (strspn r set)) set = false.
Proof.
  induction r as [|c r IH]; [apply member_nul|]. cbn [strspn].
  destruct (is_nul c) eqn:Hn.
  - change (char_at (String c r) 0) with c.
    unfold is_nul in Hn. apply Ascii.eqb_eq in Hn. subst c. apply member_nul.
  - destruct (member c set) eqn:Hm; [exact IH|exact Hm].
Qed.

Lemma strcspn_stops set : forall r,
  chars (fun c => negb (member c set)) r = true ->
  is_nul (char_at r (strcspn r set)) = true.
Proof.
  induction r as [|c r IH]; intros H; [reflexivity|]. cbn [strcspn].
  cbn [chars] in H. apply andb_true_iff in H. destruct H as [Hc Hr].
  apply negb_true_iff in Hc. rewrite Hc.
  destruct (is_nul c) eqn:Hn; [exact Hn|]. exact (IH Hr).
Qed.

Lemma strcspn_positive set r :
  is_nul (char_at r 0) = false ->
  member (char_at r 0) set = false ->
  (1 <= strcspn r set)%nat.
Proof.
  destruct r as [|c r]; [discriminate|]. change (char_at (String c r) 0) with c.
  intros Hn Hm. cbn [strcspn]. rewrite Hn, Hm. lia.
Qed.

(** A call of [strtok] keeps every property of the characters that the
    terminator has, and the first character of the buffer. *)
Lemma strtok_keeps buffer s delim :
  let '(t, buffer', s') := strtok buffer s delim in
  (forall P, P NUL = true -> chars P buffer = true -> chars P buffer' = true) /\
  char_at buffer' 0 = char_at buffer 0.
Proof.
  unfold strtok.
  set (s1 := (s + strspn (advance s buffer) delim)%nat).
  destruct (is_nul (char_at buffer s1)) eqn:Hn1; [split; auto|].
  destruct (is_nul (char_at buffer (s1 + strcspn (advance s1 buffer) delim)));
    [split; auto|].
  split.
  - intros P HP H. apply chars_poke; assumption.
  - apply char_at_poke_0.
    assert (1 <= strcspn (advance s1 buffer) delim)%nat; [|lia].
    apply strcspn_positive.
    + rewrite char_at_advance, Nat.add_0_r. exact Hn1.
    + rewrite char_at_advance, Nat.add_0_r. unfold s1.
      rewrite <- char_at_advance. apply strspn_stops.
Qed.

(** In a buffer that has none of the delimiters, a call of [strtok]
    writes nothing and ends at a terminator. *)
Lemma strtok_no_delimiter buffer s delim :
  chars (fun c => negb (member c delim)) buffer = true ->
  let '(t, buffer', s') := strtok buffer s delim in
  buffer' = buffer /\ is_nul (char_at buffer s') = true.
Proof.
  intros H. unfold strtok.
  set (s1 := (s + strspn (advance s buffer) delim)%nat).
  destruct (is_nul (char_at buffer s1)) eqn:Hn1; [split; auto|].
  assert (He : is_nul (char_at buffer (s1 + strcspn (advance s1 buffer) delim))
               = true).
  { rewrite <- char_at_advance. apply strcspn_stops.
    apply chars_advance. exact H. }
  rewrite He. split; [reflexivity|exact He].
Qed.

(** At a terminator [strtok] finds no token. *)
Lemma strtok_at_end buffer s delim :
  is_nul (char_at buffer s) = true ->
  strtok buffer s delim = (None, buffer, s).
Proof.
  intros H. unfold strtok.
  assert (H0 : strspn (advance s buffer) delim = 0%nat).
  { destruct (advance s buffer) as [|c r] eqn:Ha; [reflexivity|].
    cbn [strspn].
    assert (Hc : char_at (advance s buffer) 0 = c) by (rewrite Ha; reflexivity).
    rewrite char_at_advance, Nat.add_0_r in Hc. subst c. rewrite H. reflexivity. }
  rewrite H0, Nat.add_0_r, H. reflexivity.
Qed.

Lemma strspn_all set : forall s,
  chars (fun c => is_nul c || member c set) s = true ->
  strspn s set = strlen s.
Proof.
  induction s as [|c s IH]; intros H; [reflexivity|].
  cbn [chars] in H. apply andb_true_iff in H. destruct H as [Hc Hs].
  cbn [strspn strlen]. destruct (is_nul c); [reflexivity|].
  cbn [orb] in Hc. rewrite Hc, (IH Hs). reflexivity.
Qed.

Lemma strspn_none set s :
  is_nul (char_at s 0) = false ->
  member (char_at s 0) set = false ->
  strspn s set = 0%nat /\ (1 <= strlen s)%nat.
Proof.
  destruct s as [|c s]; [discriminate|]. change (char_at (String c s) 0) with c.
  intros Hn Hm. cbn [strspn strlen]. rewrite Hn, Hm. split; [reflexivity|lia].
Qed.

Lemma blank_is_no_separator c :
  member c BLANKS = true -> member c SEPARATOR_CURRENCY = false.
Proof.
  unfold BLANKS. cbn [member].
  change (is_nul " ") with false. change (is_nul CR) with false.
  change (is_nul (ascii_of_nat 10)) with false. change (is_nul TAB) with false.
  cbn iota. rewrite orb_false_r. intros H.
  repeat (apply orb_true_iff in H; destruct H as [H|H]);
    apply Ascii.eqb_eq in H; subst c; reflexivity.
Qed.

Section Lines.
Context {float : Type}.
Implicit Types (m : gmap nat (@cell float)) (buckets : list bucket).

(** The four fields of a line, as the four calls of [strtok] cut them:
    the euros are what precedes the first [,] or [.] after the category,
    the cents what follows it up to a blank or the end. *)
Lemma processEntry_fields m lineno buckets s0 day d1 s1 name d2 T p cds tail :
  only SEPARATOR_CSV s0 = true ->
  free_of SEPARATOR_CSV day = true -> day <> EmptyString ->
  member d1 SEPARATOR_CSV = true ->
  only SEPARATOR_CSV s1 = true ->
  free_of SEPARATOR_CSV name = true -> name <> EmptyString ->
  member d2 SEPARATOR_CSV = true ->
  free_of SEPARATOR_CURRENCY T = true -> T <> EmptyString ->
  member p SEPARATOR_CURRENCY = true ->
  free_of SEPARATOR_CSV cds = true -> cds <> EmptyString ->
  exists tail',
    (tail' = tail \/ exists k, tail' = poke tail k NUL) /\
    processEntry m lineno
      (s0 +:+ day +:+ String d1
         (s1 +:+ name +:+ String d2 (T +:+ String p (cds +:+ tail))))
      buckets =
      (e ← atoi (T +:+ String NUL (cds +:+ tail'));
       total ← as_int (e * 100);
       c ← atoi (cds +:+ tail');
       buckets' ← addEntryToBucket name
                    (if is_set m inverse
                     then - (if total >=? 0 then total + c else total - c)
                     else if total >=? 0 then total + c else total - c)
                    buckets;
       Some (buckets', None)).
Proof.
  intros Hs0 Hday Hday0 Hd1 Hs1 Hname Hname0 Hd2 HT HT0 Hp Hcds' Hcds0.
  destruct (strtok_first cds tail SEPARATOR_CSV Hcds' Hcds0)
    as (tail' & save & Hfirst & Htail').
  exists tail'. split; [exact Htail'|].
  set (R3 := cds +:+ tail) in *.
  set (R2 := T +:+ String p R3) in *.
  set (R1 := s1 +:+ name +:+ String d2 R2) in *.
  unfold processEntry.
  (* the day *)
  rewrite (strtok_token s0 day d1 R1 SEPARATOR_CSV Hs0 Hday Hday0 Hd1).
  set (P1 := s0 +:+ day +:+ String NUL EmptyString).
  assert (HP1 : String.length P1 = S (String.length s0 + String.length day)).
  { unfold P1. rewrite !length_append. simpl. lia. }
  rewrite (regroup s0 day NUL R1). fold P1. rewrite <- HP1.
  rewrite <- (Nat.add_0_r (String.length P1)) at 1.
  (* the category *)
  rewrite (strtok_app P1 R1 0 SEPARATOR_CSV). unfold R1 at 1.
  rewrite (strtok_token s1 name d2 R2 SEPARATOR_CSV Hs1 Hname Hname0 Hd2).
  cbv beta iota.
  set (P2 := P1 +:+ s1 +:+ name +:+ String NUL EmptyString).
  assert (HP2 : String.length P2
                = (String.length P1 + S (String.length s1 + String.length name))%nat).
  { unfold P2. rewrite !length_append. simpl. lia. }
  replace (P1 +:+ s1 +:+ name +:+ String NUL R2) with (P2 +:+ R2).
  2:{ unfold P2. rewrite (regroup s1 name NUL R2), !append_assoc.
      reflexivity. }
  rewrite <- HP2. rewrite <- (Nat.add_0_r (String.length P2)) at 1.
  (* the euros *)
  rewrite (strtok_app P2 R2 0 SEPARATOR_CURRENCY). unfold R2 at 1.
  change (T +:+ String p R3) with (EmptyString +:+ T +:+ String p R3).
  rewrite (strtok_token EmptyString T p R3 SEPARATOR_CURRENCY eq_refl HT HT0 Hp).
  cbv beta iota.
  change (EmptyString +:+ T +:+ String NUL R3) with (T +:+ String NUL R3).
  set (P3 := P2 +:+ T +:+ String NUL EmptyString).
  assert (HP3 : String.length P3
                = (String.length P2 + S (String.length EmptyString + String.length T))%nat).
  { unfold P3. rewrite !length_append. simpl. lia. }
  replace (P2 +:+ T +:+ String NUL R3) with (P3 +:+ R3).
  2:{ unfold P3. rewrite !append_assoc. reflexivity. }
  rewrite <- HP3. rewrite <- (Nat.add_0_r (String.length P3)) at 1.
  (* the cents *)
  rewrite (strtok_app P3 R3 0 SEPARATOR_CSV). rewrite Hfirst.
  cbv beta iota. cbn [fmap option_fmap option_map].
  (* the line as the four calls leave it *)
  assert (Heuros : advance (String.length P2 + String.length EmptyString)
                     (P3 +:+ cds +:+ tail')
                   = T +:+ String NUL (cds +:+ tail')).
  { unfold P3. rewrite !append_assoc.
    rewrite (advance_app P2). reflexivity. }
  assert (Hcents : advance (String.length P3 + 0) (P3 +:+ cds +:+ tail')
                   = cds +:+ tail').
  { rewrite (advance_app P3). reflexivity. }
  assert (Hcat : advance (String.length P1 + String.length s1)
                   (P3 +:+ cds +:+ tail')
                 = name +:+ String NUL (T +:+ String NUL (cds +:+ tail'))).
  { unfold P3, P2. rewrite !append_assoc.
    rewrite (advance_app P1), (advance_length s1). reflexivity. }
  rewrite Heuros, Hcents, Hcat.
  destruct (c_str_token name (T +:+ String NUL (cds +:+ tail'))
              (free_of_weaken _ _ Hname)) as [Hc1 Hc2].
  destruct (atoi (T +:+ String NUL (cds +:+ tail'))) as [e|]; [|reflexivity].
  cbn [mbind option_bind].
  destruct (as_int (e * 100)) as [total|]; [|reflexivity].
  cbn [mbind option_bind].
  destruct (atoi (cds +:+ tail')) as [c|]; [|reflexivity].
  cbn [mbind option_bind].
  rewrite (addEntryToBucket_c_str _ name) by (rewrite Hc1, Hc2; reflexivity).
  reflexivity.
Qed.

Lemma euros_token ws (negative : bool) eds :
  only SEPARATOR_CSV ws = true ->
  chars is_digit eds = true -> eds <> EmptyString ->
  let T := ws +:+ (if negative then "-" else "") +:+ eds in
  free_of SEPARATOR_CURRENCY T = true /\ T <> EmptyString.
Proof.
  intros Hws Heds Heds0 T. split.
  - unfold T, free_of. rewrite !chars_app. repeat (apply andb_true_iff; split).
    + revert Hws. apply chars_impl. intros c Hc.
      destruct (separator_plain c Hc) as [-> ->]. reflexivity.
    + destruct negative; reflexivity.
    + revert Heds. apply chars_impl. intros c Hc.
      destruct (is_digit_plain c Hc) as (-> & _ & ->). reflexivity.
  - unfold T. destruct ws; [|discriminate]. destruct negative; [discriminate|].
    exact Heds0.
Qed.

Lemma cents_token cds :
  chars is_digit cds = true -> free_of SEPARATOR_CSV cds = true.
Proof.
  apply chars_impl. intros c Hc.
  destruct (is_digit_plain c Hc) as (-> & -> & _). reflexivity.
Qed.

(** X17.  A line that holds a day, a category, and an amount written as
    euros, a separator [,] or [.], and cents, is an entry: its amount in
    cents is added to the bucket of its category, negated when [inverse]
    is set, and no warning is printed.  The cents are read as a number
    of their own, whatever the count of their digits, and the minus sign
    of the euros is lost when the euros are zero. *)
Theorem processEntry_entry m lineno buckets
    s0 day d1 s1 name d2 ws (negative : bool) eds p cds tail :
  only SEPARATOR_CSV s0 = true ->
  free_of SEPARATOR_CSV day = true -> day <> EmptyString ->
  member d1 SEPARATOR_CSV = true ->
  only SEPARATOR_CSV s1 = true ->
  free_of SEPARATOR_CSV name = true -> name <> EmptyString ->
  member d2 SEPARATOR_CSV = true ->
  only SEPARATOR_CSV ws = true ->
  chars is_digit eds = true -> eds <> EmptyString ->
  member p SEPARATOR_CURRENCY = true ->
  chars is_digit cds = true -> cds <> EmptyString ->
  ends_number tail = true ->
  decimal eds * 100 <= INT_MAX ->
  decimal cds <= INT_MAX ->
  let line :=
    s0 +:+ day +:+ String d1
      (s1 +:+ name +:+ String d2
         ((ws +:+ (if negative then "-" else "") +:+ eds) +:+ String p
            (cds +:+ tail))) in
  let amount :=
    if negative && (0 <? decimal eds)
    then - (decimal eds * 100 + decimal cds)
    else decimal eds * 100 + decimal cds in
  processEntry m lineno line buckets =
    buckets' ← addEntryToBucket name
                 (if is_set m inverse then - amount else amount) buckets;
    Some (buckets', None).
Proof.
  intros Hs0 Hday Hday0 Hd1 Hs1 Hname Hname0 Hd2 Hws Heds Heds0 Hp Hcds Hcds0
    Htail HE HC line amount.
  destruct (euros_token ws negative eds Hws Heds Heds0) as [HT HT0].
  set (T := ws +:+ (if negative then "-" else "") +:+ eds) in *.
  destruct (processEntry_fields m lineno buckets s0 day d1 s1 name d2 T p cds tail
              Hs0 Hday Hday0 Hd1 Hs1 Hname Hname0 Hd2 HT HT0 Hp
              (cents_token cds Hcds) Hcds0) as (tail' & Htail' & Hfields).
  unfold line. rewrite Hfields. clear Hfields.
  assert (Hend' : ends_number tail' = true).
  { destruct Htail' as [->|[k ->]]; [exact Htail|].
    apply ends_number_poke. exact Htail. }
  pose proof (decimal_from_nonneg eds 0 Heds ltac:(lia)) as HE0.
  fold (decimal eds) in HE0.
  pose proof (decimal_from_nonneg cds 0 Hcds ltac:(lia)) as HC0.
  fold (decimal cds) in HC0.
  assert (Ha : atoi (T +:+ String NUL (cds +:+ tail'))
               = Some (if negative then - decimal eds else decimal eds)).
  { unfold T. rewrite !append_assoc.
    apply (atoi_number ws negative eds (String NUL (cds +:+ tail')) Hws Heds Heds0
             eq_refl).
    lia. }
  rewrite Ha.
  cbn [mbind option_bind].
  assert (Hint : as_int ((if negative then - decimal eds else decimal eds) * 100)
                 = Some ((if negative then - decimal eds else decimal eds) * 100)).
  { unfold as_int, INT_MIN, INT_MAX in *.
    destruct negative.
    - replace (- 2 ^ 31 <=? - decimal eds * 100) with true
        by (symmetry; apply Z.leb_le; lia).
      replace (- decimal eds * 100 <=? 2 ^ 31 - 1) with true
        by (symmetry; apply Z.leb_le; lia).
      reflexivity.
    - replace (- 2 ^ 31 <=? decimal eds * 100) with true
        by (symmetry; apply Z.leb_le; lia).
      replace (decimal eds * 100 <=? 2 ^ 31 - 1) with true
        by (symmetry; apply Z.leb_le; lia).
      reflexivity. }
  rewrite Hint. cbn [mbind option_bind].
  rewrite (atoi_number EmptyString false cds tail' eq_refl Hcds Hcds0 Hend' HC
            : atoi (cds +:+ tail') = _).
  cbn [mbind option_bind].
  assert (Hamount :
    (if (if negative then - decimal eds else decimal eds) * 100 >=? 0
     then (if negative then - decimal eds else decimal eds) * 100 + decimal cds
     else (if negative then - decimal eds else decimal eds) * 100 - decimal cds)
    = amount).
  { unfold amount. rewrite Z.geb_leb. destruct negative; cbn [andb].
    - destruct (0 <? decimal eds) eqn:Hpos.
      + apply Z.ltb_lt in Hpos.
        replace (0 <=? - decimal eds * 100) with false
          by (symmetry; apply Z.leb_gt; lia).
        lia.
      + apply Z.ltb_ge in Hpos.
        replace (0 <=? - decimal eds * 100) with true
          by (symmetry; apply Z.leb_le; lia).
        lia.
    - replace (0 <=? decimal eds * 100) with true
        by (symmetry; apply Z.leb_le; lia).
      reflexivity. }
  rewrite Hamount. reflexivity.
Qed.

(** X24.  An amount of 21474837 euros or more is beyond the program:
    when the euros of a line, multiplied by 100, do not fit an [int],
    what [processEntry] does is undefined ([atoi] cannot represent the
    euros, or the multiplication overflows). *)
Theorem processEntry_large_amount_is_undefined m lineno buckets
    s0 day d1 s1 name d2 ws (negative : bool) eds p cds tail :
  only SEPARATOR_CSV s0 = true ->
  free_of SEPARATOR_CSV day = true -> day <> EmptyString ->
  member d1 SEPARATOR_CSV = true ->
  only SEPARATOR_CSV s1 = true ->
  free_of SEPARATOR_CSV name = true -> name <> EmptyString ->
  member d2 SEPARATOR_CSV = true ->
  only SEPARATOR_CSV ws = true ->
  chars is_digit eds = true -> eds <> EmptyString ->
  member p SEPARATOR_CURRENCY = true ->
  chars is_digit cds = true -> cds <> EmptyString ->
  INT_MAX < decimal eds * 100 ->
  processEntry m lineno
    (s0 +:+ day +:+ String d1
       (s1 +:+ name +:+ String d2
          ((ws +:+ (if negative then "-" else "") +:+ eds) +:+ String p
             (cds +:+ tail))))
    buckets
  = None.
Proof.
  intros Hs0 Hday Hday0 Hd1 Hs1 Hname Hname0 Hd2 Hws Heds Heds0 Hp Hcds Hcds0 HE.
  destruct (euros_token ws negative eds Hws Heds Heds0) as [HT HT0].
  set (T := ws +:+ (if negative then "-" else "") +:+ eds) in *.
  destruct (processEntry_fields m lineno buckets s0 day d1 s1 name d2 T p cds tail
              Hs0 Hday Hday0 Hd1 Hs1 Hname Hname0 Hd2 HT HT0 Hp
              (cents_token cds Hcds) Hcds0) as (tail' & _ & Hfields).
  rewrite Hfields. clear Hfields.
  pose proof (atoi_value ws negative eds (String NUL (cds +:+ tail')) Hws Heds Heds0
                eq_refl) as Ha.
  unfold T. rewrite !append_assoc. rewrite Ha. clear Ha.
  pose proof (decimal_from_nonneg eds 0 Heds ltac:(lia)) as HE0.
  fold (decimal eds) in HE0.
  set (v := if negative then - decimal eds else decimal eds).
  cbv zeta.
  set (clamped := if LONG_MAX <? v then LONG_MAX
                  else if v <? LONG_MIN then LONG_MIN else v).
  destruct (as_int clamped) as [e0|] eqn:Hin; [|reflexivity].
  cbn [mbind option_bind].
  apply as_int_Some in Hin. destruct Hin as [-> [H1 H2]].
  assert (Hv : clamped = v).
  { unfold clamped in *. unfold INT_MIN, INT_MAX, LONG_MAX, LONG_MIN in *.
    destruct (2 ^ 63 - 1 <? v) eqn:Hb1; [lia|].
    destruct (v <? - 2 ^ 63) eqn:Hb2; [lia|]. reflexivity. }
  rewrite Hv in *.
  assert (Hmul : as_int (v * 100) = None).
  { unfold as_int, INT_MIN, INT_MAX in *. unfold v in *.
    destruct negative.
    - replace (- 2 ^ 31 <=? - decimal eds * 100) with false
        by (symmetry; apply Z.leb_gt; lia).
      reflexivity.
    - replace (decimal eds * 100 <=? 2 ^ 31 - 1) with false
        by (symmetry; apply Z.leb_gt; lia).
      rewrite andb_false_r. reflexivity. }
  rewrite Hmul. reflexivity.
Qed.

(** X18.  A line with no [,] and no [.] is never an entry: the buckets
    stay as they are.  When the line is made of blanks alone nothing is
    printed; when its first character is not a blank the warning for the
    line is printed. *)
Theorem processEntry_without_separator m lineno line buckets :
  chars (fun c => negb (member c SEPARATOR_CURRENCY)) line = true ->
  exists warning,
    processEntry m lineno line buckets = Some (buckets, warning) /\
    (chars (fun c => member c BLANKS) line = true -> warning = None) /\
    (is_nul (char_at line 0) = false ->
     member (char_at line 0) BLANKS = false ->
     warning = Some lineno).
Proof.
  intros Hsep. unfold processEntry.
  pose proof (strtok_keeps line 0 SEPARATOR_CSV) as K1.
  destruct (strtok line 0 SEPARATOR_CSV) as [[day line1] save1].
  destruct K1 as [K1 H1].
  pose proof (strtok_keeps line1 save1 SEPARATOR_CSV) as K2.
  destruct (strtok line1 save1 SEPARATOR_CSV) as [[name line2] save2].
  destruct K2 as [K2 H2].
  assert (Hsep2 : chars (fun c => negb (member c SEPARATOR_CURRENCY)) line2 = true).
  { apply K2; [reflexivity|]. apply K1; [reflexivity|exact Hsep]. }
  pose proof (strtok_no_delimiter line2 save2 SEPARATOR_CURRENCY Hsep2) as K3.
  destruct (strtok line2 save2 SEPARATOR_CURRENCY) as [[euros line3] save3].
  destruct K3 as [-> K3].
  rewrite (strtok_at_end line2 save3 SEPARATOR_CSV K3).
  assert (Helse :
    match day, name, euros, @None nat with
    | Some _, Some name0, Some euros0, Some cents =>
        e ← atoi (advance euros0 line2);
        total ← as_int (e * 100);
        c ← atoi (advance cents line2);
        buckets' ← addEntryToBucket (advance name0 line2)
                     (if is_set m inverse
                      then - (if total >=? 0 then total + c else total - c)
                      else if total >=? 0 then total + c else total - c)
                     buckets;
        Some (buckets', None)
    | _, _, _, _ =>
        if negb (strspn line2 BLANKS =? strlen line2)%nat
        then Some (buckets, Some lineno)
        else Some (buckets, None)
    end
    = if negb (strspn line2 BLANKS =? strlen line2)%nat
      then Some (buckets, Some lineno)
      else Some (buckets, None)).
  { destruct day, name, euros; reflexivity. }
  rewrite Helse. clear Helse.
  destruct (strspn line2 BLANKS =? strlen line2)%nat eqn:Hcmp; cbn [negb].
  - exists None. split; [reflexivity|]. split; [reflexivity|].
    intros Hn Hm. exfalso.
    rewrite <- H1, <- H2 in Hn, Hm.
    destruct (strspn_none BLANKS line2 Hn Hm) as [Hz Hl].
    apply Nat.eqb_eq in Hcmp. lia.
  - exists (Some lineno). split; [reflexivity|]. split; [|reflexivity].
    intros Hb. exfalso. apply Nat.eqb_neq in Hcmp. apply Hcmp.
    apply strspn_all. apply K2; [reflexivity|]. apply K1; [reflexivity|].
    revert Hb. apply chars_impl. intros c ->. apply orb_true_r.
Qed.

End Lines.

(** * Properties of the input and of the loop of [main] *)

Section MainProperties.
Context {float : Type} (strtof : string -> float * string * Z).
Implicit Types (m : gmap nat (@cell float)) (buckets : list bucket).

(** X19.  [main] reads the first argument that the parser leaves, and
    the standard input when it leaves none; the arguments after the
    first are not looked at.  What the parser leaves is what the reading
    of the arguments finds: the positional arguments, then those it did
    not read.  When the file cannot be opened the process ends with the
    failure status, and when the parser ends the process, so does
    [main]. *)
Theorem main_input_reads_first_residual (world : World) allocated first toks extra :
  main_input strtof world allocated (Z.of_nat (S (length toks)))
    (argument_vector first toks extra) =
  match scan strtof false bud_options 0 toks start with
  | Terminate t e => ParserEnds t e
  | Continue (positionals, unread, e) =>
      match positionals ++ unread with
      | [] => Goes (standard_input world, memory e)
      | path :: _ =>
          match fopen_r world (c_str path) with
          | inl input => Goes (input, memory e)
          | inr errnum => ExitFailure (c_str path) errnum
          end
      end
  end.
Proof.
  unfold main_input.
  change (self1 ← Argparser_setUsage (Argparser_init allocated bud_options)
                    (Some bud_usage) start;
          self2 ← Argparser_setDescription self1 (Some bud_description) start;
          Argparser_parse strtof self2 (Z.of_nat (S (length toks)))
            (argument_vector first toks extra) start)
    with (parse_arguments strtof bud_parser first toks extra start).
  rewrite (parse_arguments_scan strtof bud_parser first toks extra start eq_refl eq_refl).
  change (stopAtNonOption bud_parser) with false.
  change (options bud_parser) with (@bud_options float).
  destruct (scan strtof false bud_options 0 toks start) as [[[ps unread] e]|t e];
    [|reflexivity].
  unfold mbind, outcome_bind. cbv beta iota.
  unfold chooseInput.
  destruct (ps ++ unread) as [|path residual]; [reflexivity|].
  replace (Z.of_nat (length (path :: residual)) <=? 0) with false
    by (symmetry; apply Z.leb_gt; simpl; lia).
  cbn [fmap list_fmap app lookup list_lookup].
  destruct (fopen_r world (c_str path)); reflexivity.
Qed.

(** ** The reading loop *)

Lemma fgets_read_line : forall l n rest,
  chars (fun c => negb (Ascii.eqb c (ascii_of_nat 10))) l = true ->
  (String.length l < n)%nat ->
  fgets_read n (l +:+ String (ascii_of_nat 10) rest)
  = (l +:+ String (ascii_of_nat 10) EmptyString, rest).
Proof.
  induction l as [|c l IH]; intros n rest Hl Hn.
  - destruct n; [cbn in Hn; lia|]. reflexivity.
  - cbn [chars] in Hl. apply andb_true_iff in Hl. destruct Hl as [Hc Hl].
    apply negb_true_iff in Hc. cbn [String.length] in Hn.
    destruct n as [|n]; [lia|].
    change (String c l +:+ String (ascii_of_nat 10) rest)
      with (String c (l +:+ String (ascii_of_nat 10) rest)).
    cbn [fgets_read]. rewrite Hc, (IH n rest Hl ltac:(lia)). reflexivity.
Qed.

Lemma fgets_read_full : forall l n rest,
  chars (fun c => negb (Ascii.eqb c (ascii_of_nat 10))) l = true ->
  String.length l = n \/ rest = EmptyString /\ (String.length l <= n)%nat ->
  fgets_read n (l +:+ rest) = (l, rest).
Proof.
  induction l as [|c l IH]; intros n rest Hl Hn.
  - destruct Hn as [Hn|[-> Hn]].
    + cbn in Hn. subst n. reflexivity.
    + destruct n; reflexivity.
  - cbn [chars] in Hl. apply andb_true_iff in Hl. destruct Hl as [Hc Hl].
    apply negb_true_iff in Hc. cbn [String.length] in Hn.
    assert (Hn' : (1 <= n)%nat) by (destruct Hn as [Hn|[_ Hn]]; lia).
    destruct n as [|n]; [lia|].
    change (String c l +:+ rest) with (String c (l +:+ rest)).
    cbn [fgets_read]. rewrite Hc.
    rewrite (IH n rest Hl); [reflexivity|].
    destruct Hn as [Hn|[-> Hn]]; [left; lia|right; split; [reflexivity|lia]].
Qed.

(** X20.  The loop of [main] hands to [processEntry] a line with its
    line feed when the line has at most 254 characters before it, and
    the last line as it is when it has no line feed and at most 255
    characters; of a longer line it hands over the first 255 characters,
    and what follows them is read as the next line, with the next
    number. *)
Theorem read_entries_buffer fuel m lineno buckets warnings l eol rest :
  chars (fun c => negb (Ascii.eqb c (ascii_of_nat 10))) l = true ->
  (eol = String (ascii_of_nat 10) EmptyString /\ (String.length l <= 254)%nat) \/
  (eol = EmptyString /\ String.length l = 255%nat) \/
  (eol = EmptyString /\ rest = EmptyString /\
   (1 <= String.length l <= 255)%nat) ->
  read_entries (S fuel) m lineno ((l +:+ eol) +:+ rest) buckets warnings =
    match processEntry m lineno (l +:+ eol) buckets with
    | Some (buckets', warning) =>
        read_entries fuel m ((lineno + 1) mod 2 ^ 32) rest buckets'
          (warnings ++ match warning with Some n => [n] | None => [] end)
    | None => Undefined
    end.
Proof.
  intros Hl Hcase. cbn [read_entries].
  assert (Hf : fgets BUFFERSIZE ((l +:+ eol) +:+ rest)
               = Some (l +:+ eol, rest)).
  { unfold fgets, BUFFERSIZE. change (256 - 1)%nat with 255%nat.
    destruct Hcase as [[-> Hn]|[[-> Hn]|(-> & -> & Hn)]].
    - rewrite append_assoc.
      change (String (ascii_of_nat 10) EmptyString +:+ rest)
        with (String (ascii_of_nat 10) rest).
      rewrite (fgets_read_line l 255 rest Hl ltac:(lia)).
      destruct l; reflexivity.
    - assert (Hl0 : l +:+ EmptyString = l).
      { clear. induction l as [|c l IH]; [reflexivity|].
        change (String c (l +:+ EmptyString) = String c l). rewrite IH. reflexivity. }
      rewrite Hl0, (fgets_read_full l 255 rest Hl ltac:(left; lia)).
      destruct l; [cbn in Hn; lia|reflexivity].
    - assert (Hl0 : l +:+ EmptyString = l).
      { clear. induction l as [|c l IH]; [reflexivity|].
        change (String c (l +:+ EmptyString) = String c l). rewrite IH. reflexivity. }
      rewrite !Hl0.
      pose proof (fgets_read_full l 255 EmptyString Hl
                    ltac:(right; split; [reflexivity|lia])) as Hr.
      rewrite Hl0 in Hr. rewrite Hr.
      destruct l; [cbn in Hn; lia|reflexivity]. }
  rewrite Hf. reflexivity.
Qed.

Lemma fgets_shorter size stream buffer rest :
  (2 <= size)%nat ->
  fgets size stream = Some (buffer, rest) ->
  (String.length rest < String.length stream)%nat.
Proof.
  intros Hsize. unfold fgets. destruct stream as [|c stream]; [discriminate|].
  intros H. injection H as H.
  destruct (size - 1)%nat as [|n] eqn:Hn; [lia|].
  cbn [fgets_read] in H.
  destruct (Ascii.eqb c (ascii_of_nat 10)).
  - injection H as _ <-. cbn. lia.
  - destruct (fgets_read n stream) as [b r] eqn:Hr. injection H as _ <-.
    cbn [String.length].
    assert (String.length r <= String.length stream)%nat; [|lia].
    clear -Hr. revert stream b r Hr.
    induction n as [|n IH]; intros stream b r Hr.
    + destruct stream; injection Hr as _ <-; lia.
    + destruct stream as [|c stream]; [injection Hr as _ <-; lia|].
      cbn [fgets_read] in Hr. destruct (Ascii.eqb c (ascii_of_nat 10)).
      * injection Hr as _ <-. cbn. lia.
      * destruct (fgets_read n stream) as [b' r'] eqn:Hr'.
        injection Hr as _ <-. specialize (IH _ _ _ Hr'). cbn. lia.
Qed.

(** What [processEntry] keeps: a line that is warned about changes
    nothing, and distinct categories stay distinct. *)
Lemma addEntryToBucket_distinct name cents buckets buckets' :
  addEntryToBucket name cents buckets = Some buckets' ->
  distinct_categories buckets -> distinct_categories buckets'.
Proof.
  unfold addEntryToBucket. intros H.
  destruct (add_to_category name cents buckets) as [found|] eqn:Hf;
    [|discriminate].
  apply add_to_category_Some in Hf.
  destruct found as [bs|].
  - injection H as <-. destruct Hf as [Hh Hc]. unfold distinct_categories.
    rewrite !(list_fmap_compose category c_str), Hc. auto.
  - injection H as <-.
    unfold distinct_categories. cbn [fmap list_fmap category]. intros Hd.
    apply NoDup_cons. split; [|exact Hd].
    unfold strdup. rewrite c_str_idem. intros Hin.
    apply has_category_elem in Hin. congruence.
Qed.

Lemma processEntry_distinct m lineno line buckets buckets' warning :
  processEntry m lineno line buckets = Some (buckets', warning) ->
  distinct_categories buckets -> distinct_categories buckets'.
Proof.
  unfold processEntry.
  destruct (strtok line 0 SEPARATOR_CSV) as [[day line1] save1].
  destruct (strtok line1 save1 SEPARATOR_CSV) as [[name line2] save2].
  destruct (strtok line2 save2 SEPARATOR_CURRENCY) as [[euros line3] save3].
  destruct (strtok line3 save3 SEPARATOR_CSV) as [[cents line4] save4].
  assert (Helse : forall r : option (list bucket * option Z),
    (if negb (strspn line4 BLANKS =? strlen line4)%nat
     then Some (buckets, Some lineno) else Some (buckets, None)) = Some (buckets', warning) ->
    distinct_categories buckets -> distinct_categories buckets').
  { intros _ H. destruct (negb _); injection H as <- _; auto. }
  destruct day as [day|]; [|apply (Helse None)].
  destruct name as [name|]; [|apply (Helse None)].
  destruct euros as [euros|]; [|apply (Helse None)].
  destruct cents as [cents|]; [|apply (Helse None)].
  destruct (atoi (advance euros line4)) as [e|]; [|discriminate].
  cbn [mbind option_bind].
  destruct (as_int (e * 100)) as [total|]; [|discriminate].
  cbn [mbind option_bind].
  destruct (atoi (advance cents line4)) as [c|]; [|discriminate].
  cbn [mbind option_bind].
  destruct (addEntryToBucket _ _ buckets) as [bs|] eqn:Hadd; [|discriminate].
  cbn [mbind option_bind]. intros H. injection H as <- _.
  eapply addEntryToBucket_distinct. exact Hadd.
Qed.

Lemma read_entries_keeps : forall fuel m lineno input buckets warnings buckets' warnings',
  read_entries fuel m lineno input buckets warnings = Goes (buckets', warnings') ->
  distinct_categories buckets -> distinct_categories buckets'.
Proof.
  induction fuel as [|fuel IH]; intros m lineno input buckets warnings bs ws H Hd;
    [discriminate|].
  cbn [read_entries] in H.
  destruct (fgets BUFFERSIZE input) as [[buffer rest]|].
  - destruct (processEntry m lineno buffer buckets) as [[bs1 w]|] eqn:Hp;
      [|discriminate].
    eapply IH; [exact H|]. eapply processEntry_distinct; eassumption.
  - injection H as <- _. exact Hd.
Qed.

Lemma read_entries_fuel : forall fuel m lineno input buckets warnings,
  (String.length input < fuel)%nat ->
  read_entries fuel m lineno input buckets warnings <> Unfinished.
Proof.
  induction fuel as [|fuel IH]; intros m lineno input buckets warnings Hf; [lia|].
  cbn [read_entries].
  destruct (fgets BUFFERSIZE input) as [[buffer rest]|] eqn:Hg; [|discriminate].
  destruct (processEntry m lineno buffer buckets) as [[bs1 w]|]; [|discriminate].
  apply IH. apply fgets_shorter in Hg; [lia|unfold BUFFERSIZE; lia].
Qed.

Lemma calculateTotals_loop_Some : forall buckets positive negative p n,
  calculateTotals_loop buckets positive negative = Some (p, n) ->
  0 <= positive -> negative <= 0 ->
  0 <= p /\ n <= 0 /\
  p + n = positive + negative + sum_of buckets /\
  p - n = positive - negative + sum_of_magnitudes buckets.
Proof.
  unfold sum_of, sum_of_magnitudes.
  induction buckets as [|b buckets IH]; intros positive negative p n H Hp Hn.
  - injection H as <- <-. simpl. lia.
  - cbn [calculateTotals_loop foldr] in *.
    destruct (totalCents b >=? 0) eqn:Hs.
    + rewrite Z.geb_leb in Hs. apply Z.leb_le in Hs.
      destruct (as_long (positive + totalCents b)) as [x|] eqn:Hx; [|discriminate].
      apply as_long_Some in Hx. destruct Hx as [-> _].
      cbn [mbind option_bind] in H.
      destruct (IH _ _ _ _ H ltac:(lia) Hn) as (? & ? & ? & ?). lia.
    + rewrite Z.geb_leb in Hs. apply Z.leb_gt in Hs.
      destruct (as_long (negative + totalCents b)) as [x|] eqn:Hx; [|discriminate].
      apply as_long_Some in Hx. destruct Hx as [-> _].
      cbn [mbind option_bind] in H.
      destruct (IH _ _ _ _ H Hp ltac:(lia)) as (? & ? & ? & ?). lia.
Qed.

(** X21.  The reading loop of [main] always comes to the end of its
    input, and when [main] reaches the call of [printBuckets], no two
    buckets have the same category, the positive total is not negative,
    the negative total is not positive, their sum is the sum of all the
    buckets and their difference the sum of the magnitudes. *)
Theorem main_totals_invariants (world : World) allocated count vector :
  main_totals strtof world allocated count vector <> Unfinished /\
  forall buckets warnings p n,
    main_totals strtof world allocated count vector
      = Goes (buckets, warnings, (p, n)) ->
    distinct_categories buckets /\
    0 <= p /\ n <= 0 /\
    p + n = sum_of buckets /\
    p - n = sum_of_magnitudes buckets.
Proof.
  unfold main_totals.
  destruct (main_input strtof world allocated count vector) as [[input m]| | | |] eqn:Hin.
  2-4: split; [discriminate|intros; discriminate].
  2:{ exfalso. unfold main_input in Hin.
      destruct (_ ≫= _) as [[[[? ?] ?] ?]|]; [|discriminate].
      unfold chooseInput in Hin. destruct (_ <=? 0); [discriminate|].
      destruct (_ !! _) as [[path|]|]; try discriminate.
      destruct (fopen_r world (c_str path)); discriminate. }
  pose proof (read_entries_fuel (S (String.length input)) m 1 input [] []
                ltac:(lia)) as Hfuel.
  destruct (read_entries (S (String.length input)) m 1 input [] [])
    as [[bs ws]| | | |] eqn:Hread.
  2-4: split; [discriminate|intros; discriminate].
  2: contradiction.
  destruct (calculateTotals bs) as [[p n]|] eqn:Hcalc.
  2:{ split; [discriminate|intros; discriminate]. }
  split; [discriminate|].
  intros buckets warnings p' n' H. injection H as <- <- <- <-.
  split.
  - eapply read_entries_keeps; [exact Hread|]. unfold distinct_categories.
    constructor.
  - unfold calculateTotals in Hcalc.
    destruct (calculateTotals_loop_Some _ _ _ _ _ Hcalc ltac:(lia) ltac:(lia))
      as (? & ? & ? & ?).
    repeat split; lia.
Qed.

End MainProperties.

(** ** The sign of the input *)

Lemma add_to_category_negated name cents : forall buckets found found',
  add_to_category name cents buckets = Some found ->
  add_to_category name (- cents) (negated buckets) = Some found' ->
  found' = negated <$> found.
Proof.
  induction buckets as [|b buckets IH]; intros found found' H H'.
  - injection H as <-. injection H' as <-. reflexivity.
  - cbn [negated fmap list_fmap add_to_category category totalCents] in *.
    fold (negated buckets) in *.
    destruct (strcmp name (category b) =? 0).
    + destruct (as_long (totalCents b + cents)) as [t|] eqn:Ht; [|discriminate].
      destruct (as_long (- totalCents b + - cents)) as [t'|] eqn:Ht';
        [|discriminate].
      apply as_long_Some in Ht, Ht'. destruct Ht as [-> _], Ht' as [-> _].
      injection H as <-. injection H' as <-.
      cbn [fmap option_fmap option_map negated list_fmap category totalCents].
      do 3 f_equal. lia.
    + destruct (add_to_category name cents buckets) as [f|]; [|discriminate].
      destruct (add_to_category name (- cents) (negated buckets)) as [f'|];
        [|discriminate].
      injection H as <-. injection H' as <-.
      rewrite (IH f f' eq_refl eq_refl).
      destruct f; reflexivity.
Qed.

Lemma addEntryToBucket_negated name cents buckets buckets1 buckets2 :
  addEntryToBucket name cents buckets = Some buckets1 ->
  addEntryToBucket name (- cents) (negated buckets) = Some buckets2 ->
  buckets2 = negated buckets1.
Proof.
  unfold addEntryToBucket. intros H H'.
  destruct (add_to_category name cents buckets) as [f|] eqn:Hf; [|discriminate].
  destruct (add_to_category name (- cents) (negated buckets)) as [f'|] eqn:Hf';
    [|discriminate].
  rewrite (add_to_category_negated _ _ _ _ _ Hf Hf') in H'.
  destruct f as [bs|]; cbn [fmap option_fmap option_map] in H'.
  - injection H as <-. injection H' as <-. reflexivity.
  - injection H as <-. injection H' as <-. reflexivity.
Qed.

Section Sign.
Context {float : Type}.
Implicit Types (m : gmap nat (@cell float)) (buckets : list bucket).

Lemma processEntry_negated m m' lineno line buckets buckets1 w1 buckets2 w2 :
  is_set m' inverse = negb (is_set m inverse) ->
  processEntry m lineno line buckets = Some (buckets1, w1) ->
  processEntry m' lineno line (negated buckets) = Some (buckets2, w2) ->
  buckets2 = negated buckets1 /\ w2 = w1.
Proof.
  intros Hm. unfold processEntry.
  destruct (strtok line 0 SEPARATOR_CSV) as [[day line1] save1].
  destruct (strtok line1 save1 SEPARATOR_CSV) as [[name line2] save2].
  destruct (strtok line2 save2 SEPARATOR_CURRENCY) as [[euros line3] save3].
  destruct (strtok line3 save3 SEPARATOR_CSV) as [[cents line4] save4].
  assert (Helse : forall r : unit,
    (if negb (strspn line4 BLANKS =? strlen line4)%nat
     then Some (buckets, Some lineno) else Some (buckets, None))
      = Some (buckets1, w1) ->
    (if negb (strspn line4 BLANKS =? strlen line4)%nat
     then Some (negated buckets, Some lineno) else Some (negated buckets, None))
      = Some (buckets2, w2) ->
    buckets2 = negated buckets1 /\ w2 = w1).
  { intros _ H H'.
    destruct (negb (strspn line4 BLANKS =? strlen line4)%nat); split; congruence. }
  destruct day as [day|]; [|apply (Helse tt)].
  destruct name as [name|]; [|apply (Helse tt)].
  destruct euros as [euros|]; [|apply (Helse tt)].
  destruct cents as [cents|]; [|apply (Helse tt)].
  clear Helse.
  destruct (atoi (advance euros line4)) as [e|]; [|discriminate].
  cbn [mbind option_bind].
  destruct (as_int (e * 100)) as [total|]; [|discriminate].
  cbn [mbind option_bind].
  destruct (atoi (advance cents line4)) as [c|]; [|discriminate].
  cbn [mbind option_bind].
  rewrite Hm.
  set (amount := if total >=? 0 then total + c else total - c).
  destruct (is_set m inverse); cbn [negb].
  - destruct (addEntryToBucket (advance name line4) (- amount) buckets)
      as [bs1|] eqn:H1; [|discriminate].
    destruct (addEntryToBucket (advance name line4) amount (negated buckets))
      as [bs2|] eqn:H2; [|discriminate].
    cbn [mbind option_bind]. intros H H'.
    injection H as <- <-. injection H' as <- <-. split; [|reflexivity].
    rewrite <- (Z.opp_involutive amount) in H2.
    exact (addEntryToBucket_negated _ _ _ _ _ H1 H2).
  - destruct (addEntryToBucket (advance name line4) amount buckets)
      as [bs1|] eqn:H1; [|discriminate].
    destruct (addEntryToBucket (advance name line4) (- amount) (negated buckets))
      as [bs2|] eqn:H2; [|discriminate].
    cbn [mbind option_bind]. intros H H'.
    injection H as <- <-. injection H' as <- <-. split; [|reflexivity].
    exact (addEntryToBucket_negated _ _ _ _ _ H1 H2).
Qed.

Lemma read_entries_negated m m' :
  is_set m' inverse = negb (is_set m inverse) ->
  forall fuel lineno input buckets warnings buckets1 w1 buckets2 w2,
  read_entries fuel m lineno input buckets warnings = Goes (buckets1, w1) ->
  read_entries fuel m' lineno input (negated buckets) warnings
    = Goes (buckets2, w2) ->
  buckets2 = negated buckets1 /\ w2 = w1.
Proof.
  intros Hm. induction fuel as [|fuel IH];
    intros lineno input buckets warnings b1 w1 b2 w2 H H'; [discriminate|].
  cbn [read_entries] in H, H'.
  destruct (fgets BUFFERSIZE input) as [[buffer rest]|].
  - destruct (processEntry m lineno buffer buckets) as [[bs ws]|] eqn:Hp;
      [|discriminate].
    destruct (processEntry m' lineno buffer (negated buckets)) as [[bs' ws']|]
      eqn:Hp'; [|discriminate].
    destruct (processEntry_negated _ _ _ _ _ _ _ _ _ Hm Hp Hp') as [-> ->].
    exact (IH _ _ _ _ _ _ _ _ H H').
  - injection H as <- <-. injection H' as <- <-. split; reflexivity.
Qed.

Lemma sum_of_negated buckets :
  sum_of (negated buckets) = - sum_of buckets /\
  sum_of_magnitudes (negated buckets) = sum_of_magnitudes buckets.
Proof.
  unfold sum_of, sum_of_magnitudes, negated.
  induction buckets as [|b buckets [IH1 IH2]]; [split; reflexivity|].
  cbn [fmap list_fmap foldr totalCents]. fold (negated buckets) in *.
  unfold negated in *. rewrite IH1, IH2. split; lia.
Qed.

(** X26.  The option [--inverse] changes the sign of every total and
    nothing else.  Two runs of the reading loop on the same input, one
    with [inverse] set and one without, that both come to their end
    leave the same categories in the same order with opposite totals,
    and print the same warnings; and [calculateTotals] then gives to
    each the totals of the other, exchanged and with their signs
    changed. *)
Theorem inverse_negates_totals m m' fuel input buckets1 w1 buckets2 w2 :
  is_set m' inverse = negb (is_set m inverse) ->
  read_entries fuel m 1 input [] [] = Goes (buckets1, w1) ->
  read_entries fuel m' 1 input [] [] = Goes (buckets2, w2) ->
  buckets2 = negated buckets1 /\ w2 = w1 /\
  forall p n p' n',
    calculateTotals buckets1 = Some (p, n) ->
    calculateTotals buckets2 = Some (p', n') ->
    p' = - n /\ n' = - p.
Proof.
  intros Hm H H'.
  destruct (read_entries_negated m m' Hm fuel 1 input [] [] _ _ _ _ H H')
    as [-> ->].
  split; [reflexivity|]. split; [reflexivity|].
  intros p n p' n' Hc Hc'. unfold calculateTotals in Hc, Hc'.
  destruct (calculateTotals_loop_Some _ _ _ _ _ Hc ltac:(lia) ltac:(lia))
    as (_ & _ & Hs & Hd).
  destruct (calculateTotals_loop_Some _ _ _ _ _ Hc' ltac:(lia) ltac:(lia))
    as (_ & _ & Hs' & Hd').
  destruct (sum_of_negated buckets1) as [Hn1 Hn2].
  rewrite Hn1 in Hs'. rewrite Hn2 in Hd'. lia.
Qed.

End Sign.

(** * The claims on the parser of Bud *)

Open Scope string_scope.

(** [bud_parser] is what the calls of [main] build, whatever the handle
    held before, and [bud_parser_stopping] is one call further. *)
Lemma bud_parser_configured (self : @Argparser unit) :
  (self1 ← Argparser_setUsage (Argparser_init self bud_options)
             (Some bud_usage) start;
   Argparser_setDescription self1 (Some bud_description) start)
  = Continue bud_parser /\
  Argparser_setStopAtNonOption (@bud_parser unit) true start
  = Continue bud_parser_stopping.
Proof. split; reflexivity. Qed.

(** C1, counterexample.  The token [-c=1] is a compound token: its flag
    [c] is set, then [=] matches no entry and the process ends with an
    unknown option; the parser does not return. *)
Lemma short_option_with_equals_is_unknown :
  parse_arguments no_strtof bud_parser (Some "bud") ["-c=1"] [None] start
    = Terminate (ExitDueToUnknownOption "-c=1")
        {| memory := {[colorOutput := BoolCell true]}; called := [] |} /\
  ~ (exists n self' vector' e',
       parse_arguments no_strtof bud_parser (Some "bud") ["-c=1"] [None] start
       = Continue (n, self', vector', e')).
Proof.
  split; [reflexivity|]. intros (n & self' & vector' & e' & H). discriminate H.
Qed.


(** C1, witness: the table of Bud, where the option is the second
    entry: [-c 0] leaves [colorOutput] false, [--color=maybe] is an
    invalid value, and [-c=1] sets [colorOutput] before it ends in an
    unknown option. *)
Lemma boolean_option_values_witness :
  let pre : list (@ArgparserOption unit) := [ARGPARSER_OPT_HELP] in
  let post : list (@ArgparserOption unit) :=
    [ ARGPARSER_OPT_BOOL "i" (Some "inverse") (Some inverse)
        "inverse the sign of all input";
      ARGPARSER_OPT_BOOL NUL (Some "nochart") (Some nochart) "hide the chart";
      ARGPARSER_OPT_BOOL NUL (Some "noheader") (Some noheader) "hide the header";
      ARGPARSER_OPT_BOOL NUL (Some "nototal") (Some nototal) "hide the total";
      ARGPARSER_OPT_END ] in
  (valid (@bud_parser unit) = true /\
   cpidx (@bud_parser unit) = 0%nat /\
   options bud_parser
     = (pre ++ ARGPARSER_OPT_BOOL "c" (Some "color") (Some colorOutput)
                 "display with colors" :: post)%list /\
   Forall (fun o => is_END (type o) = false /\ other_names "c" "color" o) pre /\
   Forall (other_names "c" "color") (entries post) /\
   terminated post /\
   matching (options (@bud_parser unit)) "=" = []) /\
  (exists self' vector',
     parse_arguments no_strtof bud_parser (Some "bud") ["-c"; "0"] [None] start
     = Continue (0, self', vector',
                 {| memory := {[colorOutput := BoolCell false]}; called := [] |})) /\
  parse_arguments no_strtof bud_parser (Some "bud") ["--color=maybe"] [None] start
  = Terminate (ExitDueToError "c" (Some "color")
                 (Message "expects no value, 0, or 1")) start /\
  parse_arguments no_strtof bud_parser (Some "bud") ["-c=1"] [None] start
  = Terminate (ExitDueToUnknownOption "-c=1")
      {| memory := {[colorOutput := BoolCell true]}; called := [] |}.
Proof.
  intros pre post.
  assert (H1 : valid (@bud_parser unit) = true) by reflexivity.
  assert (H2 : cpidx (@bud_parser unit) = 0%nat) by reflexivity.
  assert (H3 : options bud_parser
            = (pre ++ ARGPARSER_OPT_BOOL "c" (Some "color") (Some colorOutput)
                        "display with colors" :: post)%list) by reflexivity.
  assert (H4 : Forall (fun o => is_END (type o) = false /\ other_names "c" "color" o)
                 pre).
  { constructor; [|constructor]. split; [reflexivity|].
    split; [reflexivity|].
    intros name Hname. injection Hname as <-. repeat split; reflexivity. }
  assert (H5 : Forall (other_names "c" "color") (entries post)).
  { unfold post. cbn [entries type is_END ARGPARSER_OPT_BOOL ARGPARSER_OPT_END].
    repeat (constructor;
            [split; [reflexivity|];
             intros name Hname; injection Hname as <-; repeat split; reflexivity|]).
    constructor. }
  assert (H6 : terminated post).
  { unfold terminated, post. do 4 apply Exists_cons_tl.
    apply Exists_cons_hd. reflexivity. }
  assert (H7 : matching (options (@bud_parser unit)) "=" = []) by reflexivity.
  split; [auto 10|].
  destruct (boolean_option_values no_strtof bud_parser (Some "bud") pre post
              colorOutput "display with colors" [None] start H1 H2 H3 H4 H5 H6)
    as (_ & _ & _ & _ & Hzero & _ & Hvalue & Hequals).
  split; [exact Hzero|]. split; [exact (Hvalue "maybe" eq_refl)|exact (Hequals H7)].
Defined.

(** C4, counterexample.  With [stopAtNonOption] set, the plain token [x]
    ends the parsing before [--] is read, and [--] is among the residual
    positionals. *)
Lemma terminator_kept_after_stop :
  exists self' vector',
    parse_arguments no_strtof bud_parser_stopping (Some "bud")
      ["x"; "--"; "y"] [None] start
    = Continue (3, self', vector', start) /\
    take 3 vector' = [Some "x"; Some "--"; Some "y"].
Proof. eexists _, _. split; reflexivity. Qed.

(** C4, witness: the input [-c -- -x file.txt] of the claim, and with
    [stopAtNonOption] set the input [-c 1 -- -x f], where [1] is the
    value of [-c] and the loop reaches [--]. *)
Lemma terminator_ends_option_parsing_witness :
  (valid (@bud_parser unit) = true /\
   cpidx (@bud_parser unit) = 0%nat /\
   Forall (fun t => is_terminator t = false) ["-c"] /\
   valid (@bud_parser_stopping unit) = true /\
   cpidx (@bud_parser_stopping unit) = 0%nat /\
   Forall (fun t => is_terminator t = false) ["-c"; "1"]) /\
  (exists self' vector',
     parse_arguments no_strtof bud_parser (Some "bud")
       ["-c"; "--"; "-x"; "file.txt"] [None] start
     = Continue (2, self', vector',
                 {| memory := {[colorOutput := BoolCell true]}; called := [] |}) /\
     take 2 vector' = [Some "-x"; Some "file.txt"] /\
     vector' !! 2%nat = Some None) /\
  (exists self' vector',
     parse_arguments no_strtof bud_parser_stopping (Some "bud")
       ["-c"; "1"; "--"; "-x"; "f"] [None] start
     = Continue (2, self', vector',
                 {| memory := {[colorOutput := BoolCell true]}; called := [] |}) /\
     take 2 vector' = [Some "-x"; Some "f"] /\
     vector' !! 2%nat = Some None).
Proof.
  assert (H1 : valid (@bud_parser unit) = true) by reflexivity.
  assert (H2 : cpidx (@bud_parser unit) = 0%nat) by reflexivity.
  assert (H3 : Forall (fun t => is_terminator t = false) ["-c"])
    by (repeat constructor).
  assert (H4 : valid (@bud_parser_stopping unit) = true) by reflexivity.
  assert (H5 : cpidx (@bud_parser_stopping unit) = 0%nat) by reflexivity.
  assert (H6 : Forall (fun t => is_terminator t = false) ["-c"; "1"])
    by (repeat constructor).
  split; [auto 10|]. split.
  - pose proof (terminator_ends_option_parsing no_strtof bud_parser (Some "bud")
                  ["-c"] ["-x"; "file.txt"] [None] [None] start H1 H2 H3) as H.
    set (r := parse_arguments no_strtof bud_parser (Some "bud") ["-c"] [None] start) in H.
    vm_compute in r. subst r. cbv beta iota zeta in H.
    destruct H as (residual & self' & vector' & Hm & _ & _ & Hparse & Htake & Hnull).
    destruct residual; [|discriminate Hm].
    exists self', vector'. split; [exact Hparse|]. split; [exact Htake|exact Hnull].
  - pose proof (terminator_ends_option_parsing no_strtof bud_parser_stopping
                  (Some "bud") ["-c"; "1"] ["-x"; "f"] [None] [None] start
                  H4 H5 H6) as H.
    set (r := parse_arguments no_strtof bud_parser_stopping (Some "bud")
                ["-c"; "1"] [None] start) in H.
    vm_compute in r. subst r. cbv beta iota zeta in H.
    destruct H as (residual & self' & vector' & Hm & _ & _ & Hparse & Htake & Hnull).
    destruct residual; [|discriminate Hm].
    exists self', vector'. split; [exact Hparse|]. split; [exact Htake|exact Hnull].
Defined.




(** C7, witness: for the option [-n]/[--count] with the destination 1,
    [12abc] ends the process with 12 written, [0x1F] writes 31 and [017]
    writes 15. *)
Lemma integer_conversion_witness :
  let opt : @ArgparserOption unit :=
    ARGPARSER_OPT_INT "n" (Some "count") (Some 1%nat) "number of lines" in
  (numeral 10 "12" = true /\ "12" <> "" /\
   Ascii.eqb (char_at "12" 0) "0" = false /\
   ends_numeral 10 "abc" = true /\
   Ascii.eqb "x" "x" || Ascii.eqb "x" "X" = true /\
   numeral 16 "1F" = true /\ "1F" <> "" /\
   ends_numeral 16 "" = true /\
   numeral 8 "17" = true /\
   ends_numeral 8 "" = true /\
   Ascii.eqb (char_at "17" 0) "x" || Ascii.eqb (char_at "17" 0) "X" = false) /\
  Argparser_parseValue no_strtof opt (Some "12abc") start
  = Terminate (ExitDueToError "n" (Some "count")
                 (Message "expects an integer value"))
      {| memory := {[1%nat := IntCell 12]}; called := [] |} /\
  Argparser_parseValue no_strtof opt (Some "0x1F") start
  = Continue {| memory := {[1%nat := IntCell 31]}; called := [] |} /\
  Argparser_parseValue no_strtof opt (Some "017") start
  = Continue {| memory := {[1%nat := IntCell 15]}; called := [] |}.
Proof.
  intros opt.
  assert (H1 : numeral 10 "12" = true) by reflexivity.
  assert (H2 : "12" <> "") by discriminate.
  assert (H3 : Ascii.eqb (char_at "12" 0) "0" = false) by reflexivity.
  assert (H4 : ends_numeral 10 "abc" = true) by reflexivity.
  assert (H5 : Ascii.eqb "x" "x" || Ascii.eqb "x" "X" = true) by reflexivity.
  assert (H6 : numeral 16 "1F" = true) by reflexivity.
  assert (H7 : "1F" <> "") by discriminate.
  assert (H8 : ends_numeral 16 "" = true) by reflexivity.
  assert (H9 : numeral 8 "17" = true) by reflexivity.
  assert (H10 : ends_numeral 8 "" = true) by reflexivity.
  assert (H11 : Ascii.eqb (char_at "17" 0) "x" || Ascii.eqb (char_at "17" 0) "X"
                = false) by reflexivity.
  split; [auto 15|].
  destruct (integer_conversion no_strtof "n" (Some "count") (Some "number of lines")
              1%nat None start)
    as (_ & _ & Hdecimal & Hoctal & Hhexadecimal & _).
  split; [exact (Hdecimal "12" "abc" H1 H2 H3 H4)|].
  split; [exact (Hhexadecimal "x"%char "1F" "" H5 H6 H7 H8)|].
  exact (Hoctal "17" "" H9 H10 H11).
Defined.

(** C8, counterexample.  A handle fresh from [Argparser_new], never
    initialised, whose memory happens to hold a flag that reads as true
    and a table with its END entry: the assertion lets it through, the
    setters return, and the parser reports an unknown option as it does
    to a user. *)
Lemma uninitialised_handle_is_let_through :
  let self : @Argparser unit :=
    Argparser_new
      {| valid := true; options := [ARGPARSER_OPT_END];
         usage := None; description := None; epilog := None;
         stopAtNonOption := false;
         argc := -3; argv := 9%nat; out := 4%nat; cpidx := 2%nat |} in
  (exists self', Argparser_setUsage self (Some bud_usage) start = Continue self') /\
  (exists self',
     Argparser_setStopAtNonOption self true start = Continue self') /\
  parse_arguments no_strtof self (Some "bud") ["-x"] [None] start
  = Terminate (ExitDueToUnknownOption "-x") start.
Proof.
  intros self. split; [eexists; reflexivity|]. split; [eexists; reflexivity|].
  reflexivity.
Qed.


(** * Examples for the further properties *)

(** X1, witness: [bud --color file.txt]: the handle keeps its
    configuration, the vector its length, and a null pointer follows the
    one residual. *)
Lemma Argparser_parse_keeps_configuration_witness :
  exists self' vector' e',
    Argparser_parse no_strtof bud_parser 3
      [Some "bud"; Some "--color"; Some "file.txt"; None] start
    = Continue (1, self', vector', e') /\
    (valid self' = true /\ options self' = options (@bud_parser unit) /\
     usage self' = usage (@bud_parser unit) /\
     description self' = description (@bud_parser unit) /\
     epilog self' = epilog (@bud_parser unit) /\
     stopAtNonOption self' = stopAtNonOption (@bud_parser unit) /\
     length vector' = 4%nat /\
     (cpidx (@bud_parser unit) <= cpidx self')%nat /\
     1 = Z.of_nat (cpidx self') + argc self' /\
     vector' !! Z.to_nat 1 = Some None).
Proof.
  eexists _, _, _. split; [reflexivity|].
  eapply (Argparser_parse_keeps_configuration no_strtof bud_parser 3
            [Some "bud"; Some "--color"; Some "file.txt"; None] start 1).
  reflexivity.
Defined.

Lemma terminated_bud_options : terminated (@bud_options unit).
Proof.
  unfold terminated, bud_options. do 6 apply Exists_cons_tl.
  apply Exists_cons_hd. reflexivity.
Qed.

Lemma terminated_sample_options : terminated sample_options.
Proof.
  unfold terminated, sample_options. do 4 apply Exists_cons_tl.
  apply Exists_cons_hd. reflexivity.
Qed.

Ltac passed_over_entries :=
  unfold passed_over;
  repeat (apply List.Forall_cons;
          [split; [reflexivity|first [left; reflexivity|right; reflexivity]]|]);
  apply List.Forall_nil.

(** X5, witness: [bud -x]: no option of Bud is named [x]. *)
Lemma unknown_short_option_witness :
  let self := skip_executable_path (@bud_parser unit) 2 in
  let vector := [Some "bud"; Some "-x"; None] in
  (vector !! argv self = Some (Some "-x") /\
   strlen "-x" = 2%nat /\
   terminated (@bud_options unit) /\
   matching (@bud_options unit) (char_at "-x" 1) = []) /\
  Argparser_parseShortOption no_strtof self bud_options vector start
  = Terminate (ExitDueToUnknownOption "-x") start.
Proof.
  intros self vector.
  assert (H1 : vector !! argv self = Some (Some "-x")) by reflexivity.
  assert (H2 : strlen "-x" = 2%nat) by reflexivity.
  assert (H3 : matching (@bud_options unit) (char_at "-x" 1) = []) by reflexivity.
  split; [auto using terminated_bud_options|].
  exact (unknown_short_option no_strtof self bud_options vector "-x" start
           H1 H2 terminated_bud_options H3).
Defined.

(** X6, witness: [-n 12] on the sample table: 12 is converted and
    stored, and the cursor is left on the value. *)
Lemma short_option_takes_next_argument_witness :
  let self := skip_executable_path sample_parser 3 in
  let vector := [Some "prog"; Some "-n"; Some "12"; None] in
  let pre : list (@ArgparserOption unit) := [ARGPARSER_OPT_HELP;
              ARGPARSER_OPT_STRING "o" (Some "output") (Some 0%nat)
                "write the report to a file"] in
  let o : @ArgparserOption unit := ARGPARSER_OPT_INT "n" (Some "count") (Some 1%nat) "number of lines" in
  let post : list (@ArgparserOption unit) := [ARGPARSER_OPT_BOOL "u" (Some "unsorted") (Some 2%nat)
                 "keep the order of the input";
               ARGPARSER_OPT_END] in
  (vector !! argv self = Some (Some "-n") /\
   vector !! S (argv self) = Some (Some "12") /\
   1 < argc self /\
   is_nul "n" = false /\
   passed_over pre "n" /\
   is_END (type o) = false /\
   shortName o = "n"%char /\
   Ascii.eqb (char_at "12" 0) "-" = false /\
   (1 <= String.length "12")%nat /\
   terminated post /\
   (is_nul (char_at "12" 1) = true \/ matching post (char_at "12" 1) = [])) /\
  Argparser_parseShortOption no_strtof self sample_options vector start
  = Continue (next_argument self,
              {| memory := {[1%nat := IntCell 12]}; called := [] |}).
Proof.
  intros self vector pre o post.
  assert (H1 : vector !! argv self = Some (Some "-n")) by reflexivity.
  assert (H2 : vector !! S (argv self) = Some (Some "12")) by reflexivity.
  assert (H3 : 1 < argc self) by (simpl; lia).
  assert (H4 : is_nul "n" = false) by reflexivity.
  assert (H5 : passed_over pre "n").
  { passed_over_entries. }
  assert (H6 : is_END (type o) = false) by reflexivity.
  assert (H7 : shortName o = "n"%char) by reflexivity.
  assert (H8 : Ascii.eqb (char_at "12" 0) "-" = false) by reflexivity.
  assert (H9 : (1 <= String.length "12")%nat) by (simpl; lia).
  assert (H10 : terminated post).
  { apply Exists_cons_tl. apply Exists_cons_hd. reflexivity. }
  assert (H11 : is_nul (char_at "12" 1) = true \/ matching post (char_at "12" 1) = [])
    by (right; reflexivity).
  split; [auto 20|].
  refine (eq_trans (short_option_takes_next_argument no_strtof self pre o post vector
             "n" "12" start H1 H2 H3 H4 H5 H6 H7 H8 H9 H10 H11) _).
  reflexivity.
Defined.

(** X7, witness: [-u] as the last argument of the sample table: the flag
    is set and the cursor stays. *)
Lemma short_option_without_value_witness :
  let self := skip_executable_path sample_parser 2 in
  let vector := [Some "prog"; Some "-u"; None] in
  let pre : list (@ArgparserOption unit) := [ARGPARSER_OPT_HELP;
              ARGPARSER_OPT_STRING "o" (Some "output") (Some 0%nat)
                "write the report to a file";
              ARGPARSER_OPT_INT "n" (Some "count") (Some 1%nat) "number of lines"] in
  let o : @ArgparserOption unit := ARGPARSER_OPT_BOOL "u" (Some "unsorted") (Some 2%nat)
             "keep the order of the input" in
  let post : list (@ArgparserOption unit) := [ARGPARSER_OPT_END] in
  (vector !! argv self = Some (Some "-u") /\
   (argc self <= 1 \/
    exists d, vector !! S (argv self) = Some (Some d) /\
              Ascii.eqb (char_at d 0) "-" = true) /\
   is_nul "u" = false /\
   passed_over pre "u" /\
   is_END (type o) = false /\
   shortName o = "u"%char /\
   terminated post /\
   matching post "u" = []) /\
  Argparser_parseShortOption no_strtof self sample_options vector start
  = Continue (self, {| memory := {[2%nat := BoolCell true]}; called := [] |}).
Proof.
  intros self vector pre o post.
  assert (H1 : vector !! argv self = Some (Some "-u")) by reflexivity.
  assert (H2 : argc self <= 1 \/
               exists d, vector !! S (argv self) = Some (Some d) /\
                         Ascii.eqb (char_at d 0) "-" = true)
    by (left; simpl; lia).
  assert (H3 : is_nul "u" = false) by reflexivity.
  assert (H4 : passed_over pre "u").
  { passed_over_entries. }
  assert (H5 : is_END (type o) = false) by reflexivity.
  assert (H6 : shortName o = "u"%char) by reflexivity.
  assert (H7 : terminated post).
  { apply Exists_cons_hd. reflexivity. }
  assert (H8 : matching post "u" = []) by reflexivity.
  split; [auto 20|].
  refine (eq_trans (short_option_without_value no_strtof self pre o post vector
             "u" start H1 H2 H3 H4 H5 H6 H7 H8) _).
  reflexivity.
Defined.

(** X8, witness: [-o out.txt] on the sample table: the file name is
    stored, and the flag [u] is set as well, for the second character of
    [out.txt]. *)
Lemma value_is_matched_against_later_entries_witness :
  let self := skip_executable_path sample_parser 3 in
  let vector := [Some "prog"; Some "-o"; Some "out.txt"; None] in
  let pre : list (@ArgparserOption unit) := [ARGPARSER_OPT_HELP] in
  let o1 : @ArgparserOption unit := ARGPARSER_OPT_STRING "o" (Some "output") (Some 0%nat)
              "write the report to a file" in
  let mid : list (@ArgparserOption unit) := [ARGPARSER_OPT_INT "n" (Some "count") (Some 1%nat) "number of lines"] in
  let o2 : @ArgparserOption unit := ARGPARSER_OPT_BOOL "u" (Some "unsorted") (Some 2%nat)
              "keep the order of the input" in
  let post : list (@ArgparserOption unit) := [ARGPARSER_OPT_END] in
  (vector !! argv self = Some (Some "-o") /\
   vector !! S (argv self) = Some (Some "out.txt") /\
   argc self = 2 /\
   is_nul "o" = false /\
   passed_over pre "o" /\
   is_END (type o1) = false /\
   shortName o1 = "o"%char /\
   Ascii.eqb (char_at "out.txt" 0) "-" = false /\
   (1 <= String.length "out.txt")%nat /\
   passed_over mid (char_at "out.txt" 1) /\
   is_END (type o2) = false /\
   shortName o2 = char_at "out.txt" 1 /\
   is_nul (char_at "out.txt" 1) = false /\
   terminated post /\
   matching post (char_at "out.txt" 1) = []) /\
  Argparser_parseShortOption no_strtof self sample_options vector start
  = Continue (next_argument self,
              {| memory := {[0%nat := StringCell "out.txt";
                             2%nat := BoolCell true]};
                 called := [] |}).
Proof.
  intros self vector pre o1 mid o2 post.
  assert (H1 : vector !! argv self = Some (Some "-o")) by reflexivity.
  assert (H2 : vector !! S (argv self) = Some (Some "out.txt")) by reflexivity.
  assert (H3 : argc self = 2) by reflexivity.
  assert (H4 : is_nul "o" = false) by reflexivity.
  assert (H5 : passed_over pre "o").
  { passed_over_entries. }
  assert (H6 : is_END (type o1) = false) by reflexivity.
  assert (H7 : shortName o1 = "o"%char) by reflexivity.
  assert (H8 : Ascii.eqb (char_at "out.txt" 0) "-" = false) by reflexivity.
  assert (H9 : (1 <= String.length "out.txt")%nat) by (simpl; lia).
  assert (H10 : passed_over mid (char_at "out.txt" 1)).
  { passed_over_entries. }
  assert (H11 : is_END (type o2) = false) by reflexivity.
  assert (H12 : shortName o2 = char_at "out.txt" 1) by reflexivity.
  assert (H13 : is_nul (char_at "out.txt" 1) = false) by reflexivity.
  assert (H14 : terminated post).
  { apply Exists_cons_hd. reflexivity. }
  assert (H15 : matching post (char_at "out.txt" 1) = []) by reflexivity.
  split; [auto 20|].
  refine (eq_trans
            (value_is_matched_against_later_entries no_strtof self pre o1 mid o2
               post vector "o" "out.txt" start
               H1 H2 H3 H4 H5 H6 H7 H8 H9 H10 H11 H12 H13 H14 H15) _).
  reflexivity.
Defined.

(** X9, witness: [bud -c expenses.txt]: the file name is taken as the
    value of the flag and rejected. *)
Lemma flag_before_positional_is_rejected_witness :
  let pre : list (@ArgparserOption unit) := [ARGPARSER_OPT_HELP] in
  let o : @ArgparserOption unit := ARGPARSER_OPT_BOOL "c" (Some "color") (Some colorOutput)
             "display with colors" in
  let post : list (@ArgparserOption unit) := drop 2 bud_options in
  (valid (@bud_parser unit) = true /\
   is_nul "c" = false /\
   Ascii.eqb "c" "-" = false /\
   passed_over pre "c" /\
   options (@bud_parser unit) = (pre ++ o :: post)%list /\
   type o = ARGPARSER_TYPE_BOOLEAN /\
   shortName o = "c"%char /\
   value o = Some colorOutput /\
   Ascii.eqb (char_at "expenses.txt" 0) "-" = false /\
   (strlen "expenses.txt" =? 1)%nat &&
     (Ascii.eqb (char_at "expenses.txt" 0) "1" ||
      Ascii.eqb (char_at "expenses.txt" 0) "0") = false) /\
  parse_arguments no_strtof bud_parser (Some "bud") ["-c"; "expenses.txt"]
    [None] start
  = Terminate (ExitDueToError "c" (Some "color")
                 (Message "expects no value, 0, or 1")) start.
Proof.
  intros pre o post.
  assert (H1 : valid (@bud_parser unit) = true) by reflexivity.
  assert (H2 : is_nul "c" = false) by reflexivity.
  assert (H3 : Ascii.eqb "c" "-" = false) by reflexivity.
  assert (H4 : passed_over pre "c").
  { passed_over_entries. }
  assert (H5 : options (@bud_parser unit) = (pre ++ o :: post)%list) by reflexivity.
  assert (H6 : type o = ARGPARSER_TYPE_BOOLEAN) by reflexivity.
  assert (H7 : shortName o = "c"%char) by reflexivity.
  assert (H8 : value o = Some colorOutput) by reflexivity.
  assert (H9 : Ascii.eqb (char_at "expenses.txt" 0) "-" = false) by reflexivity.
  assert (H10 : (strlen "expenses.txt" =? 1)%nat &&
                  (Ascii.eqb (char_at "expenses.txt" 0) "1" ||
                   Ascii.eqb (char_at "expenses.txt" 0) "0") = false)
    by reflexivity.
  split; [auto 20|].
  exact (flag_before_positional_is_rejected no_strtof bud_parser (Some "bud")
           pre o post "c" colorOutput "expenses.txt" [] [None] start
           H1 H2 H3 H4 H5 H6 H7 H8 H9 H10).
Defined.

(** X10, witness: [--count 12] on the sample table: without [=] the
    INTEGER option is not matched, and 12 is not looked at. *)
Lemma unknown_long_option_witness :
  let self := skip_executable_path sample_parser 3 in
  let vector := [Some "prog"; Some "--count"; Some "12"; None] in
  (vector !! argv self = Some (Some "--count") /\
   terminated sample_options /\
   Forall (no_long_match (advance 2 "--count")) (entries sample_options)) /\
  Argparser_parseLongOption no_strtof self sample_options vector start
  = Terminate (ExitDueToUnknownOption "--count") start.
Proof.
  intros self vector.
  assert (H1 : vector !! argv self = Some (Some "--count")) by reflexivity.
  assert (H3 : Forall (no_long_match (advance 2 "--count")) (entries sample_options)).
  { change (entries sample_options) with (take 4 sample_options).
    repeat (apply List.Forall_cons;
            [intros name Hn; injection Hn as <-; split; [reflexivity|]; right;
             first [left; reflexivity | right; split; reflexivity]|]).
    apply List.Forall_nil. }
  split; [auto using terminated_sample_options|].
  exact (unknown_long_option no_strtof self sample_options vector "--count"
           start H1 terminated_sample_options H3).
Defined.

(** X11, witness: [--count=12] on the INTEGER option of the sample
    table. *)
Lemma long_option_candidate_witness :
  let o : @ArgparserOption unit := ARGPARSER_OPT_INT "n" (Some "count") (Some 1%nat)
             "number of lines" in
  (is_END (type o) = false /\
   longName o = Some "count" /\
   c_string "count" /\
   "count" <> EmptyString) /\
  long_scan no_strtof [o; ARGPARSER_OPT_END] "--count=12" false start
  = Continue (true, {| memory := {[1%nat := IntCell 12]}; called := [] |}).
Proof.
  intros o.
  assert (H1 : is_END (type o) = false) by reflexivity.
  assert (H2 : longName o = Some "count") by reflexivity.
  assert (H3 : c_string "count") by reflexivity.
  assert (H4 : "count" <> EmptyString) by discriminate.
  split; [auto|].
  refine (eq_trans
            (long_option_candidate no_strtof o [ARGPARSER_OPT_END] "count"
               "=12" false start H1 H2 H3 H4) _).
  reflexivity.
Defined.

(** X3, witness: [bud --color a.txt b.txt]: the residual is the two file
    names. *)
Lemma fresh_parse_partition_witness :
  exists self' vector' e',
    (valid (@bud_parser unit) = true /\
     cpidx (@bud_parser unit) = 0%nat /\
     parse_arguments no_strtof bud_parser (Some "bud")
       ["--color"; "a.txt"; "b.txt"] [None] start
     = Continue (2, self', vector', e')) /\
    exists read unread ps,
      ["--color"; "a.txt"; "b.txt"] = (read ++ unread)%list /\
      reading (options (@bud_parser unit)) read ps /\
      (unread = [] \/
       (stopAtNonOption (@bud_parser unit) = true /\
        exists p rest, unread = p :: rest /\ is_plain p = true) \/
       (exists read' t, read = (read' ++ [t])%list /\ is_terminator t = true)) /\
      (stopAtNonOption (@bud_parser unit) = true -> ps = []) /\
      2 = Z.of_nat (length (ps ++ unread)%list) /\
      take (length (ps ++ unread)%list) vector' = (Some <$> (ps ++ unread)%list) /\
      vector' !! length (ps ++ unread)%list = Some None.
Proof.
  eexists _, _, _.
  assert (H1 : valid (@bud_parser unit) = true) by reflexivity.
  assert (H2 : cpidx (@bud_parser unit) = 0%nat) by reflexivity.
  split; [split; [exact H1|split; [exact H2|reflexivity]]|].
  eapply (fresh_parse_partition no_strtof bud_parser (Some "bud")
           ["--color"; "a.txt"; "b.txt"] [None] start 2 _ _ _ H1 H2).
  reflexivity.
Defined.

(** X4, witness: [bud a.txt -]: nothing is an option, the arguments come
    back as they are. *)
Lemma fresh_parse_plain_witness :
  (valid (@bud_parser unit) = true /\
   cpidx (@bud_parser unit) = 0%nat /\
   Forall (fun t => is_plain t = true) ["a.txt"; "-"]) /\
  exists self' vector',
    parse_arguments no_strtof bud_parser (Some "bud") ["a.txt"; "-"] [None] start
    = Continue (Z.of_nat (length ["a.txt"; "-"]), self', vector', start) /\
    take (length ["a.txt"; "-"]) vector' = Some <$> ["a.txt"; "-"] /\
    vector' !! length ["a.txt"; "-"] = Some None.
Proof.
  assert (H1 : valid (@bud_parser unit) = true) by reflexivity.
  assert (H2 : cpidx (@bud_parser unit) = 0%nat) by reflexivity.
  assert (H3 : Forall (fun t => is_plain t = true) ["a.txt"; "-"])
    by (repeat constructor).
  split; [auto|].
  exact (fresh_parse_plain no_strtof bud_parser (Some "bud") ["a.txt"; "-"]
           [None] start H1 H2 H3).
Defined.

(** The usage text of Bud, as [--help] prints it. *)
Lemma bud_usage_text :
  Argparser_usage (@bud_parser unit) = Some
    ("Usage: " +:+ bud_usage +:+ LF +:+ bud_description +:+ LF +:+
     "    -h, --help        show this help message and exit" +:+ LF +:+
     "    -c, --color       display with colors" +:+ LF +:+
     "    -i, --inverse     inverse the sign of all input" +:+ LF +:+
     "    --nochart         hide the chart" +:+ LF +:+
     "    --noheader        hide the header" +:+ LF +:+
     "    --nototal         hide the total" +:+ LF).
Proof. vm_compute. reflexivity. Qed.

Lemma short_names_bud_options : short_names (@bud_options unit).
Proof.
  unfold short_names. change (entries bud_options) with (take 6 (@bud_options unit)).
  repeat (apply List.Forall_cons;
          [intros name Hn; injection Hn as <-; vm_compute; reflexivity|]).
  apply List.Forall_nil.
Qed.

(** X12, witness: the table of Bud: the longest names, [-i, --inverse],
    have 13 characters, and the column is 16. *)
Lemma best_width_is_least_multiple_of_four_witness :
  (terminated (@bud_options unit) /\ short_names (@bud_options unit)) /\
  exists w,
    best_width (@bud_options unit) 0 = Some w /\
    w mod 4 = 0 /\
    Forall (fun o => Z.of_nat (String.length (option_names o)) <= w)
      (entries (@bud_options unit)) /\
    (w = 0 \/
     Exists (fun o => w - 4 < Z.of_nat (String.length (option_names o)))
       (entries (@bud_options unit))).
Proof.
  split; [split; [exact terminated_bud_options|exact short_names_bud_options]|].
  exact (best_width_is_least_multiple_of_four bud_options
           terminated_bud_options short_names_bud_options).
Defined.

(** X13, witness: the line of [-c, --color] in the usage text of Bud. *)
Lemma usage_option_aligned_witness :
  let o : @ArgparserOption unit :=
    ARGPARSER_OPT_BOOL "c" (Some "color") (Some colorOutput)
      "display with colors" in
  (terminated (@bud_options unit) /\
   short_names (@bud_options unit) /\
   best_width (@bud_options unit) 0 = Some 16 /\
   o ∈ entries (@bud_options unit) /\
   is_GROUP (type o) = false /\
   help o = Some "display with colors") /\
  exists padding : nat,
    usage_option o (size_t (16 + 4)) =
      Some ("    " +:+ option_names o +:+ spaces padding
            +:+ c_str "display with colors" +:+ LF) /\
    (2 <= padding)%nat /\
    Z.of_nat (String.length ("    " +:+ option_names o +:+ spaces padding))
      = 16 + 6.
Proof.
  intros o.
  assert (H3 : best_width (@bud_options unit) 0 = Some 16) by reflexivity.
  assert (H4 : o ∈ entries (@bud_options unit)).
  { apply (list_elem_of_lookup_2 _ 1%nat). reflexivity. }
  assert (H5 : is_GROUP (type o) = false) by reflexivity.
  assert (H6 : help o = Some "display with colors") by reflexivity.
  split; [auto 10 using terminated_bud_options, short_names_bud_options|].
  exact (usage_option_aligned bud_options 16 o "display with colors"
           terminated_bud_options short_names_bud_options H3 H4 H5 H6).
Defined.

(** X14, witness: 2.50 more for food, which has a bucket already. *)
Lemma addEntryToBucket_totals_witness :
  let buckets := [ {| category := "rent"; totalCents := 40000 |};
                   {| category := "food"; totalCents := 1000 |} ] in
  LONG_MIN <= total_of "food" buckets + 250 <= LONG_MAX /\
  exists buckets',
    addEntryToBucket "food" 250 buckets = Some buckets' /\
    (forall other,
       total_of other buckets' =
         if (strcmp other "food" =? 0)%Z
         then total_of other buckets + 250
         else total_of other buckets) /\
    sum_of buckets' = sum_of buckets + 250.
Proof.
  intros buckets.
  assert (H : LONG_MIN <= total_of "food" buckets + 250 <= LONG_MAX).
  { vm_compute. split; discriminate. }
  split; [exact H|].
  exact (addEntryToBucket_totals "food" 250 buckets H).
Defined.

(** X15, witness: a category that has no bucket yet goes to the head of
    the list. *)
Lemma addEntryToBucket_categories_witness :
  let buckets := [ {| category := "rent"; totalCents := 40000 |};
                   {| category := "food"; totalCents := 1000 |} ] in
  let buckets' := {| category := "fun"; totalCents := 250 |} :: buckets in
  addEntryToBucket "fun" 250 buckets = Some buckets' /\
  category <$> buckets' =
    (if has_category "fun" buckets then category <$> buckets
     else c_str "fun" :: (category <$> buckets)) /\
  (distinct_categories buckets -> distinct_categories buckets').
Proof.
  intros buckets buckets'.
  assert (H : addEntryToBucket "fun" 250 buckets = Some buckets') by reflexivity.
  split; [exact H|].
  exact (addEntryToBucket_categories "fun" 250 buckets buckets' H).
Defined.

(** X16, witness: one bucket with a positive total and two with negative
    ones. *)
Lemma calculateTotals_sums_witness :
  let buckets := [ {| category := "pay"; totalCents := 100000 |};
                   {| category := "rent"; totalCents := -40000 |};
                   {| category := "food"; totalCents := -1250 |} ] in
  sum_of_magnitudes buckets <= LONG_MAX /\
  exists p n,
    calculateTotals buckets = Some (p, n) /\
    0 <= p /\ n <= 0 /\
    p + n = sum_of buckets /\
    p - n = sum_of_magnitudes buckets.
Proof.
  intros buckets.
  assert (H : sum_of_magnitudes buckets <= LONG_MAX) by (vm_compute; discriminate).
  split; [exact H|].
  exact (calculateTotals_sums buckets H).
Defined.

(** X17, witness: the line [2019-01-01 food -0.50]: the euros are zero,
    the sign is lost, and 50 cents are added to [food]. *)
Lemma processEntry_entry_witness :
  (only SEPARATOR_CSV "" = true /\
   free_of SEPARATOR_CSV "2019-01-01" = true /\ "2019-01-01" <> "" /\
   member " " SEPARATOR_CSV = true /\
   only SEPARATOR_CSV "" = true /\
   free_of SEPARATOR_CSV "food" = true /\ "food" <> "" /\
   member " " SEPARATOR_CSV = true /\
   only SEPARATOR_CSV "" = true /\
   chars is_digit "0" = true /\ "0" <> "" /\
   member "." SEPARATOR_CURRENCY = true /\
   chars is_digit "50" = true /\ "50" <> "" /\
   ends_number LF = true /\
   decimal "0" * 100 <= INT_MAX /\
   decimal "50" <= INT_MAX) /\
  processEntry (∅ : gmap nat (@cell unit)) 1
    ("2019-01-01 food -0.50" +:+ LF) []
  = Some ([ {| category := "food"; totalCents := 50 |} ], None).
Proof.
  assert (H1 : only SEPARATOR_CSV "" = true) by reflexivity.
  assert (H2 : free_of SEPARATOR_CSV "2019-01-01" = true) by reflexivity.
  assert (H3 : "2019-01-01" <> "") by discriminate.
  assert (H4 : member " " SEPARATOR_CSV = true) by reflexivity.
  assert (H5 : free_of SEPARATOR_CSV "food" = true) by reflexivity.
  assert (H6 : "food" <> "") by discriminate.
  assert (H7 : chars is_digit "0" = true) by reflexivity.
  assert (H8 : "0" <> "") by discriminate.
  assert (H9 : member "." SEPARATOR_CURRENCY = true) by reflexivity.
  assert (H10 : chars is_digit "50" = true) by reflexivity.
  assert (H11 : "50" <> "") by discriminate.
  assert (H12 : ends_number LF = true) by reflexivity.
  assert (H13 : decimal "0" * 100 <= INT_MAX) by (vm_compute; discriminate).
  assert (H14 : decimal "50" <= INT_MAX) by (vm_compute; discriminate).
  split; [repeat split; assumption|].
  refine (eq_trans
            (processEntry_entry (∅ : gmap nat (@cell unit)) 1 []
               "" "2019-01-01" " " "" "food" " " "" true "0" "." "50" LF
               H1 H2 H3 H4 H1 H5 H6 H4 H1 H7 H8 H9 H10 H11 H12 H13 H14) _).
  reflexivity.
Defined.

(** X18, witness: the line [2019-01-01 food 12] has no cents: it is not
    an entry, and the warning is printed. *)
Lemma processEntry_without_separator_witness :
  chars (fun c => negb (member c SEPARATOR_CURRENCY))
    ("2019-01-01 food 12" +:+ LF) = true /\
  exists warning,
    processEntry (∅ : gmap nat (@cell unit)) 3 ("2019-01-01 food 12" +:+ LF) []
      = Some ([], warning) /\
    (chars (fun c => member c BLANKS) ("2019-01-01 food 12" +:+ LF) = true ->
     warning = None) /\
    (is_nul (char_at ("2019-01-01 food 12" +:+ LF) 0) = false ->
     member (char_at ("2019-01-01 food 12" +:+ LF) 0) BLANKS = false ->
     warning = Some 3).
Proof.
  assert (H : chars (fun c => negb (member c SEPARATOR_CURRENCY))
                ("2019-01-01 food 12" +:+ LF) = true) by reflexivity.
  split; [exact H|].
  exact (processEntry_without_separator (∅ : gmap nat (@cell unit)) 3
           ("2019-01-01 food 12" +:+ LF) [] H).
Defined.

(** X20, witness: two lines: the first is handed over with its line
    feed, and the loop goes on with the second as line 2. *)
Lemma read_entries_buffer_witness :
  let l := "2019-01-01 food 12.50" in
  let rest := "2019-01-02 rent 400,00" +:+ LF in
  (chars (fun c => negb (Ascii.eqb c (ascii_of_nat 10))) l = true /\
   ((LF = String (ascii_of_nat 10) EmptyString /\ (String.length l <= 254)%nat) \/
    (LF = EmptyString /\ String.length l = 255%nat) \/
    (LF = EmptyString /\ rest = EmptyString /\
     (1 <= String.length l <= 255)%nat))) /\
  read_entries 3 (∅ : gmap nat (@cell unit)) 1 ((l +:+ LF) +:+ rest) [] []
  = Goes ([ {| category := "rent"; totalCents := 40000 |};
            {| category := "food"; totalCents := 1250 |} ], []).
Proof.
  intros l rest.
  assert (H1 : chars (fun c => negb (Ascii.eqb c (ascii_of_nat 10))) l = true)
    by reflexivity.
  assert (H2 : (LF = String (ascii_of_nat 10) EmptyString /\
                (String.length l <= 254)%nat) \/
               (LF = EmptyString /\ String.length l = 255%nat) \/
               (LF = EmptyString /\ rest = EmptyString /\
                (1 <= String.length l <= 255)%nat)).
  { left. split; [reflexivity|]. vm_compute. lia. }
  split; [split; assumption|].
  refine (eq_trans
            (read_entries_buffer 2 (∅ : gmap nat (@cell unit)) 1 [] [] l LF rest
               H1 H2) _).
  vm_compute. reflexivity.
Defined.

(** X22, witness: [-n5] on the sample table: the INTEGER option [n] is
    given no value. *)
Lemma short_option_cannot_attach_value_witness :
  let self := skip_executable_path sample_parser 2 in
  let vector := [Some "prog"; Some "-n5"; None] in
  let pre : list (@ArgparserOption unit) :=
    [ARGPARSER_OPT_HELP;
     ARGPARSER_OPT_STRING "o" (Some "output") (Some 0%nat)
       "write the report to a file"] in
  let o : @ArgparserOption unit :=
    ARGPARSER_OPT_INT "n" (Some "count") (Some 1%nat) "number of lines" in
  let post : list (@ArgparserOption unit) :=
    [ARGPARSER_OPT_BOOL "u" (Some "unsorted") (Some 2%nat)
       "keep the order of the input";
     ARGPARSER_OPT_END] in
  (vector !! argv self = Some (Some "-n5") /\
   (strlen "-n5" =? 2)%nat = false /\
   is_nul (char_at "-n5" 1) = false /\
   passed_over pre (char_at "-n5" 1) /\
   is_END (type o) = false /\
   shortName o = char_at "-n5" 1 /\
   value o = Some 1%nat /\
   (type o = ARGPARSER_TYPE_INTEGER \/ type o = ARGPARSER_TYPE_FLOAT \/
    type o = ARGPARSER_TYPE_STRING)) /\
  Argparser_parseShortOption no_strtof self sample_options vector start
  = Terminate (ExitDueToError "n" (Some "count") (Message "requires a value"))
      start.
Proof.
  intros self vector pre o post.
  assert (H1 : vector !! argv self = Some (Some "-n5")) by reflexivity.
  assert (H2 : (strlen "-n5" =? 2)%nat = false) by reflexivity.
  assert (H3 : is_nul (char_at "-n5" 1) = false) by reflexivity.
  assert (H4 : passed_over pre (char_at "-n5" 1)).
  { passed_over_entries. }
  assert (H5 : is_END (type o) = false) by reflexivity.
  assert (H6 : shortName o = char_at "-n5" 1) by reflexivity.
  assert (H7 : value o = Some 1%nat) by reflexivity.
  assert (H8 : type o = ARGPARSER_TYPE_INTEGER \/ type o = ARGPARSER_TYPE_FLOAT \/
               type o = ARGPARSER_TYPE_STRING) by (left; reflexivity).
  split; [auto 20|].
  exact (short_option_cannot_attach_value no_strtof self pre o post vector "-n5"
           1%nat start H1 H2 H3 H4 H5 H6 H7 H8).
Defined.

(** X23, witness: a call with the count 0 and an array that holds the
    null pointer alone. *)
Lemma nonpositive_count_never_returns_witness :
  0 <= 0 /\
  exists t e',
    Argparser_parse no_strtof bud_parser 0 [None] start = Terminate t e'.
Proof.
  assert (H : 0 <= 0) by lia.
  split; [exact H|].
  exact (nonpositive_count_never_returns no_strtof bud_parser 0 [None] start H).
Defined.

(** X24, witness: the line [2019-01-01 house 21474837.00]. *)
Lemma processEntry_large_amount_is_undefined_witness :
  (only SEPARATOR_CSV "" = true /\
   free_of SEPARATOR_CSV "2019-01-01" = true /\ "2019-01-01" <> "" /\
   member " " SEPARATOR_CSV = true /\
   only SEPARATOR_CSV "" = true /\
   free_of SEPARATOR_CSV "house" = true /\ "house" <> "" /\
   member " " SEPARATOR_CSV = true /\
   only SEPARATOR_CSV "" = true /\
   chars is_digit "21474837" = true /\ "21474837" <> "" /\
   member "." SEPARATOR_CURRENCY = true /\
   chars is_digit "00" = true /\ "00" <> "" /\
   INT_MAX < decimal "21474837" * 100) /\
  processEntry (∅ : gmap nat (@cell unit)) 1
    ("2019-01-01 house 21474837.00" +:+ LF) []
  = None.
Proof.
  assert (H1 : only SEPARATOR_CSV "" = true) by reflexivity.
  assert (H2 : free_of SEPARATOR_CSV "2019-01-01" = true) by reflexivity.
  assert (H3 : "2019-01-01" <> "") by discriminate.
  assert (H4 : member " " SEPARATOR_CSV = true) by reflexivity.
  assert (H5 : free_of SEPARATOR_CSV "house" = true) by reflexivity.
  assert (H6 : "house" <> "") by discriminate.
  assert (H7 : chars is_digit "21474837" = true) by reflexivity.
  assert (H8 : "21474837" <> "") by discriminate.
  assert (H9 : member "." SEPARATOR_CURRENCY = true) by reflexivity.
  assert (H10 : chars is_digit "00" = true) by reflexivity.
  assert (H11 : "00" <> "") by discriminate.
  assert (H12 : INT_MAX < decimal "21474837" * 100) by (vm_compute; reflexivity).
  split; [repeat split; assumption|].
  exact (processEntry_large_amount_is_undefined (∅ : gmap nat (@cell unit)) 1 []
           "" "2019-01-01" " " "" "house" " " "" false "21474837" "." "00" LF
           H1 H2 H3 H4 H1 H5 H6 H4 H1 H7 H8 H9 H10 H11 H12).
Defined.

(** X25, witness: [bud a.txt --color b.txt]: the flag after [a.txt] is
    parsed, and both file names are left. *)
Lemma options_after_positionals_witness :
  (valid (@bud_parser unit) = true /\
   cpidx (@bud_parser unit) = 0%nat /\
   stopAtNonOption (@bud_parser unit) = false /\
   Forall (fun t => is_plain t = true) ["a.txt"]) /\
  exists self' vector',
    parse_arguments no_strtof bud_parser (Some "bud")
      ["a.txt"; "--color"; "b.txt"] [None] start
    = Continue (2, self', vector',
                {| memory := {[colorOutput := BoolCell true]}; called := [] |}) /\
    take 1 vector' = [Some "a.txt"] /\
    take 1 (drop 1 vector') = [Some "b.txt"] /\
    vector' !! 2%nat = Some None.
Proof.
  assert (H1 : valid (@bud_parser unit) = true) by reflexivity.
  assert (H2 : cpidx (@bud_parser unit) = 0%nat) by reflexivity.
  assert (H3 : stopAtNonOption (@bud_parser unit) = false) by reflexivity.
  assert (H4 : Forall (fun t => is_plain t = true) ["a.txt"])
    by (repeat constructor).
  split; [auto|].
  pose proof (options_after_positionals no_strtof bud_parser (Some "bud")
                ["a.txt"] ["--color"; "b.txt"] [None] [None] start
                H1 H2 H3 H4) as H.
  set (r := parse_arguments no_strtof bud_parser (Some "bud")
              ["--color"; "b.txt"] [None] start) in H.
  vm_compute in r. subst r. cbv beta iota in H.
  destruct H as (self' & vector' & Hparse & Hps & Hrest & Hnull).
  exists self', vector'. split; [exact Hparse|]. split; [exact Hps|].
  split; [exact Hrest|exact Hnull].
Defined.

(** X26, witness: an income and an expense, read without and with
    [inverse]. *)
Lemma inverse_negates_totals_witness :
  let m : gmap nat (@cell unit) := ∅ in
  let m' : gmap nat (@cell unit) := {[inverse := BoolCell true]} in
  let input := "2019-01-01 pay 1000.00" +:+ LF +:+ "2019-01-02 food -12.50" +:+ LF in
  let buckets1 := [ {| category := "food"; totalCents := -1250 |};
                    {| category := "pay"; totalCents := 100000 |} ] in
  let buckets2 := [ {| category := "food"; totalCents := 1250 |};
                    {| category := "pay"; totalCents := -100000 |} ] in
  (is_set m' inverse = negb (is_set m inverse) /\
   read_entries 3 m 1 input [] [] = Goes (buckets1, []) /\
   read_entries 3 m' 1 input [] [] = Goes (buckets2, [])) /\
  buckets2 = negated buckets1 /\ ([] : list Z) = [] /\
  forall p n p' n',
    calculateTotals buckets1 = Some (p, n) ->
    calculateTotals buckets2 = Some (p', n') ->
    p' = - n /\ n' = - p.
Proof.
  intros m m' input buckets1 buckets2.
  assert (H1 : is_set m' inverse = negb (is_set m inverse)) by reflexivity.
  assert (H2 : read_entries 3 m 1 input [] [] = Goes (buckets1, []))
    by (vm_compute; reflexivity).
  assert (H3 : read_entries 3 m' 1 input [] [] = Goes (buckets2, []))
    by (vm_compute; reflexivity).
  split; [auto|].
  exact (inverse_negates_totals m m' 3 input buckets1 [] buckets2 [] H1 H2 H3).
Defined.
